(** * Multi-chain RPC manager: endpoint selection, rate counters,
      retry/backoff executor and health monitor.

    A shallow embedding of [src/services/rpcManager.js] (class [RPCManager])
    and the properties of its selection, retry and health-check logic.

    Conventions of the embedding.
    - JavaScript numbers that the code only ever uses as integers
      (timestamps in milliseconds, counters, priorities, capacities,
      [maxRetries]) are [Z].  The one place where a non-number can appear,
      the wait time parsed out of an error, is a [jsnum], which adds [NaN].
    - [Date.now()] is an explicit argument [now]; one synchronous section of
      code reads a single instant.  [executeWithRetry] threads a clock that
      the operation and every [sleep] advance.
    - The objects [this.connections] and [this.rpcConfigs] are association
      lists of their own properties, from chain name to pool, in insertion
      order (the order [Object.entries] walks them: chain names are not
      written like array indices, and "__proto__" is never an own key).
      Reading [obj[chain]] goes on to [Object.prototype] when [chain] is no
      own key: [readProp] tells an own value from an inherited one
      ("constructor", "toString", "__proto__", ...) and from [undefined].
      [this.failedRPCs] is a [gset string] and [this.requestCounters] a
      [gmap string Counter].
    - A live connection object is a handle [Conn]; [===] on connections is
      equality of handles.
    - A string is the sequence of its UTF-8 bytes, as in a string literal
      of this file; the patterns the code searches for are ASCII.
    - An error object is kept as the fields the code reads: [code],
      [message] (a string when present) and [headers] (strings under
      string keys when present).  A caller's operation may also throw
      something that is no object; see [Settled].
    - One call runs from start to end with no other task of the event loop
      touching the manager in between.
    - The map [this.rateLimits] is never read or written after the
      constructor and is left out, as are the log lines and the timers that
      start the health monitor. *)

From Stdlib Require Import ZArith Lia List Ascii String Bool.
From stdpp Require Import base gmap strings list fin_maps fin_sets sorting.

Local Open Scope string_scope.
Local Open Scope Z_scope.

(** ** JavaScript values the manager looks at *)

Inductive jsnum :=
| Num (z : Z)
| NaN.

(** [Math.max] and [Math.min]: a [NaN] argument gives [NaN]. *)
Definition jsMax (a b : jsnum) : jsnum :=
  match a, b with
  | Num x, Num y => Num (Z.max x y)
  | _, _ => NaN
  end.

Definition jsMin (a b : jsnum) : jsnum :=
  match a, b with
  | Num x, Num y => Num (Z.min x y)
  | _, _ => NaN
  end.

Definition jsMul (a b : jsnum) : jsnum :=
  match a, b with
  | Num x, Num y => Num (x * y)
  | _, _ => NaN
  end.

(** [String.prototype.includes]. *)
Fixpoint includes (needle hay : string) : bool :=
  String.prefix needle hay ||
  match hay with
  | EmptyString => false
  | String _ rest => includes needle rest
  end.

Definition isDigit (c : ascii) : bool :=
  let n := nat_of_ascii c in (48 <=? n)%nat && (n <=? 57)%nat.

(** The white space that [parseInt] skips (ECMAScript WhiteSpace and
    LineTerminator), by its UTF-8 bytes.  One byte: TAB, LF, VT, FF, CR and
    the space. *)
Definition isWhite (c : ascii) : bool :=
  let n := nat_of_ascii c in
  ((9 <=? n)%nat && (n <=? 13)%nat) || (n =? 32)%nat.

(** Two bytes: U+00A0. *)
Definition isWhite2 (c1 c2 : ascii) : bool :=
  (nat_of_ascii c1 =? 194)%nat && (nat_of_ascii c2 =? 160)%nat.

(** Three bytes: U+1680; U+2000 to U+200A, U+2028, U+2029, U+202F; U+205F;
    U+3000; U+FEFF. *)
Definition isWhite3 (c1 c2 c3 : ascii) : bool :=
  let a := nat_of_ascii c1 in
  let b := nat_of_ascii c2 in
  let c := nat_of_ascii c3 in
  ((a =? 225) && (b =? 154) && (c =? 128))%nat
  || ((a =? 226) && (b =? 128)
      && (((128 <=? c) && (c <=? 138)) || (c =? 168) || (c =? 169)
          || (c =? 175)))%nat
  || ((a =? 226) && (b =? 129) && (c =? 159))%nat
  || ((a =? 227) && (b =? 128) && (c =? 128))%nat
  || ((a =? 239) && (b =? 187) && (c =? 191))%nat.

Definition digitVal (c : ascii) : option Z :=
  let n := nat_of_ascii c in
  if (48 <=? n)%nat && (n <=? 57)%nat then Some (Z.of_nat n - 48)
  else if (97 <=? n)%nat && (n <=? 122)%nat then Some (Z.of_nat n - 87)
  else if (65 <=? n)%nat && (n <=? 90)%nat then Some (Z.of_nat n - 55)
  else None.

Fixpoint skipWhite (s : string) : string :=
  match s with
  | String c rest =>
      if isWhite c then skipWhite rest
      else
        match rest with
        | String c2 rest2 =>
            if isWhite2 c c2 then skipWhite rest2
            else
              match rest2 with
              | String c3 rest3 =>
                  if isWhite3 c c2 c3 then skipWhite rest3 else s
              | EmptyString => s
              end
        | EmptyString => s
        end
  | EmptyString => s
  end.

(** The longest prefix of digits of the radix, read left to right; [None]
    when there is no digit at all. *)
Fixpoint parseDigits (radix : Z) (acc : option Z) (s : string) : option Z :=
  match s with
  | String c rest =>
      match digitVal c with
      | Some d =>
          if d <? radix
          then parseDigits radix (Some (radix * default 0 acc + d)) rest
          else acc
      | None => acc
      end
  | EmptyString => acc
  end.

(** [parseInt(s)] with no radix argument: leading white space, a sign, a
    [0x] prefix for base 16, then the digits.  Integers beyond 2^53 are
    rounded by JavaScript; the only caller clamps the result to
    [5000, 60000], which the rounding cannot cross. *)
Definition parseInt (s : string) : jsnum :=
  let s1 := skipWhite s in
  let '(neg, s2) :=
    match s1 with
    | String "-" rest => (true, rest)
    | String "+" rest => (false, rest)
    | _ => (false, s1)
    end in
  let '(radix, s3) :=
    match s2 with
    | String "0" (String "x" rest) => (16, rest)
    | String "0" (String "X" rest) => (16, rest)
    | _ => (10, s2)
    end in
  match parseDigits radix None s3 with
  | None => NaN
  | Some v => Num (if neg then - v else v)
  end.

Fixpoint takeDigits (s : string) : string :=
  match s with
  | String c rest => if isDigit c then String c (takeDigits rest) else EmptyString
  | EmptyString => EmptyString
  end.

(** [s.match(/(\d+)/)]: the first run of decimal digits, capture group 1. *)
Fixpoint matchDigits (s : string) : option string :=
  match s with
  | String c rest => if isDigit c then Some (takeDigits s) else matchDigits rest
  | EmptyString => None
  end.

(** The fields of a thrown error object that [executeWithRetry] and
    [handleRateLimit] read: [code] (compared with the number 429 and the
    string "NETWORK_ERROR"), [message] (a string, or absent) and [headers]
    (an object of strings, or absent). *)
Inductive jscode :=
| CodeUndefined
| CodeNumber (n : Z)
| CodeString (s : string).

Record JsError := {
  code : jscode;
  message : option string;
  headers : option (gmap string string)
}.

Definition mkError (msg : string) : JsError :=
  {| code := CodeUndefined; message := Some msg; headers := None |}.

(** [error.message?.includes(s)] used as a condition. *)
Definition messageIncludes (s : string) (e : JsError) : bool :=
  match message e with
  | Some m => includes s m
  | None => false
  end.

(** ** Data model *)

Definition Conn := nat.

Module Config.
Record t := {
  url : string;
  priority : Z;
  maxRequestsPerSecond : Z
}.
End Config.

Record Endpoint := {
  url : string;
  priority : Z;
  maxRequestsPerSecond : Z;
  connection : Conn;
  healthy : bool;
  lastUsed : Z;
  requestCount : Z;
  errorCount : Z
}.

Record Counter := {
  count : Z;
  lastReset : Z
}.

Record RPCManager := {
  initialized : bool;
  failedRPCs : gset string;
  lastHealthCheck : Z;
  healthCheckInterval : Z;
  rpcConfigs : list (string * list Config.t);
  connections : list (string * list Endpoint);
  requestCounters : gmap string Counter
}.

(** An object is the association list of its own properties, in insertion
    order.  [getProp] finds an own property and [setProp] is the write
    [obj[key] = v]. *)
Fixpoint getProp {A} (key : string) (obj : list (string * A)) : option A :=
  match obj with
  | [] => None
  | (k, v) :: rest => if String.eqb k key then Some v else getProp key rest
  end.

Fixpoint setProp {A} (key : string) (v : A) (obj : list (string * A))
  : list (string * A) :=
  match obj with
  | [] => [(key, v)]
  | (k, w) :: rest =>
      if String.eqb k key then (k, v) :: rest else (k, w) :: setProp key v rest
  end.

(** The property names that every plain object inherits from
    [Object.prototype]. *)
Definition inheritedNames : list string :=
  [ "constructor"; "__defineGetter__"; "__defineSetter__"; "hasOwnProperty";
    "__lookupGetter__"; "__lookupSetter__"; "isPrototypeOf";
    "propertyIsEnumerable"; "toString"; "valueOf"; "__proto__";
    "toLocaleString" ].

(** What the read [obj[key]] finds: an own property; failing that, a
    property of [Object.prototype], which is a function or an object (truthy,
    and without any of the array methods); failing that, [undefined]. *)
Inductive Lookup (A : Type) :=
| Own (v : A)
| Inherited
| Missing.
Arguments Own {A} v.
Arguments Inherited {A}.
Arguments Missing {A}.

Definition readProp {A} (key : string) (obj : list (string * A)) : Lookup A :=
  match getProp key obj with
  | Some v => Own v
  | None => if bool_decide (key ∈ inheritedNames) then Inherited else Missing
  end.

Definition setFailed (f : gset string) (m : RPCManager) : RPCManager :=
  {| initialized := initialized m; failedRPCs := f;
     lastHealthCheck := lastHealthCheck m;
     healthCheckInterval := healthCheckInterval m;
     rpcConfigs := rpcConfigs m; connections := connections m;
     requestCounters := requestCounters m |}.

Definition setCounters (cs : gmap string Counter) (m : RPCManager) : RPCManager :=
  {| initialized := initialized m; failedRPCs := failedRPCs m;
     lastHealthCheck := lastHealthCheck m;
     healthCheckInterval := healthCheckInterval m;
     rpcConfigs := rpcConfigs m; connections := connections m;
     requestCounters := cs |}.

Definition setConnections (cn : list (string * list Endpoint)) (m : RPCManager)
  : RPCManager :=
  {| initialized := initialized m; failedRPCs := failedRPCs m;
     lastHealthCheck := lastHealthCheck m;
     healthCheckInterval := healthCheckInterval m;
     rpcConfigs := rpcConfigs m; connections := cn;
     requestCounters := requestCounters m |}.

Definition setConfigs (cf : list (string * list Config.t)) (m : RPCManager)
  : RPCManager :=
  {| initialized := initialized m; failedRPCs := failedRPCs m;
     lastHealthCheck := lastHealthCheck m;
     healthCheckInterval := healthCheckInterval m;
     rpcConfigs := cf; connections := connections m;
     requestCounters := requestCounters m |}.

Definition setLastHealthCheck (t : Z) (m : RPCManager) : RPCManager :=
  {| initialized := initialized m; failedRPCs := failedRPCs m;
     lastHealthCheck := t;
     healthCheckInterval := healthCheckInterval m;
     rpcConfigs := rpcConfigs m; connections := connections m;
     requestCounters := requestCounters m |}.

(** ** Rate counters *)

(** [Math.floor(maxRequestsPerSecond * 0.8)].  For an integer capacity the
    product is within rounding of 4c/5, and its floor is the integer
    quotient. *)
Definition safeLimit (maxRps : Z) : Z := 4 * maxRps / 5.

(** [canMakeRequest(url, maxRequestsPerSecond)]: the answer and the counter
    map after the call (the call resets a stale counter). *)
Definition canMakeRequest (now : Z) (u : string) (maxRps : Z)
    (cs : gmap string Counter) : bool * gmap string Counter :=
  match cs !! u with
  | None => (true, cs)
  | Some counter =>
      let timeSinceReset := now - lastReset counter in
      if 1000 <=? timeSinceReset
      then (true, <[u := {| count := 0; lastReset := now |}]> cs)
      else (count counter <? safeLimit maxRps, cs)
  end.

(** [updateRequestCounter(url)] *)
Definition updateRequestCounter (u : string) (cs : gmap string Counter)
  : gmap string Counter :=
  match cs !! u with
  | Some counter =>
      <[u := {| count := count counter + 1; lastReset := lastReset counter |}]> cs
  | None => cs
  end.

(** ** Endpoint selection *)

Inductive Completion (A : Type) :=
| Normal (v : A)
| Throw (e : JsError).
Arguments Normal {A} v.
Arguments Throw {A} e.

Definition notInitializedError (chain : string) : JsError :=
  mkError ("RPC Manager not initialized for chain: " ++ chain).

Definition noHealthyError (chain : string) : JsError :=
  mkError ("No healthy RPCs available for " ++ chain).

(** The [TypeError] of [connections.filter(...)] when [connections] is a
    value inherited from [Object.prototype]. *)
Definition filterTypeError : JsError :=
  mkError "connections.filter is not a function".

(** What the engine throws when the call stack is used up. *)
Definition stackError : JsError :=
  mkError "Maximum call stack size exceeded".

(** What a write through [healthyConnections[0]] would throw if the sorted
    array were empty; sorting keeps the length, so this is not reached. *)
Definition undefinedError : JsError :=
  mkError "Cannot set properties of undefined (setting 'lastUsed')".

(** The filter of [getBestRPC], left to right over the pool.  Each kept
    candidate carries its position in the pool, which stands for the
    reference to the pool's object.  [&&] short-circuits, so
    [canMakeRequest] runs only for endpoints that are healthy and not in
    the failed set. *)
Fixpoint filterHealthy (now : Z) (failed : gset string) (i : nat)
    (conns : list Endpoint) (cs : gmap string Counter)
  : list (nat * Endpoint) * gmap string Counter :=
  match conns with
  | [] => ([], cs)
  | conn :: rest =>
      if healthy conn && negb (bool_decide (url conn ∈ failed)) then
        let '(ok, cs1) :=
          canMakeRequest now (url conn) (maxRequestsPerSecond conn) cs in
        let '(kept, cs2) := filterHealthy now failed (S i) rest cs1 in
        (if ok then (i, conn) :: kept else kept, cs2)
      else filterHealthy now failed (S i) rest cs
  end.

(** The comparator handed to [sort]. *)
Definition compareRPC (a b : Endpoint) : Z :=
  if negb (priority a =? priority b)
  then priority a - priority b
  else requestCount a - requestCount b.

(** [Array.prototype.sort] is stable; a stable insertion sort computes the
    same array for this comparator. *)
Fixpoint insertSorted (x : nat * Endpoint) (l : list (nat * Endpoint))
  : list (nat * Endpoint) :=
  match l with
  | [] => [x]
  | y :: rest =>
      if compareRPC (snd x) (snd y) <=? 0
      then x :: y :: rest
      else y :: insertSorted x rest
  end.

Fixpoint sortCandidates (l : list (nat * Endpoint)) : list (nat * Endpoint) :=
  match l with
  | [] => []
  | x :: rest => insertSorted x (sortCandidates rest)
  end.

(** [selected.lastUsed = Date.now(); selected.requestCount++] *)
Definition markUsed (now : Z) (e : Endpoint) : Endpoint :=
  {| url := url e; priority := priority e;
     maxRequestsPerSecond := maxRequestsPerSecond e;
     connection := connection e; healthy := healthy e;
     lastUsed := now; requestCount := requestCount e + 1;
     errorCount := errorCount e |}.

(** [getBestRPC(chain)].  [depth] is the number of stack frames left for
    the circuit breaker's recursive call. *)
Fixpoint getBestRPC (depth : nat) (now : Z) (chain : string) (m : RPCManager)
  : Completion Conn * RPCManager :=
  match depth with
  | O => (Throw stackError, m)
  | S depth' =>
      if negb (initialized m) then (Throw (notInitializedError chain), m)
      else
        match readProp chain (connections m) with
        | Missing => (Throw (notInitializedError chain), m)
        | Inherited => (Throw filterTypeError, m)
        | Own conns =>
            let '(healthyConnections, cs) :=
              filterHealthy now (failedRPCs m) 0 conns (requestCounters m) in
            let m1 := setCounters cs m in
            if (length healthyConnections =? 0)%nat then
              if (length conns <=? size (failedRPCs m1))%nat
              then getBestRPC depth' now chain (setFailed ∅ m1)
              else (Throw (noHealthyError chain), m1)
            else
              match sortCandidates healthyConnections with
              | (i, selected) :: _ =>
                  let conns' := alter (markUsed now) i conns in
                  let m2 :=
                    setConnections (setProp chain conns' (connections m1)) m1 in
                  (Normal (connection selected),
                   setCounters (updateRequestCounter (url selected)
                                  (requestCounters m2)) m2)
              | [] => (Throw undefinedError, m1)
              end
        end
  end.

(** ** Retry/backoff executor *)

(** [resetRPCErrors(chain, connection)] *)
Definition clearErrors (rpc : Endpoint) : Endpoint :=
  {| url := url rpc; priority := priority rpc;
     maxRequestsPerSecond := maxRequestsPerSecond rpc;
     connection := connection rpc; healthy := true;
     lastUsed := lastUsed rpc; requestCount := requestCount rpc;
     errorCount := 0 |}.

(** The [TypeError] of [this.connections[chain].find(...)] on an inherited
    value. *)
Definition findTypeError : JsError :=
  mkError "this.connections[chain].find is not a function".

Definition resetRPCErrors (chain : string) (conn : Conn) (m : RPCManager)
  : Completion unit * RPCManager :=
  match readProp chain (connections m) with
  | Own conns =>
      match list_find (λ c, connection c = conn) conns with
      | Some (i, rpc) =>
          (Normal (),
           setFailed (failedRPCs m ∖ {[url rpc]})
             (setConnections
                (setProp chain (alter clearErrors i conns) (connections m)) m))
      | None => (Normal (), m)
      end
  | Inherited => (Throw findTypeError, m)
  | Missing => (Normal (), m)
  end.

(** The wait that [handleRateLimit(chain, error)] passes to [sleep]. *)
Definition retryAfterHeader (error : JsError) : option string :=
  match headers error with
  | Some h =>
      match h !! "retry-after" with
      | Some v => if String.eqb v "" then None else Some v
      | None => None
      end
  | None => None
  end.

Definition handleRateLimit (error : JsError) : jsnum :=
  let waitTime :=
    match retryAfterHeader error with
    | Some v => jsMul (parseInt v) (Num 1000)
    | None =>
        if messageIncludes "wait" error then
          match message error ≫= matchDigits with
          | Some digits => jsMul (parseInt digits) (Num 1000)
          | None => Num 5000
          end
        else Num 5000
    end in
  jsMin (jsMax waitTime (Num 5000)) (Num 60000).

(** The delay a timer really uses: Node replaces a delay that is not a
    number in [1, 2^31 - 1] by 1. *)
Definition timerDelay (ms : jsnum) : Z :=
  match ms with
  | Num z => if (1 <=? z) && (z <=? 2147483647) then z else 1
  | NaN => 1
  end.

Definition isRateLimitError (error : JsError) : bool :=
  match code error with CodeNumber 429 => true | _ => false end
  || messageIncludes "429" error
  || messageIncludes "rate limit" error.

Definition isNetworkError (error : JsError) : bool :=
  messageIncludes "fetch failed" error
  || match code error with
     | CodeString s => String.eqb s "NETWORK_ERROR"
     | _ => false
     end.

Definition isValidationError (error : JsError) : bool :=
  messageIncludes "Invalid" error || messageIncludes "Not found" error.

(** What the [catch] block of [executeWithRetry] does with an error. *)
Inductive CatchAction :=
| Rethrow
| SleepThenNext (ms : jsnum)
| Next.

Definition onError (error : JsError) (attempt maxRetries : Z) : CatchAction :=
  if isRateLimitError error && (attempt <? maxRetries)
  then SleepThenNext (handleRateLimit error)
  else if isNetworkError error && (attempt <? maxRetries)
  then SleepThenNext (Num (1000 * attempt))
  else if isValidationError error then Rethrow
  else if attempt <? maxRetries then SleepThenNext (Num (500 * attempt))
  else Next.

(** One pass through the loop body, as an observer would log it: its
    number, the connection the operation ran on, the error the pass ended
    with (the one the [try] block threw or, when that was [undefined] or
    [null], the [TypeError] of the [catch] block reading its [code]) and
    the sleep that followed. *)
Record Attempt := {
  attemptNo : Z;
  ranOn : option Conn;
  thrown : option JsError;
  slept : option jsnum
}.

Inductive Outcome (A : Type) :=
| Returned (v : A)
| Raised (e : option JsError).
Arguments Returned {A} v.
Arguments Raised {A} e.

Record Run (A : Type) := {
  outcome : Outcome A;
  attempts : list Attempt;
  finalState : RPCManager;
  finalClock : Z
}.
Arguments outcome {A} r.
Arguments attempts {A} r.
Arguments finalState {A} r.
Arguments finalClock {A} r.

(** What the awaited [operation(rpc)] settles with: a result, or a thrown
    value.  The [catch] block reads [code], [message] and [headers] of what
    was thrown, and a value is seen through these three reads (a thrown
    string or number has none of them).  Only [undefined] and [null] cannot
    be read at all: [error.code] throws a [TypeError] on them. *)
Inductive Settled (A : Type) :=
| Fulfilled (v : A)
| Rejected (e : JsError)
| RejectedNullish (isNull : bool).
Arguments Fulfilled {A} v.
Arguments Rejected {A} e.
Arguments RejectedNullish {A} isNull.

(** The [TypeError] of [error.code] when [error] is [undefined] or
    [null]. *)
Definition nullishCodeError (isNull : bool) : JsError :=
  mkError ("Cannot read properties of "
           ++ (if isNull then "null" else "undefined")
           ++ " (reading 'code')").

(** The caller's operation: what the call number [attempt] against [rpc],
    started at time [t], takes and gives. *)
Definition Operation (A : Type) := Z → Conn → Z → Z * Settled A.

Section Executor.
Context {A : Type}.
Variable depth : nat.
Variable chain : string.
Variable operation : Operation A.
Variable maxRetries : Z.

(** The [try] block. *)
Definition tryAttempt (attempt : Z) (m : RPCManager) (clock : Z)
  : Settled A * option Conn * RPCManager * Z :=
  match getBestRPC depth clock chain m with
  | (Throw e, m1) => (Rejected e, None, m1, clock)
  | (Normal rpc, m1) =>
      let '(elapsed, r) := operation attempt rpc clock in
      match r with
      | Fulfilled result =>
          match resetRPCErrors chain rpc m1 with
          | (Normal _, m2) => (Fulfilled result, Some rpc, m2, clock + elapsed)
          | (Throw e, m2) => (Rejected e, Some rpc, m2, clock + elapsed)
          end
      | Rejected e => (Rejected e, Some rpc, m1, clock + elapsed)
      | RejectedNullish isNull =>
          (RejectedNullish isNull, Some rpc, m1, clock + elapsed)
      end
  end.

Definition logged (r : Run A) (a : Attempt) : Run A :=
  {| outcome := outcome r; attempts := a :: attempts r;
     finalState := finalState r; finalClock := finalClock r |}.

(** The [for] loop from [attempt] on; [left] is the number of passes
    that [attempt <= maxRetries] still allows. *)
Fixpoint retryLoop (left : nat) (attempt : Z) (lastError : option JsError)
    (m : RPCManager) (clock : Z) : Run A :=
  match left with
  | O => {| outcome := Raised lastError; attempts := [];
            finalState := m; finalClock := clock |}
  | S left' =>
      match tryAttempt attempt m clock with
      | (Fulfilled result, ran, m1, t1) =>
          {| outcome := Returned result;
             attempts := [ {| attemptNo := attempt; ranOn := ran;
                              thrown := None; slept := None |} ];
             finalState := m1; finalClock := t1 |}
      | (RejectedNullish isNull, ran, m1, t1) =>
          {| outcome := Raised (Some (nullishCodeError isNull));
             attempts := [ {| attemptNo := attempt; ranOn := ran;
                              thrown := Some (nullishCodeError isNull);
                              slept := None |} ];
             finalState := m1; finalClock := t1 |}
      | (Rejected error, ran, m1, t1) =>
          match onError error attempt maxRetries with
          | Rethrow =>
              {| outcome := Raised (Some error);
                 attempts := [ {| attemptNo := attempt; ranOn := ran;
                                  thrown := Some error; slept := None |} ];
                 finalState := m1; finalClock := t1 |}
          | SleepThenNext ms =>
              logged
                (retryLoop left' (attempt + 1) (Some error) m1
                   (t1 + timerDelay ms))
                {| attemptNo := attempt; ranOn := ran;
                   thrown := Some error; slept := Some ms |}
          | Next =>
              logged (retryLoop left' (attempt + 1) (Some error) m1 t1)
                {| attemptNo := attempt; ranOn := ran;
                   thrown := Some error; slept := None |}
          end
      end
  end.

(** [executeWithRetry(chain, operation, maxRetries)] called at time
    [clock]. *)
Definition executeWithRetry (m : RPCManager) (clock : Z) : Run A :=
  retryLoop (Z.to_nat maxRetries) 1 None m clock.
End Executor.

(** ** Health monitor *)

Definition probeSucceeded (rpc : Endpoint) : Endpoint :=
  {| url := url rpc; priority := priority rpc;
     maxRequestsPerSecond := maxRequestsPerSecond rpc;
     connection := connection rpc; healthy := true;
     lastUsed := lastUsed rpc; requestCount := requestCount rpc;
     errorCount := 0 |}.

Definition probeFailed (rpc : Endpoint) : Endpoint :=
  let n := errorCount rpc + 1 in
  {| url := url rpc; priority := priority rpc;
     maxRequestsPerSecond := maxRequestsPerSecond rpc;
     connection := connection rpc;
     healthy := if 5 <=? n then false else healthy rpc;
     lastUsed := lastUsed rpc; requestCount := requestCount rpc;
     errorCount := n |}.

(** The [try]/[catch] around one probe: the endpoint and the failed set
    afterwards. *)
Definition checkEndpoint (ok : bool) (rpc : Endpoint) (failed : gset string)
  : Endpoint * gset string :=
  if ok then (probeSucceeded rpc, failed ∖ {[url rpc]})
  else
    let rpc' := probeFailed rpc in
    (rpc', if 5 <=? errorCount rpc' then {[url rpc]} ∪ failed else failed).

(** [connections.find(rpc => rpc.healthy) || connections[0]], as a
    position in the pool. *)
Definition activeRPC (conns : list Endpoint) : option nat :=
  match list_find (λ rpc, healthy rpc = true) conns with
  | Some (i, _) => Some i
  | None => match conns with [] => None | _ :: _ => Some 0%nat end
  end.

(** The body of the loop for one chain; [probe rpc] tells whether the
    liveness call on [rpc] beat its timeout. *)
Definition checkChain (probe : Endpoint → bool) (conns : list Endpoint)
    (failed : gset string) : list Endpoint * gset string :=
  match activeRPC conns with
  | Some i =>
      match conns !! i with
      | Some rpc =>
          let '(rpc', failed') := checkEndpoint (probe rpc) rpc failed in
          (<[i := rpc']> conns, failed')
      | None => (conns, failed)
      end
  | None => (conns, failed)
  end.

(** The loop over [Object.entries(this.connections)]. *)
Fixpoint checkChains (probe : string → Endpoint → bool)
    (entries : list (string * list Endpoint)) (failed : gset string)
  : list (string * list Endpoint) * gset string :=
  match entries with
  | [] => ([], failed)
  | (chain, conns) :: rest =>
      let '(conns', failed1) := checkChain (probe chain) conns failed in
      let '(rest', failed2) := checkChains probe rest failed1 in
      ((chain, conns') :: rest', failed2)
  end.

(** [performHealthCheck()] called at time [now]. *)
Definition performHealthCheck (now : Z) (probe : string → Endpoint → bool)
    (m : RPCManager) : RPCManager :=
  if 2 * (now - lastHealthCheck m) <? healthCheckInterval m then m
  else
    let m1 := setLastHealthCheck now m in
    let '(conns, failed) := checkChains probe (connections m1) (failedRPCs m1) in
    setFailed failed (setConnections conns m1).

(** ** Administrative operations *)

(** The [TypeError]s of [this.rpcConfigs[chain].push(...)] and
    [this.rpcConfigs[chain].filter(...)] on an inherited value. *)
Definition pushTypeError : JsError :=
  mkError "this.rpcConfigs[chain].push is not a function".

Definition configFilterTypeError : JsError :=
  mkError "this.rpcConfigs[chain].filter is not a function".

(** [addRPC(chain, url, priority = 10)] *)
Definition addRPC (chain : string) (u : string) (prio : Z) (m : RPCManager)
  : Completion unit * RPCManager :=
  let entry := {| Config.url := u; Config.priority := prio;
                  Config.maxRequestsPerSecond := 5 |} in
  match readProp chain (rpcConfigs m) with
  | Own configs =>
      (Normal (),
       setConfigs (setProp chain (configs ++ [entry])%list (rpcConfigs m)) m)
  | Inherited => (Throw pushTypeError, m)
  | Missing =>
      (Normal (), setConfigs (setProp chain [entry] (rpcConfigs m)) m)
  end.

(** [removeRPC(chain, url)] *)
Definition removeRPC (chain : string) (u : string) (m : RPCManager)
  : Completion unit * RPCManager :=
  match readProp chain (rpcConfigs m) with
  | Own configs =>
      (Normal (),
       setFailed (failedRPCs m ∖ {[u]})
         (setConfigs
            (setProp chain
               (filter (λ rpc, Config.url rpc ≠ u) configs) (rpcConfigs m)) m))
  | Inherited => (Throw configFilterTypeError, m)
  | Missing => (Normal (), m)
  end.

(** ** Chain accessors *)

(** [getSolanaConnection()], [getEthereumProvider()] and the like. *)
Definition getSolanaConnection (depth : nat) (now : Z) (m : RPCManager) :=
  getBestRPC depth now "solana" m.

Definition getEthereumProvider (depth : nat) (now : Z) (m : RPCManager) :=
  getBestRPC depth now "ethereum" m.

Definition getBSCProvider (depth : nat) (now : Z) (m : RPCManager) :=
  getBestRPC depth now "bsc" m.

Definition getPolygonProvider (depth : nat) (now : Z) (m : RPCManager) :=
  getBestRPC depth now "polygon" m.

Definition getArbitrumProvider (depth : nat) (now : Z) (m : RPCManager) :=
  getBestRPC depth now "arbitrum" m.

Definition getBaseProvider (depth : nat) (now : Z) (m : RPCManager) :=
  getBestRPC depth now "base" m.

(** ** Monitoring *)

Module EndpointStatus.
Record t := {
  url : string;
  healthy : bool;
  priority : Z;
  requestCount : Z
}.
End EndpointStatus.

Module ChainStatus.
Record t := {
  total : Z;
  healthy : Z;
  failed : Z;
  endpoints : list EndpointStatus.t
}.
End ChainStatus.

(** The object [getStatus()] returns.  [failedRPCs] is kept as the set the
    array is made from. *)
Module Status.
Record t := {
  initialized : bool;
  chains : list (string * ChainStatus.t);
  failedRPCs : gset string;
  totalRPCs : Z;
  healthyRPCs : Z;
  supportedChains : list string
}.
End Status.

(** The test [c.healthy && !this.failedRPCs.has(c.url)] of [getStatus]. *)
Definition countsAsHealthy (failed : gset string) (c : Endpoint) : bool :=
  healthy c && negb (bool_decide (url c ∈ failed)).

Definition describeEndpoint (c : Endpoint) : EndpointStatus.t :=
  {| EndpointStatus.url := substring 0 50 (url c) ++ "...";
     EndpointStatus.healthy := healthy c;
     EndpointStatus.priority := priority c;
     EndpointStatus.requestCount := requestCount c |}.

Definition describeChain (failed : gset string) (conns : list Endpoint)
  : ChainStatus.t :=
  let healthyOnes := List.filter (countsAsHealthy failed) conns in
  {| ChainStatus.total := Z.of_nat (length conns);
     ChainStatus.healthy := Z.of_nat (length healthyOnes);
     ChainStatus.failed := Z.of_nat (length conns) - Z.of_nat (length healthyOnes);
     ChainStatus.endpoints := describeEndpoint <$> conns |}.

(** The loop of [getStatus] over [Object.entries(this.connections)]. *)
Fixpoint statusLoop (failed : gset string)
    (entries : list (string * list Endpoint)) (status : Status.t) : Status.t :=
  match entries with
  | [] => status
  | (chain, conns) :: rest =>
      let entry := describeChain failed conns in
      statusLoop failed rest
        {| Status.initialized := Status.initialized status;
           Status.chains := setProp chain entry (Status.chains status);
           Status.failedRPCs := Status.failedRPCs status;
           Status.totalRPCs := Status.totalRPCs status + ChainStatus.total entry;
           Status.healthyRPCs :=
             Status.healthyRPCs status + ChainStatus.healthy entry;
           Status.supportedChains := Status.supportedChains status |}
  end.

(** [getStatus()] *)
Definition getStatus (m : RPCManager) : Status.t :=
  statusLoop (failedRPCs m) (connections m)
    {| Status.initialized := initialized m;
       Status.chains := [];
       Status.failedRPCs := failedRPCs m;
       Status.totalRPCs := 0;
       Status.healthyRPCs := 0;
       Status.supportedChains := fst <$> rpcConfigs m |}.

(** The object [getChainStats(chain)] returns; [lastHealthCheck] is the
    instant that the ISO string denotes. *)
Module ChainStats.
Record t := {
  chain : string;
  totalEndpoints : Z;
  healthyEndpoints : Z;
  totalRequests : Z;
  averageResponseTime : string;
  lastHealthCheck : Z
}.
End ChainStats.

(** [getChainStats(chain)]; the value [None] is [null]. *)
Definition getChainStats (chain : string) (m : RPCManager)
  : Completion (option ChainStats.t) :=
  match readProp chain (connections m) with
  | Missing => Normal None
  | Inherited => Throw filterTypeError
  | Own conns =>
      Normal
        (Some {| ChainStats.chain := chain;
                 ChainStats.totalEndpoints := Z.of_nat (length conns);
                 ChainStats.healthyEndpoints :=
                   Z.of_nat (length (List.filter healthy conns));
                 ChainStats.totalRequests :=
                   foldl (λ sum c, sum + requestCount c) 0 conns;
                 ChainStats.averageResponseTime := "N/A";
                 ChainStats.lastHealthCheck := lastHealthCheck m |})
  end.

(** ** Construction *)

Definition defaultConfigs : list (string * list Config.t) :=
  let one u := [ {| Config.url := u; Config.priority := 1;
                    Config.maxRequestsPerSecond := 5 |} ] in
  [ ("solana", one "https://api.mainnet-beta.solana.com");
    ("ethereum", one "https://ethereum.blockpi.network/v1/rpc/public");
    ("bsc", one "https://bsc-dataseed.binance.org/");
    ("polygon", one "https://polygon-rpc.com/");
    ("arbitrum", one "https://arb1.arbitrum.io/rpc");
    ("base", one "https://mainnet.base.org") ].

(** The fields as the constructor sets them, before it calls
    [initialize]. *)
Definition constructed (configs : list (string * list Config.t)) : RPCManager :=
  {| initialized := false; failedRPCs := ∅; lastHealthCheck := 0;
     healthCheckInterval := 120000; rpcConfigs := configs;
     connections := []; requestCounters := ∅ |}.

Definition newEndpoint (config : Config.t) (handle : Conn) : Endpoint :=
  {| url := Config.url config; priority := Config.priority config;
     maxRequestsPerSecond := Config.maxRequestsPerSecond config;
     connection := handle; healthy := true; lastUsed := 0;
     requestCount := 0; errorCount := 0 |}.

(** The inner loop of [initialize] for one chain.  [opens chain url] tells
    whether the client constructor returns (rather than throws); [next] is
    the next fresh handle. *)
Fixpoint initConfigs (now : Z) (opens : string → string → bool)
    (chain : string) (configs : list Config.t) (next : Conn) (m : RPCManager)
  : Conn * RPCManager :=
  match configs with
  | [] => (next, m)
  | config :: rest =>
      if opens chain (Config.url config) then
        let conns := default [] (getProp chain (connections m)) in
        let m1 :=
          setConnections
            (setProp chain (conns ++ [newEndpoint config next])%list (connections m))
            m in
        let m2 :=
          setCounters
            (<[Config.url config := {| count := 0; lastReset := now |}]>
               (requestCounters m1)) m1 in
        initConfigs now opens chain rest (S next) m2
      else
        initConfigs now opens chain rest next
          (setFailed ({[Config.url config]} ∪ failedRPCs m) m)
  end.

Fixpoint initChains (now : Z) (opens : string → string → bool)
    (entries : list (string * list Config.t)) (next : Conn) (m : RPCManager)
  : RPCManager :=
  match entries with
  | [] => m
  | (chain, configs) :: rest =>
      let m0 := setConnections (setProp chain [] (connections m)) m in
      let '(next', m1) := initConfigs now opens chain configs next m0 in
      initChains now opens rest next' m1
  end.

Definition setInitialized (b : bool) (m : RPCManager) : RPCManager :=
  {| initialized := b; failedRPCs := failedRPCs m;
     lastHealthCheck := lastHealthCheck m;
     healthCheckInterval := healthCheckInterval m;
     rpcConfigs := rpcConfigs m; connections := connections m;
     requestCounters := requestCounters m |}.

(** [initialize()] run at time [now]. *)
Definition initialize (now : Z) (opens : string → string → bool)
    (m : RPCManager) : RPCManager :=
  setInitialized true (initChains now opens (rpcConfigs m) 0%nat m).

(** ** Derived notions used in the statements *)

(** *** Selection *)

(** The candidate list of one selection pass over [conns], and the counter
    map the pass leaves behind. *)
Definition candidates (now : Z) (conns : list Endpoint) (m : RPCManager)
  : list (nat * Endpoint) :=
  fst (filterHealthy now (failedRPCs m) 0 conns (requestCounters m)).

Definition countersAfterFilter (now : Z) (conns : list Endpoint) (m : RPCManager)
  : gmap string Counter :=
  snd (filterHealthy now (failedRPCs m) 0 conns (requestCounters m)).

(** What [getBestRPC] throws for a chain without a pool of its own. *)
Definition noPoolError (chain : string) (m : RPCManager) : JsError :=
  if initialized m && bool_decide (chain ∈ inheritedNames)
  then filterTypeError
  else notInitializedError chain.

(** The manager as the circuit breaker leaves it before it calls
    [getBestRPC] again. *)
Definition afterBreaker (now : Z) (conns : list Endpoint) (m : RPCManager)
  : RPCManager :=
  setFailed ∅ (setCounters (countersAfterFilter now conns m) m).

(** The manager after a pass that picked the candidate [(i, selected)]. *)
Definition afterSelection (now : Z) (chain : string) (conns : list Endpoint)
    (i : nat) (selected : Endpoint) (m : RPCManager) : RPCManager :=
  let cs := countersAfterFilter now conns m in
  setCounters (updateRequestCounter (url selected) cs)
    (setConnections
       (setProp chain (alter (markUsed now) i conns) (connections m))
       (setCounters cs m)).

(** [a] is at least as good as [b] for the sort: lower priority number
    first, then lower request count. *)
Definition preferred (a b : Endpoint) : Prop :=
  priority a < priority b ∨
  (priority a = priority b ∧ requestCount a <= requestCount b).

Definition byPreference (a b : nat * Endpoint) : Prop := preferred a.2 b.2.


(** A series of [getBestRPC] calls, each with its time and chain: the
    results in order and the manager at the end. *)
Fixpoint runCalls (depth : nat) (calls : list (Z * string)) (m : RPCManager)
  : list (Completion Conn) * RPCManager :=
  match calls with
  | [] => ([], m)
  | (now, chain) :: rest =>
      let '(r, m1) := getBestRPC depth now chain m in
      let '(rs, m2) := runCalls depth rest m1 in
      (r :: rs, m2)
  end.


(** *** Rate counters *)

(** What a rate check at time [now] makes of a counter: a stale one is
    restarted. *)
Definition refresh (now : Z) (counter : Counter) : Counter :=
  if 1000 <=? now - lastReset counter
  then {| count := 0; lastReset := now |}
  else counter.

Definition bump (counter : Counter) : Counter :=
  {| count := count counter + 1; lastReset := lastReset counter |}.

(** [rpc] passes the rate check of a pass at time [now] whatever the
    endpoints before it in the pool do to the counter of its url: the count,
    taken as 0 if the counter is stale, is below the safe limit. *)
Definition underCap (now : Z) (rpc : Endpoint) (cs : gmap string Counter) : Prop :=
  ∀ counter, cs !! url rpc = Some counter →
    (if 1000 <=? now - lastReset counter then 0 else count counter)
    < safeLimit (maxRequestsPerSecond rpc).


(** At time [now] the pool of [chain] has an endpoint that a selection
    pass will accept: healthy, not marked failed, under its rate cap, with
    a positive safe limit and a counter that was not reset in the future. *)
Definition ready (now : Z) (chain : string) (m : RPCManager) : Prop :=
  initialized m = true
  ∧ ∃ conns i rpc,
      getProp chain (connections m) = Some conns
      ∧ conns !! i = Some rpc
      ∧ healthy rpc = true
      ∧ (url rpc ∉ failedRPCs m)
      ∧ underCap now rpc (requestCounters m)
      ∧ 0 < safeLimit (maxRequestsPerSecond rpc)
      ∧ ∀ counter, requestCounters m !! url rpc = Some counter →
          lastReset counter <= now.

(** *** Executor *)

Definition jsAdd (a b : jsnum) : jsnum :=
  match a, b with
  | Num x, Num y => Num (x + y)
  | _, _ => NaN
  end.

(** The sum of the waits handed to [sleep] during a run. *)
Definition totalSleep (log : list Attempt) : jsnum :=
  foldr (λ a acc, match slept a with
                  | Some ms => jsAdd ms acc
                  | None => acc
                  end) (Num 0) log.

Definition handlesOf (conns : list Endpoint) : list Conn :=
  connection <$> conns.

(** Connection objects are created one per endpoint, so the handles of a
    pool are pairwise distinct. *)
Definition distinctHandles (chain : string) (m : RPCManager) : Prop :=
  ∀ conns, getProp chain (connections m) = Some conns →
    NoDup (handlesOf conns).

(** Every pool of [m] has pairwise distinct handles, all below [next]. *)
Definition freshFrom (next : Conn) (m : RPCManager) : Prop :=
  ∀ chain conns, getProp chain (connections m) = Some conns →
    NoDup (handlesOf conns) ∧ ∀ h, h ∈ handlesOf conns → (h < next)%nat.

(** In [m], the endpoint of [chain]'s pool that owns the connection
    [conn] has a clean error state. *)
Definition errorStateReset (chain : string) (conn : Conn) (m : RPCManager) : Prop :=
  ∃ conns i rpc,
    getProp chain (connections m) = Some conns
    ∧ conns !! i = Some rpc
    ∧ connection rpc = conn
    ∧ (∀ j rpc', conns !! j = Some rpc' → connection rpc' = conn → j = i)
    ∧ errorCount rpc = 0
    ∧ healthy rpc = true
    ∧ url rpc ∉ failedRPCs m.

(** *** Health monitor *)

(** [n] failed probes in a row on the same endpoint. *)
Fixpoint probeFailures (n : nat) (rpc : Endpoint) (failed : gset string)
  : Endpoint * gset string :=
  match n with
  | O => (rpc, failed)
  | S n' =>
      let '(rpc', failed') := checkEndpoint false rpc failed in
      probeFailures n' rpc' failed'
  end.

(** What a health-check cycle may do to one endpoint: it stays the same
    endpoint, and a healthy one becomes unhealthy only by a failed probe
    that takes its error count to 5 or more. *)
Definition hysteresis (rpc rpc' : Endpoint) : Prop :=
  url rpc' = url rpc
  ∧ connection rpc' = connection rpc
  ∧ (healthy rpc = true → healthy rpc' = false →
     errorCount rpc' = errorCount rpc + 1 ∧ 5 <= errorCount rpc').



(** ** Concrete managers, errors and operations used in the examples *)

Definition exEndpoint (u : string) (prio : Z) (handle : Conn) : Endpoint :=
  newEndpoint {| Config.url := u; Config.priority := prio;
                 Config.maxRequestsPerSecond := 5 |} handle.

Definition ethUrl : string := "https://ethereum.blockpi.network/v1/rpc/public".
Definition bscUrl : string := "https://bsc-dataseed.binance.org/".

(** The manager right after start-up at time 0 with the built-in
    configuration, every client constructor succeeding. *)
Definition exStarted : RPCManager :=
  initialize 0 (λ _ _, true) (constructed defaultConfigs).

(** [exStarted] with the ethereum endpoint's url in the failed set. *)
Definition exEthFailed : RPCManager := setFailed {[ethUrl]} exStarted.

(** [exStarted] where the ethereum endpoint has used up its window (four
    requests since the reset at time 0) and the only failed url belongs to
    the bsc pool. *)
Definition exEthBusyBscFailed : RPCManager :=
  setFailed {[bscUrl]}
    (setCounters
       (<[ethUrl := {| count := 4; lastReset := 0 |}]> (requestCounters exStarted))
       exStarted).

(** Start-up at time 0 where the Solana client constructor throws: the
    solana pool is empty and its url is in the failed set. *)
Definition exSolanaDown : RPCManager :=
  initialize 0 (λ chain _, negb (String.eqb chain "solana"))
    (constructed defaultConfigs).



Definition urlA : string := "https://a.example/rpc".
Definition urlB : string := "https://b.example/rpc".

(** An ethereum pool of two endpoints, the less preferred one first. *)
Definition exTwoEndpoints : RPCManager :=
  {| initialized := true; failedRPCs := ∅; lastHealthCheck := 0;
     healthCheckInterval := 120000; rpcConfigs := [];
     connections := [("ethereum", [exEndpoint urlB 2 0%nat; exEndpoint urlA 1 1%nat])];
     requestCounters :=
       <[urlA := {| count := 0; lastReset := 0 |}]>
         (<[urlB := {| count := 0; lastReset := 0 |}]> ∅) |}.


(** A healthy endpoint with no failure counted. *)
Definition exHealthy : Endpoint := exEndpoint ethUrl 1 1%nat.

(** An operation that succeeds on its second call. *)
Definition exFlaky : Operation Z :=
  λ attempt _ _,
    (20, if attempt =? 1 then Rejected (mkError "socket hang up")
         else Fulfilled 42).

(** Operations that fail the same way on every call, each call taking
    10ms. *)
Definition exAlways (e : JsError) : Operation Z := λ _ _ _, (10, Rejected e).

(** An operation whose promise is rejected without a reason, that is with
    [undefined], on every call. *)
Definition exRejectsBare : Operation Z := λ _ _ _, (10, RejectedNullish false).

Definition exTooManyRequests : JsError :=
  {| code := CodeNumber 429; message := Some "Too Many Requests"; headers := None |}.

(** The ASCII letters. *)
Definition isLetter (c : ascii) : bool :=
  let n := nat_of_ascii c in
  ((65 <=? n)%nat && (n <=? 90)%nat) || ((97 <=? n)%nat && (n <=? 122)%nat).

(** A rate-limit error whose Retry-After header is a number of seconds
    after a no-break space (U+00A0). *)
Definition exRetryAfterPadded : JsError :=
  {| code := CodeNumber 429; message := Some "Too Many Requests";
     headers := Some {[ "retry-after" :=
                          String "194"%char (String "160"%char "42") ]} |}.

(** A rate-limit error whose Retry-After header is an HTTP date. *)
Definition exRetryAfterDate : JsError :=
  {| code := CodeNumber 429; message := Some "Too Many Requests";
     headers := Some {[ "retry-after" := "Fri, 31 Dec 1999 23:59:59 GMT" ]} |}.

Definition exInvalidAddress : JsError := mkError "Invalid address".

(** A validation error whose text happens to contain "429". *)
Definition exInvalidAddress429 : JsError :=
  mkError "Invalid address 0x4290fE3b1c".

(** [exStarted] after five failed probes of the ethereum endpoint: it is
    unhealthy and its url is marked. *)
Definition exEthUnhealthy : RPCManager :=
  setFailed {[ethUrl]}
    (setConnections
       (setProp "ethereum" [(probeFailures 5 exHealthy ∅).1] (connections exStarted))
       exStarted).

(** [exStarted] after two health-check cycles in which every probe
    failed: each endpoint has counted two errors and still serves. *)
Definition exShaky : RPCManager :=
  performHealthCheck 240000 (λ _ _, false)
    (performHealthCheck 120000 (λ _ _, false) exStarted).

(** *** Monitoring *)

(** An object has each key once. *)
Definition uniqueKeys {A} (obj : list (string * A)) : Prop :=
  NoDup (fst <$> obj).

Definition poolSizes (entries : list (string * list Endpoint)) : Z :=
  foldr (λ e acc, Z.of_nat (length e.2) + acc) 0 entries.

(** [getChainStats] answers with one more request counted. *)
Definition oneMoreRequest (stats : ChainStats.t) : ChainStats.t :=
  {| ChainStats.chain := ChainStats.chain stats;
     ChainStats.totalEndpoints := ChainStats.totalEndpoints stats;
     ChainStats.healthyEndpoints := ChainStats.healthyEndpoints stats;
     ChainStats.totalRequests := ChainStats.totalRequests stats + 1;
     ChainStats.averageResponseTime := ChainStats.averageResponseTime stats;
     ChainStats.lastHealthCheck := ChainStats.lastHealthCheck stats |}.

(** *** Start-up *)

(** [rpc] is the endpoint that [initialize] makes of [config]. *)
Definition builtFrom (rpc : Endpoint) (config : Config.t) : Prop :=
  url rpc = Config.url config
  ∧ priority rpc = Config.priority config
  ∧ maxRequestsPerSecond rpc = Config.maxRequestsPerSecond config
  ∧ healthy rpc = true
  ∧ lastUsed rpc = 0
  ∧ requestCount rpc = 0
  ∧ errorCount rpc = 0.

(** [u] is the url of a configuration entry whose client constructor
    returns ([ok = true]) or throws ([ok = false]). *)
Definition configuredUrl (opens : string → string → bool)
    (entries : list (string * list Config.t)) (ok : bool) (u : string) : Prop :=
  ∃ chain configs config,
    (chain, configs) ∈ entries ∧ config ∈ configs
    ∧ Config.url config = u ∧ opens chain u = ok.

(** Every endpoint of every pool has a rate counter under its url. *)
Definition countersCover (m : RPCManager) : Prop :=
  ∀ chain conns rpc,
    getProp chain (connections m) = Some conns → rpc ∈ conns →
    is_Some (requestCounters m !! url rpc).

(** *** Endpoints out of service *)

(** The endpoint at position [j > 0] of [chain]'s pool is [rpc], and it is
    unhealthy; the handles of the pool are pairwise distinct. *)
Definition benched (chain : string) (j : nat) (rpc : Endpoint) (m : RPCManager)
  : Prop :=
  (0 < j)%nat
  ∧ healthy rpc = false
  ∧ distinctHandles chain m
  ∧ ∃ conns, getProp chain (connections m) = Some conns ∧ conns !! j = Some rpc.

(** The fields of an endpoint that a health check never writes. *)
Definition identity (rpc : Endpoint) : string * Z * Z * Conn * Z * Z :=
  (url rpc, priority rpc, maxRequestsPerSecond rpc, connection rpc,
   lastUsed rpc, requestCount rpc).

(** A pool whose first endpoint serves and whose second endpoint went
    unhealthy after five failed probes. *)
Definition exBackupDown : RPCManager :=
  {| initialized := true; failedRPCs := {[urlB]}; lastHealthCheck := 0;
     healthCheckInterval := 120000; rpcConfigs := [];
     connections :=
       [("ethereum", [exEndpoint urlA 1 0%nat;
                      (probeFailures 5 (exEndpoint urlB 2 1%nat) ∅).1])];
     requestCounters :=
       <[urlA := {| count := 0; lastReset := 0 |}]>
         (<[urlB := {| count := 0; lastReset := 0 |}]> ∅) |}.

(** *** Retried operations *)

(** What the log of a run shows for an attempt that is followed by
    another one: it threw, and the [catch] block slept before going on. *)
Definition retried (maxRetries : Z) (a : Attempt) : Prop :=
  ∃ e ms, thrown a = Some e ∧ slept a = Some ms
          ∧ onError e (attemptNo a) maxRetries = SleepThenNext ms.

(** A chain the manager has no pool for. *)
Definition exUnknownChain : string := "dogecoin".

Definition exFetchFailed : JsError := mkError "fetch failed".

(** [getChainStats(chain).totalRequests], when there is such a chain. *)
Definition totalRequests (chain : string) (m : RPCManager) : option Z :=
  match getChainStats chain m with
  | Normal (Some stats) => Some (ChainStats.totalRequests stats)
  | _ => None
  end.

(** The attempts of a run in which the operation was called. *)
Definition operationCalls (log : list Attempt) : list Attempt :=
  List.filter (λ a, match ranOn a with Some _ => true | None => false end) log.

(** *** Failover *)

(** At time [now] a selection pass will not take [rpc]: it is unhealthy,
    its url is marked failed, or its rate counter is inside its window and
    has reached the safe limit. *)
Definition outOfService (now : Z) (rpc : Endpoint) (m : RPCManager) : Prop :=
  healthy rpc = false
  ∨ url rpc ∈ failedRPCs m
  ∨ ∃ c, requestCounters m !! url rpc = Some c
         ∧ now - lastReset c < 1000
         ∧ safeLimit (maxRequestsPerSecond rpc) <= count c.

Definition strictlyPreferred (a b : Endpoint) : Prop :=
  priority a < priority b
  ∨ (priority a = priority b ∧ requestCount a < requestCount b).

(** [exTwoEndpoints] when the preferred endpoint has used up its window. *)
Definition exPrimaryCapped : RPCManager :=
  setCounters (<[urlA := {| count := 4; lastReset := 0 |}]>
                 (requestCounters exTwoEndpoints)) exTwoEndpoints.

(** *** Series of health-check cycles *)

(** Calls of [performHealthCheck] one after another, each at its time and
    with its probe results. *)
Fixpoint healthCycles (cycles : list (Z * (string → Endpoint → bool)))
    (m : RPCManager) : RPCManager :=
  match cycles with
  | [] => m
  | (now, probe) :: rest => healthCycles rest (performHealthCheck now probe m)
  end.

(** Each of [times] is at least half an [interval] after the one before,
    the first after [last]: no call is skipped as too early. *)
Fixpoint spaced (last interval : Z) (times : list Z) : Prop :=
  match times with
  | [] => True
  | t :: rest => interval <= 2 * (t - last) ∧ spaced t interval rest
  end.

(** *** The chain accessors *)

(** The helper methods with the chain each one asks for. *)
Definition accessors
  : list (string * (nat → Z → RPCManager → Completion Conn * RPCManager)) :=
  [ ("solana", getSolanaConnection);
    ("ethereum", getEthereumProvider);
    ("bsc", getBSCProvider);
    ("polygon", getPolygonProvider);
    ("arbitrum", getArbitrumProvider);
    ("base", getBaseProvider) ].

(** * Properties *)

(** ** Objects as association lists *)

Lemma getProp_setProp_eq {A} key (v : A) obj :
  getProp key (setProp key v obj) = Some v.
Proof.
  induction obj as [|[k w] rest IH]; simpl.
  - by rewrite String.eqb_refl.
  - destruct (String.eqb k key) eqn:E; simpl; rewrite E.
    + done.
    + exact IH.
Qed.

Lemma getProp_setProp_ne {A} key key' (v : A) obj :
  key ≠ key' → getProp key' (setProp key v obj) = getProp key' obj.
Proof.
  intros Hne. induction obj as [|[k w] rest IH]; simpl.
  - destruct (String.eqb key key') eqn:E; [|done].
    apply String.eqb_eq in E. contradiction.
  - destruct (String.eqb k key) eqn:E; simpl.
    + apply String.eqb_eq in E. subst k.
      destruct (String.eqb key key') eqn:E'; [|done].
      apply String.eqb_eq in E'. contradiction.
    + destruct (String.eqb k key'); [done | exact IH].
Qed.

(** ** One pass of [getBestRPC] *)

Lemma sortCandidates_nil l : sortCandidates l = [] ↔ l = [].
Proof.
  split; [|by intros ->].
  destruct l as [|x rest]; [done|]. simpl.
  destruct (sortCandidates rest) as [|y t]; simpl; [done|].
  by destruct (compareRPC (snd x) (snd y) <=? 0).
Qed.

Lemma readProp_Own {A} key (obj : list (string * A)) v :
  getProp key obj = Some v → readProp key obj = Own v.
Proof. unfold readProp. by intros ->. Qed.

Lemma readProp_Missing {A} key (obj : list (string * A)) :
  readProp key obj = Missing
  ↔ getProp key obj = None ∧ key ∉ inheritedNames.
Proof.
  unfold readProp. destruct (getProp key obj); [by split; [|intros [? _]]|].
  destruct (bool_decide (key ∈ inheritedNames)) eqn:E.
  - apply bool_decide_eq_true in E. by split; [|intros [_ ?]].
  - apply bool_decide_eq_false in E. done.
Qed.

Lemma readProp_Inherited {A} key (obj : list (string * A)) :
  readProp key obj = Inherited
  ↔ getProp key obj = None ∧ key ∈ inheritedNames.
Proof.
  unfold readProp. destruct (getProp key obj); [by split; [|intros [? _]]|].
  destruct (bool_decide (key ∈ inheritedNames)) eqn:E.
  - apply bool_decide_eq_true in E. done.
  - apply bool_decide_eq_false in E. by split; [|intros [_ ?]].
Qed.

Lemma getBestRPC_guard depth now chain m :
  initialized m = false ∨ readProp chain (connections m) = Missing →
  getBestRPC (S depth) now chain m = (Throw (notInitializedError chain), m).
Proof.
  intros [H|H]; simpl; rewrite H; simpl; [done|].
  by destruct (initialized m).
Qed.

Lemma getBestRPC_inherited depth now chain m :
  initialized m = true →
  readProp chain (connections m) = Inherited →
  getBestRPC (S depth) now chain m = (Throw filterTypeError, m).
Proof. intros Hi H. simpl. by rewrite Hi, H. Qed.

Lemma getBestRPC_no_pool depth now chain m :
  initialized m = false ∨ getProp chain (connections m) = None →
  getBestRPC (S depth) now chain m = (Throw (noPoolError chain m), m).
Proof.
  unfold noPoolError. intros [H|H].
  - rewrite H. by apply getBestRPC_guard; left.
  - destruct (initialized m) eqn:Hi; [|by apply getBestRPC_guard; left].
    destruct (bool_decide (chain ∈ inheritedNames)) eqn:E; simpl.
    + apply bool_decide_eq_true in E.
      apply getBestRPC_inherited; [done|]. by apply readProp_Inherited.
    + apply bool_decide_eq_false in E.
      apply getBestRPC_guard. right. by apply readProp_Missing.
Qed.

Lemma getBestRPC_pick depth now chain m conns i selected rest :
  initialized m = true →
  getProp chain (connections m) = Some conns →
  sortCandidates (candidates now conns m) = (i, selected) :: rest →
  getBestRPC (S depth) now chain m
  = (Normal (connection selected), afterSelection now chain conns i selected m).
Proof.
  intros Hi Hc Hs. unfold candidates in Hs.
  apply readProp_Own in Hc.
  unfold afterSelection, countersAfterFilter. simpl. rewrite Hi, Hc. simpl.
  destruct (filterHealthy now (failedRPCs m) 0 conns (requestCounters m))
    as [cands cs]. simpl in *.
  destruct cands as [|x cands]; [discriminate|].
  cbn [length Nat.eqb]. by rewrite Hs.
Qed.

Lemma getBestRPC_none depth now chain m conns :
  initialized m = true →
  getProp chain (connections m) = Some conns →
  candidates now conns m = [] →
  getBestRPC (S depth) now chain m
  = if (length conns <=? size (failedRPCs m))%nat
    then getBestRPC depth now chain (afterBreaker now conns m)
    else (Throw (noHealthyError chain),
          setCounters (countersAfterFilter now conns m) m).
Proof.
  intros Hi Hc Hs. unfold candidates in Hs.
  apply readProp_Own in Hc.
  unfold afterBreaker, countersAfterFilter. simpl. rewrite Hi, Hc. simpl.
  destruct (filterHealthy now (failedRPCs m) 0 conns (requestCounters m))
    as [cands cs]. simpl in *. by rewrite Hs.
Qed.

(** With an empty failed set and a non-empty pool a pass never recurses. *)
Lemma getBestRPC_no_breaker depth now chain m conns :
  initialized m = true →
  getProp chain (connections m) = Some conns →
  conns ≠ [] →
  failedRPCs m = ∅ →
  getBestRPC (S depth) now chain m = getBestRPC 1 now chain m
  ∧ (candidates now conns m = [] →
     getBestRPC 1 now chain m
     = (Throw (noHealthyError chain),
        setCounters (countersAfterFilter now conns m) m))
  ∧ (candidates now conns m ≠ [] →
     ∃ i selected,
       head (sortCandidates (candidates now conns m)) = Some (i, selected)
       ∧ getBestRPC 1 now chain m
         = (Normal (connection selected),
            afterSelection now chain conns i selected m)).
Proof.
  intros Hi Hc Hne Hf.
  assert (Hlen : (length conns <=? size (failedRPCs m))%nat = false).
  { rewrite Hf, size_empty. destruct conns; [done|]. reflexivity. }
  destruct (sortCandidates (candidates now conns m)) as [|[i sel] rest] eqn:Hs.
  - apply (proj1 (sortCandidates_nil _)) in Hs.
    rewrite (getBestRPC_none depth now chain m conns) by done.
    rewrite (getBestRPC_none 0 now chain m conns) by done.
    rewrite Hlen.
    split; [done|]. split; [done|]. intros Hn. contradiction.
  - rewrite (getBestRPC_pick depth now chain m conns i sel rest) by done.
    rewrite (getBestRPC_pick 0 now chain m conns i sel rest) by done.
    split; [done|]. split.
    + intros Hn. rewrite Hn in Hs. discriminate.
    + intros _. by exists i, sel.
Qed.

Lemma failedRPCs_afterSelection now chain conns i selected m :
  failedRPCs (afterSelection now chain conns i selected m) = failedRPCs m.
Proof. reflexivity. Qed.

Lemma error_messages_differ chain chain' :
  notInitializedError chain ≠ noHealthyError chain'.
Proof. unfold notInitializedError, noHealthyError, mkError. intros H. inversion H. Qed.

(** ** The guard of [getBestRPC] *)

(** C10, as the code has it: when the manager is not initialized, or the
    read [this.connections[chain]] gives [undefined] (the chain has no pool
    of its own and its name is not one that every object inherits from
    [Object.prototype]), [getBestRPC] throws the "RPC Manager not initialized
    for chain" error, which is not the "No healthy RPCs" error, and leaves
    the whole manager (rate counters, endpoint counters, failed set) as it
    was. *)
Theorem getBestRPC_not_initialized depth now chain m :
  (0 < depth)%nat →
  initialized m = false
  ∨ (getProp chain (connections m) = None ∧ chain ∉ inheritedNames) →
  getBestRPC depth now chain m = (Throw (notInitializedError chain), m)
  ∧ ∀ chain', notInitializedError chain ≠ noHealthyError chain'.
Proof.
  intros Hd H. destruct depth as [|d]; [lia|].
  split; [|apply error_messages_differ].
  apply getBestRPC_guard. destruct H as [H | H]; [by left|].
  right. by apply readProp_Missing.
Qed.

Lemma dogecoin_not_inherited : "dogecoin" ∉ inheritedNames.
Proof.
  unfold inheritedNames. intros H.
  repeat (apply elem_of_cons in H as [H | H]; [discriminate H|]).
  by apply elem_of_nil in H.
Qed.

Lemma getBestRPC_not_initialized_witness :
  (0 < 1)%nat
  ∧ initialized exStarted = true
  ∧ getProp "dogecoin" (connections exStarted) = None
  ∧ ("dogecoin" ∉ inheritedNames)
  ∧ getBestRPC 1 1500 "dogecoin" exStarted
    = (Throw (notInitializedError "dogecoin"), exStarted).
Proof.
  split; [lia|]. split; [by vm_compute|]. split; [by vm_compute|].
  split; [exact dogecoin_not_inherited|].
  apply (getBestRPC_not_initialized 1 1500 "dogecoin" exStarted); [lia|].
  right. split; [reflexivity | exact dogecoin_not_inherited].
Defined.

(** C10 as stated fails for a chain name that every object inherits: the
    started manager has no pool called "constructor", yet the guard reads
    the inherited [Object] function, finds it truthy and lets the call go
    on to [connections.filter], which throws a [TypeError] and not the
    not-initialized error. *)
Lemma getBestRPC_inherited_name_counterexample :
  initialized exStarted = true
  ∧ getProp "constructor" (connections exStarted) = None
  ∧ getBestRPC 1 1500 "constructor" exStarted = (Throw filterTypeError, exStarted)
  ∧ filterTypeError ≠ notInitializedError "constructor".
Proof.
  split; [by vm_compute|]. split; [by vm_compute|].
  split; [by vm_compute|]. intros H. inversion H.
Qed.

(** ** Circuit breaker *)

Lemma circuit_breaker_step depth now chain m conns :
  initialized m = true →
  getProp chain (connections m) = Some conns →
  conns ≠ [] →
  candidates now conns m = [] →
  (length conns ≤ size (failedRPCs m))%nat →
  getBestRPC (S (S depth)) now chain m
  = getBestRPC 1 now chain (afterBreaker now conns m).
Proof.
  intros Hi Hc Hne Hs Hlen.
  rewrite (getBestRPC_none _ now chain m conns) by done.
  apply Nat.leb_le in Hlen. rewrite Hlen.
  by apply (getBestRPC_no_breaker depth now chain _ conns).
Qed.




Lemma failedRPCs_getBestRPC_one now chain m conns :
  initialized m = true →
  getProp chain (connections m) = Some conns →
  conns ≠ [] →
  failedRPCs m = ∅ →
  failedRPCs (snd (getBestRPC 1 now chain m)) = ∅.
Proof.
  intros Hi Hc Hne Hf.
  destruct (getBestRPC_no_breaker 0 now chain m conns) as (_ & Hnone & Hsome);
    try done.
  destruct (candidates now conns m) as [|x l] eqn:E.
  - by rewrite Hnone.
  - destruct Hsome as (i & sel & _ & ->); [done|]. done.
Qed.

(** C9: there is one failed set for all chains.  The breaker of
    [getBestRPC(chain)] compares the size of that whole set with the length
    of the requested chain's pool, and when it fires the set is empty
    afterwards, so no url of any chain stays marked.  In [exEthBusyBscFailed]
    a call for "ethereum", whose own url is not marked, removes the mark of
    the bsc endpoint. *)
Theorem circuit_breaker_clears_all_chains :
  (∀ depth now chain m conns,
     (2 ≤ depth)%nat →
     initialized m = true →
     getProp chain (connections m) = Some conns →
     conns ≠ [] →
     candidates now conns m = [] →
     (length conns ≤ size (failedRPCs m))%nat →
     ∀ chain' conns' rpc,
       getProp chain' (connections m) = Some conns' →
       rpc ∈ conns' →
       url rpc ∉ failedRPCs (snd (getBestRPC depth now chain m)))
  ∧ ((ethUrl ∉ failedRPCs exEthBusyBscFailed)
     ∧ (bscUrl ∈ failedRPCs exEthBusyBscFailed)
     ∧ getProp "bsc" (connections exEthBusyBscFailed)
       = Some [exEndpoint bscUrl 1 2%nat]
     ∧ bscUrl ∉ failedRPCs (snd (getBestRPC 2 500 "ethereum" exEthBusyBscFailed))).
Proof.
  split.
  - intros depth now chain m conns Hd Hi Hc Hne Hs Hlen chain' conns' rpc _ _.
    destruct depth as [|[|d]]; [lia | lia |].
    rewrite (circuit_breaker_step d now chain m conns) by done.
    rewrite (failedRPCs_getBestRPC_one now chain _ conns) by done.
    apply not_elem_of_empty.
  - split; [by vm_compute|]. split; [by vm_compute|].
    split; [reflexivity|]. by vm_compute.
Qed.

Lemma circuit_breaker_clears_all_chains_witness :
  (2 ≤ 2)%nat
  ∧ candidates 500 [exEndpoint ethUrl 1 1%nat] exEthBusyBscFailed = []
  ∧ (1 ≤ size (failedRPCs exEthBusyBscFailed))%nat
  ∧ bscUrl ∉ failedRPCs (snd (getBestRPC 2 500 "ethereum" exEthBusyBscFailed)).
Proof.
  assert (Hs : candidates 500 [exEndpoint ethUrl 1 1%nat] exEthBusyBscFailed = [])
    by by vm_compute.
  assert (Hl : (length [exEndpoint ethUrl 1 1%nat]
                ≤ size (failedRPCs exEthBusyBscFailed))%nat)
    by (vm_compute; lia).
  split; [lia|]. split; [exact Hs|]. split; [exact Hl|].
  apply (proj1 circuit_breaker_clears_all_chains 2%nat 500 "ethereum"
           exEthBusyBscFailed [exEndpoint ethUrl 1 1%nat]
           ltac:(lia) eq_refl eq_refl ltac:(done) Hs Hl
           "bsc" [exEndpoint bscUrl 1 2%nat] (exEndpoint bscUrl 1 2%nat) eq_refl).
  apply list_elem_of_here.
Defined.

(** ** The comparator and the sort *)

Lemma compareRPC_le a b : compareRPC a b <= 0 ↔ preferred a b.
Proof.
  unfold compareRPC, preferred.
  destruct (priority a =? priority b) eqn:E; simpl.
  - apply Z.eqb_eq in E. lia.
  - apply Z.eqb_neq in E. lia.
Qed.

Lemma preferred_trans a b c : preferred a b → preferred b c → preferred a c.
Proof. unfold preferred. lia. Qed.

Lemma preferred_total a b : preferred a b ∨ preferred b a.
Proof. unfold preferred. lia. Qed.

Lemma insertSorted_head x l :
  ∃ t, insertSorted x l = x :: t ∧ (∀ h t', l = h :: t' → preferred (snd x) (snd h))
       ∨ ∃ h t', l = h :: t' ∧ insertSorted x l = h :: t
                 ∧ ¬ preferred (snd x) (snd h).
Proof.
  destruct l as [|h t']; simpl.
  - exists []. left. split; [done|]. intros ?? [=].
  - destruct (compareRPC (snd x) (snd h) <=? 0) eqn:E.
    + exists (h :: t'). left. split; [done|]. intros ?? [= <- <-].
      apply compareRPC_le. by apply Z.leb_le.
    + exists (insertSorted x t'). right. exists h, t'.
      split; [done|]. split; [done|].
      rewrite <- compareRPC_le. apply Z.leb_gt in E. lia.
Qed.

(** The head of the sorted array is the leftmost best element of the
    input: everything before it is strictly worse, everything after it is
    no better. *)
Lemma sortCandidates_head l h t :
  sortCandidates l = h :: t →
  ∃ l1 l2, l = (l1 ++ h :: l2)%list
    ∧ (∀ y, y ∈ l1 → ¬ preferred (snd y) (snd h))
    ∧ (∀ y, y ∈ l2 → preferred (snd h) (snd y)).
Proof.
  revert h t. induction l as [|x rest IH]; intros h t Hs; [done|].
  simpl in Hs.
  destruct (insertSorted_head x (sortCandidates rest))
    as [t0 [[E Hx] | (h' & t' & Er & E & Hn)]].
  - rewrite E in Hs. injection Hs as <- <-.
    exists [], rest. split; [done|]. split.
    + intros y Hy. by apply elem_of_nil in Hy.
    + intros y Hy.
      destruct (sortCandidates rest) as [|h' t'] eqn:Er.
      { apply (proj1 (sortCandidates_nil _)) in Er. subst rest.
        by apply elem_of_nil in Hy. }
      destruct (IH h' t' eq_refl) as (l1 & l2 & -> & H1 & H2).
      specialize (Hx h' t' eq_refl).
      apply elem_of_app in Hy as [Hy | Hy].
      * destruct (preferred_total (snd y) (snd h')) as [Hp | Hp].
        -- by apply H1 in Hp.
        -- by apply preferred_trans with (snd h').
      * apply elem_of_cons in Hy as [-> | Hy]; [done|].
        apply preferred_trans with (snd h'); [done | by apply H2].
  - rewrite E in Hs. injection Hs as <- <-.
    destruct (IH h' t' Er) as (l1 & l2 & -> & H1 & H2).
    exists (x :: l1), l2. split; [done|]. split; [|done].
    intros y Hy. apply elem_of_cons in Hy as [-> | Hy]; [done | by apply H1].
Qed.

Lemma sortCandidates_best l h t :
  sortCandidates l = h :: t →
  h ∈ l ∧ ∀ y, y ∈ l → preferred (snd h) (snd y).
Proof.
  intros Hs. destruct (sortCandidates_head l h t Hs) as (l1 & l2 & -> & H1 & H2).
  split; [set_solver|].
  intros y Hy. apply elem_of_app in Hy as [Hy | Hy].
  - destruct (preferred_total (snd h) (snd y)) as [Hp | Hp]; [done|].
    by apply H1 in Hp.
  - apply elem_of_cons in Hy as [-> | Hy]; [|by apply H2].
    unfold preferred. lia.
Qed.

Lemma insertSorted_perm x l : insertSorted x l ≡ₚ x :: l.
Proof.
  induction l as [|y rest IH]; simpl; [done|].
  destruct (compareRPC x.2 y.2 <=? 0); [done|].
  rewrite IH. apply Permutation_swap.
Qed.

Lemma sortCandidates_perm l : sortCandidates l ≡ₚ l.
Proof.
  induction l as [|x rest IH]; simpl; [done|].
  by rewrite insertSorted_perm, IH.
Qed.

Lemma insertSorted_sorted x l :
  StronglySorted byPreference l → StronglySorted byPreference (insertSorted x l).
Proof.
  induction l as [|y rest IH]; intros Hs; simpl.
  - apply StronglySorted_cons. split; [constructor|constructor].
  - apply StronglySorted_cons in Hs as [Hy Hrest].
    destruct (compareRPC x.2 y.2 <=? 0) eqn:E.
    + apply Z.leb_le, compareRPC_le in E.
      apply StronglySorted_cons. split.
      * constructor; [done|].
        eapply Forall_impl; [exact Hy|]. intros z Hz.
        by apply preferred_trans with y.2.
      * by apply StronglySorted_cons.
    + apply Z.leb_gt in E.
      assert (Hyx : byPreference y x).
      { destruct (preferred_total y.2 x.2) as [H | H]; [done|].
        apply compareRPC_le in H. lia. }
      apply StronglySorted_cons. split; [|by apply IH].
      rewrite insertSorted_perm. by constructor.
Qed.

Lemma sortCandidates_sorted l : StronglySorted byPreference (sortCandidates l).
Proof.
  induction l as [|x rest IH]; simpl; [constructor|].
  by apply insertSorted_sorted.
Qed.

(** ** The filter *)

Lemma canMakeRequest_underCap now u maxRps cs rpc :
  underCap now rpc cs → underCap now rpc (snd (canMakeRequest now u maxRps cs)).
Proof.
  unfold canMakeRequest, underCap. intros H.
  destruct (cs !! u) as [c|] eqn:Eu; [|done].
  destruct (1000 <=? now - lastReset c) eqn:Est; [|done]. simpl.
  intros counter. destruct (decide (u = url rpc)) as [->|Hne].
  - rewrite lookup_insert_eq. intros [= <-]. simpl.
    specialize (H c Eu). rewrite Est in H.
    replace (now - now) with 0 by lia. done.
  - rewrite lookup_insert_ne by done. apply H.
Qed.

Lemma canMakeRequest_admits now rpc cs :
  underCap now rpc cs →
  fst (canMakeRequest now (url rpc) (maxRequestsPerSecond rpc) cs) = true.
Proof.
  unfold canMakeRequest, underCap. intros H.
  destruct (cs !! url rpc) as [c|] eqn:Eu; [|done].
  specialize (H c eq_refl).
  destruct (1000 <=? now - lastReset c); [done|]. simpl. by apply Z.ltb_lt.
Qed.

Lemma filterHealthy_elem now failed k conns cs i rpc :
  (i, rpc) ∈ fst (filterHealthy now failed k conns cs) →
  (k ≤ i)%nat ∧ conns !! (i - k)%nat = Some rpc
  ∧ healthy rpc = true ∧ url rpc ∉ failed.
Proof.
  revert k cs. induction conns as [|c rest IH]; intros k cs; simpl.
  - intros H. by apply elem_of_nil in H.
  - destruct (healthy c && negb (bool_decide (url c ∈ failed))) eqn:Eg.
    + destruct (canMakeRequest now (url c) (maxRequestsPerSecond c) cs)
        as [ok cs1].
      destruct (filterHealthy now failed (S k) rest cs1) as [kept cs2] eqn:Ef.
      simpl. intros H.
      assert (Hrest : (i, rpc) ∈ kept →
                (k ≤ i)%nat ∧ (c :: rest) !! (i - k)%nat = Some rpc
                ∧ healthy rpc = true ∧ url rpc ∉ failed).
      { intros Hk. specialize (IH (S k) cs1). rewrite Ef in IH.
        destruct (IH Hk) as (Hle & Hl & Hh & Hf).
        split; [lia|]. split; [|done].
        replace (i - k)%nat with (S (i - S k)) by lia. exact Hl. }
      destruct ok; [|by apply Hrest].
      apply elem_of_cons in H as [[= -> ->] | H]; [|by apply Hrest].
      apply andb_true_iff in Eg as [Hh Hf].
      apply negb_true_iff, bool_decide_eq_false in Hf.
      split; [lia|]. split; [|done]. by rewrite Nat.sub_diag.
    + intros H. destruct (IH (S k) cs H) as (Hle & Hl & Hh & Hf).
      split; [lia|]. split; [|done].
      replace (i - k)%nat with (S (i - S k)) by lia. exact Hl.
Qed.

Lemma filterHealthy_intro now failed k conns cs i rpc :
  conns !! i = Some rpc →
  healthy rpc = true →
  url rpc ∉ failed →
  underCap now rpc cs →
  ((k + i)%nat, rpc) ∈ fst (filterHealthy now failed k conns cs).
Proof.
  revert k cs i. induction conns as [|c rest IH]; intros k cs i Hl Hh Hf Hu;
    [done|]. simpl.
  destruct i as [|i]; simpl in Hl.
  - injection Hl as ->. rewrite Hh.
    rewrite (bool_decide_eq_false_2 _ Hf). simpl.
    pose proof (canMakeRequest_admits now rpc cs Hu) as Ha.
    destruct (canMakeRequest now (url rpc) (maxRequestsPerSecond rpc) cs)
      as [ok cs1]. simpl in Ha. subst ok.
    destruct (filterHealthy now failed (S k) rest cs1) as [kept cs2].
    simpl. rewrite Nat.add_0_r. apply list_elem_of_here.
  - replace (k + S i)%nat with (S k + i)%nat by lia.
    destruct (healthy c && negb (bool_decide (url c ∈ failed))).
    + pose proof (canMakeRequest_underCap now (url c) (maxRequestsPerSecond c)
                    cs rpc Hu) as Hu'.
      destruct (canMakeRequest now (url c) (maxRequestsPerSecond c) cs)
        as [ok cs1]. simpl in Hu'.
      specialize (IH (S k) cs1 i Hl Hh Hf Hu').
      destruct (filterHealthy now failed (S k) rest cs1) as [kept cs2].
      simpl in *. destruct ok; [by apply list_elem_of_further | done].
    + by apply IH.
Qed.

Lemma candidates_elem now conns m i rpc :
  (i, rpc) ∈ candidates now conns m →
  conns !! i = Some rpc ∧ healthy rpc = true ∧ url rpc ∉ failedRPCs m.
Proof.
  intros H. apply filterHealthy_elem in H as (_ & Hl & Hh & Hf).
  by rewrite Nat.sub_0_r in Hl.
Qed.

Lemma candidates_intro now conns m i rpc :
  conns !! i = Some rpc →
  healthy rpc = true →
  url rpc ∉ failedRPCs m →
  underCap now rpc (requestCounters m) →
  (i, rpc) ∈ candidates now conns m.
Proof.
  intros. by apply (filterHealthy_intro now (failedRPCs m) 0 conns _ i rpc).
Qed.

(** ** Counters across a pass *)

Lemma refresh_idem now c : refresh now (refresh now c) = refresh now c.
Proof.
  unfold refresh. destruct (1000 <=? now - lastReset c) eqn:E; simpl.
  - replace (now - now) with 0 by lia. done.
  - by rewrite E.
Qed.

Lemma canMakeRequest_lookup now u maxRps cs u' :
  snd (canMakeRequest now u maxRps cs) !! u'
  = if decide (u = u') then refresh now <$> cs !! u' else cs !! u'.
Proof.
  unfold canMakeRequest, refresh.
  destruct (decide (u = u')) as [<-|Hne].
  - destruct (cs !! u) as [c|] eqn:E; simpl; [|done].
    destruct (1000 <=? now - lastReset c); simpl.
    + by rewrite lookup_insert_eq.
    + by rewrite E.
  - destruct (cs !! u) as [c|] eqn:E; simpl; [|done].
    destruct (1000 <=? now - lastReset c); simpl; [|done].
    by rewrite lookup_insert_ne.
Qed.

Lemma canMakeRequest_fst now u maxRps cs :
  fst (canMakeRequest now u maxRps cs)
  = match cs !! u with
    | None => true
    | Some c => (1000 <=? now - lastReset c) || (count c <? safeLimit maxRps)
    end.
Proof.
  unfold canMakeRequest. destruct (cs !! u) as [c|]; [|done].
  by destruct (1000 <=? now - lastReset c).
Qed.

(** After the filter every counter is either untouched or refreshed. *)
Lemma filterHealthy_lookup now failed k conns cs u :
  snd (filterHealthy now failed k conns cs) !! u = cs !! u
  ∨ snd (filterHealthy now failed k conns cs) !! u = refresh now <$> cs !! u.
Proof.
  revert k cs. induction conns as [|c rest IH]; intros k cs; simpl; [by left|].
  destruct (healthy c && negb (bool_decide (url c ∈ failed))); [|apply IH].
  pose proof (canMakeRequest_lookup now (url c) (maxRequestsPerSecond c) cs u) as Hc.
  destruct (canMakeRequest now (url c) (maxRequestsPerSecond c) cs) as [ok cs1].
  simpl in Hc. specialize (IH (S k) cs1).
  destruct (filterHealthy now failed (S k) rest cs1) as [kept cs2]. simpl in *.
  destruct (decide (url c = u)).
  - right. destruct IH as [-> | ->]; rewrite Hc; [done|].
    destruct (cs !! u) as [c0|]; simpl; [|done]. by rewrite refresh_idem.
  - rewrite Hc in IH. exact IH.
Qed.

(** The counter of an endpoint that reached the rate check is refreshed. *)
Lemma filterHealthy_lookup_checked now failed k conns cs rpc :
  rpc ∈ conns → healthy rpc = true → url rpc ∉ failed →
  snd (filterHealthy now failed k conns cs) !! url rpc
  = refresh now <$> cs !! url rpc.
Proof.
  revert k cs. induction conns as [|c rest IH]; intros k cs Hin Hh Hf;
    [by apply elem_of_nil in Hin|]. simpl.
  destruct (healthy c && negb (bool_decide (url c ∈ failed))) eqn:Eg.
  - pose proof (canMakeRequest_lookup now (url c) (maxRequestsPerSecond c)
                  cs (url rpc)) as Hc.
    destruct (canMakeRequest now (url c) (maxRequestsPerSecond c) cs) as [ok cs1].
    simpl in Hc.
    pose proof (filterHealthy_lookup now failed (S k) rest cs1 (url rpc)) as Hr.
    specialize (IH (S k) cs1).
    destruct (filterHealthy now failed (S k) rest cs1) as [kept cs2]. simpl in *.
    destruct (decide (url c = url rpc)) as [Eu|Hne].
    + destruct Hr as [-> | ->]; rewrite Hc; [done|].
      destruct (cs !! url rpc) as [c0|]; simpl; [|done]. by rewrite refresh_idem.
    + apply elem_of_cons in Hin as [-> | Hin]; [done|].
      rewrite IH by done. by rewrite Hc.
  - apply elem_of_cons in Hin as [-> | Hin]; [|by apply IH].
    rewrite Hh in Eg. rewrite (bool_decide_eq_false_2 _ Hf) in Eg. done.
Qed.

Lemma countersAfterFilter_candidate now conns m i rpc :
  (i, rpc) ∈ candidates now conns m →
  countersAfterFilter now conns m !! url rpc
  = refresh now <$> requestCounters m !! url rpc.
Proof.
  intros H. apply candidates_elem in H as (Hl & Hh & Hf).
  apply filterHealthy_lookup_checked; [|done..].
  apply list_elem_of_lookup. by exists i.
Qed.

Lemma updateRequestCounter_lookup u cs u' :
  updateRequestCounter u cs !! u'
  = if decide (u = u') then bump <$> cs !! u' else cs !! u'.
Proof.
  unfold updateRequestCounter, bump.
  destruct (decide (u = u')) as [<-|Hne].
  - destruct (cs !! u) as [c|] eqn:E; simpl.
    + by rewrite lookup_insert_eq.
    + by rewrite E.
  - destruct (cs !! u) as [c|] eqn:E; simpl; [|done].
    by rewrite lookup_insert_ne.
Qed.

(** ** Priority order *)

(** C7: the candidates are put in order of priority and then request count
    (the sorted array is a rearrangement of the candidates in which every
    element is at least as good as all that follow).  When a pass has
    candidates, the pick is the head of that array, so it is at least as
    good as every candidate; of two candidates with priorities p1 < p2 (and
    equal request counts) the p2 one is never picked, and the p1 one is
    picked when they are the only candidates.  The pick has its [requestCount]
    raised by one and its [lastUsed] set to [now] in the pool, the other
    positions of the pool are unchanged, and the rate counter of its url is
    raised by one. *)
Theorem getBestRPC_picks_lowest_priority depth now chain m conns :
  (0 < depth)%nat →
  initialized m = true →
  getProp chain (connections m) = Some conns →
  candidates now conns m ≠ [] →
  sortCandidates (candidates now conns m) ≡ₚ candidates now conns m
  ∧ StronglySorted byPreference (sortCandidates (candidates now conns m))
  ∧ ∃ i selected,
    head (sortCandidates (candidates now conns m)) = Some (i, selected)
    ∧ (i, selected) ∈ candidates now conns m
    ∧ (∀ j rpc, (j, rpc) ∈ candidates now conns m → preferred selected rpc)
    ∧ (∀ ia a ib b,
         (ia, a) ∈ candidates now conns m →
         (ib, b) ∈ candidates now conns m →
         priority a < priority b →
         requestCount a = requestCount b →
         (i, selected) ≠ (ib, b)
         ∧ ((∀ x, x ∈ candidates now conns m → x = (ia, a) ∨ x = (ib, b)) →
            (i, selected) = (ia, a)))
    ∧ fst (getBestRPC depth now chain m) = Normal (connection selected)
    ∧ let m' := snd (getBestRPC depth now chain m) in
      ∃ conns',
        getProp chain (connections m') = Some conns'
        ∧ conns' !! i = Some (markUsed now selected)
        ∧ requestCount (markUsed now selected) = requestCount selected + 1
        ∧ lastUsed (markUsed now selected) = now
        ∧ (∀ j, j ≠ i → conns' !! j = conns !! j)
        ∧ requestCounters m' !! url selected
          = bump <$> (refresh now <$> requestCounters m !! url selected).
Proof.
  intros Hd Hi Hc Hne. destruct depth as [|d]; [lia|].
  split; [apply sortCandidates_perm|].
  split; [apply sortCandidates_sorted|].
  destruct (sortCandidates (candidates now conns m)) as [|[i sel] rest] eqn:Hs.
  { apply (proj1 (sortCandidates_nil _)) in Hs. contradiction. }
  destruct (sortCandidates_best _ _ _ Hs) as [Hin Hbest].
  exists i, sel. split; [done|]. split; [done|].
  split; [intros j rpc Hj; apply (Hbest (j, rpc) Hj)|].
  split.
  { intros ia a ib b Ha Hb Hlt Hrc. split.
    - intros [= -> ->]. specialize (Hbest _ Ha). unfold preferred in Hbest.
      simpl in Hbest. lia.
    - intros Hall. destruct (Hall _ Hin) as [E | [= -> ->]]; [done|].
      specialize (Hbest _ Ha). unfold preferred in Hbest. simpl in Hbest. lia. }
  rewrite (getBestRPC_pick d now chain m conns i sel rest) by done.
  split; [done|]. simpl.
  apply candidates_elem in Hin as Hin'. destruct Hin' as (Hl & _ & _).
  exists (alter (markUsed now) i conns).
  split; [apply getProp_setProp_eq|].
  split; [by rewrite list_lookup_alter_eq, Hl|].
  split; [done|]. split; [done|].
  split; [intros j Hj; by apply list_lookup_alter_ne|].
  rewrite updateRequestCounter_lookup.
  destruct (decide (url sel = url sel)); [|done].
  by rewrite (countersAfterFilter_candidate now conns m i sel).
Qed.

Lemma getBestRPC_picks_lowest_priority_witness :
  (0 < 1)%nat
  ∧ initialized exTwoEndpoints = true
  ∧ candidates 500 [exEndpoint urlB 2 0%nat; exEndpoint urlA 1 1%nat] exTwoEndpoints
    = [(0%nat, exEndpoint urlB 2 0%nat); (1%nat, exEndpoint urlA 1 1%nat)]
  ∧ fst (getBestRPC 1 500 "ethereum" exTwoEndpoints) = Normal 1%nat.
Proof.
  assert (Hc : candidates 500 [exEndpoint urlB 2 0%nat; exEndpoint urlA 1 1%nat]
                 exTwoEndpoints
               = [(0%nat, exEndpoint urlB 2 0%nat); (1%nat, exEndpoint urlA 1 1%nat)])
    by by vm_compute.
  split; [lia|]. split; [reflexivity|]. split; [exact Hc|].
  destruct (getBestRPC_picks_lowest_priority 1 500 "ethereum" exTwoEndpoints
              [exEndpoint urlB 2 0%nat; exEndpoint urlA 1 1%nat]
              ltac:(lia) eq_refl eq_refl ltac:(by rewrite Hc))
    as (_ & _ & i & sel & _ & _ & _ & Hpair & Hres & _).
  rewrite Hres.
  assert (Hb : (0%nat, exEndpoint urlB 2 0%nat)
               ∈ candidates 500 [exEndpoint urlB 2 0%nat; exEndpoint urlA 1 1%nat]
                   exTwoEndpoints)
    by (rewrite Hc; apply list_elem_of_here).
  assert (Ha : (1%nat, exEndpoint urlA 1 1%nat)
               ∈ candidates 500 [exEndpoint urlB 2 0%nat; exEndpoint urlA 1 1%nat]
                   exTwoEndpoints)
    by (rewrite Hc; apply list_elem_of_further, list_elem_of_here).
  destruct (Hpair 1%nat (exEndpoint urlA 1 1%nat) 0%nat (exEndpoint urlB 2 0%nat)
              Ha Hb ltac:(cbn; lia) eq_refl) as [_ Hsel].
  assert (Hall : ∀ x,
            x ∈ candidates 500 [exEndpoint urlB 2 0%nat; exEndpoint urlA 1 1%nat]
                  exTwoEndpoints →
            x = (1%nat, exEndpoint urlA 1 1%nat) ∨ x = (0%nat, exEndpoint urlB 2 0%nat)).
  { intros x Hx. rewrite Hc in Hx.
    apply elem_of_cons in Hx as [-> | Hx]; [by right|].
    apply elem_of_cons in Hx as [-> | Hx]; [by left|].
    by apply elem_of_nil in Hx. }
  specialize (Hsel Hall). injection Hsel as -> ->. reflexivity.
Defined.

(** An eligible endpoint whose priority number is below that of every other
    endpoint of the pool is the pick. *)
Lemma getBestRPC_unique_best depth now chain m conns i rpc :
  initialized m = true →
  getProp chain (connections m) = Some conns →
  conns !! i = Some rpc →
  healthy rpc = true →
  url rpc ∉ failedRPCs m →
  underCap now rpc (requestCounters m) →
  (∀ j other, conns !! j = Some other → j ≠ i → priority rpc < priority other) →
  getBestRPC (S depth) now chain m
  = (Normal (connection rpc), afterSelection now chain conns i rpc m).
Proof.
  intros Hi Hc Hl Hh Hf Hu Hbest.
  pose proof (candidates_intro now conns m i rpc Hl Hh Hf Hu) as Hin.
  destruct (sortCandidates (candidates now conns m)) as [|[i' sel] rest] eqn:Hs.
  { apply (proj1 (sortCandidates_nil _)) in Hs. rewrite Hs in Hin.
    by apply elem_of_nil in Hin. }
  destruct (sortCandidates_best _ _ _ Hs) as [Hsel Hpref].
  apply candidates_elem in Hsel as (Hl' & _ & _).
  specialize (Hpref _ Hin). simpl in Hpref.
  destruct (decide (i' = i)) as [->|Hne].
  - rewrite Hl in Hl'. injection Hl' as <-.
    by apply (getBestRPC_pick depth now chain m conns i rpc rest).
  - specialize (Hbest i' sel Hl' Hne). unfold preferred in Hpref. lia.
Qed.

(** ** Administrative removal *)

(** C8: [removeRPC] touches the static configuration and the failed set
    only (and nothing at all when the chain has no configuration entry;
    when it has one, the call returns);
    [connections], the rate counters and the [initialized] flag are the
    same afterwards.  So an endpoint of the live pool whose url has been
    removed is still picked by [getBestRPC]: here, whenever it is healthy,
    under its rate cap and has the lowest priority number of its pool. *)
Theorem removeRPC_leaves_live_pool chain u m :
  connections (removeRPC chain u m).2 = connections m
  ∧ requestCounters (removeRPC chain u m).2 = requestCounters m
  ∧ initialized (removeRPC chain u m).2 = initialized m
  ∧ (getProp chain (rpcConfigs m) = None → (removeRPC chain u m).2 = m)
  ∧ (∀ configs,
       getProp chain (rpcConfigs m) = Some configs →
       (removeRPC chain u m).1 = Normal ()
       ∧ getProp chain (rpcConfigs (removeRPC chain u m).2)
         = Some (filter (λ rpc, Config.url rpc ≠ u) configs)
       ∧ (∀ chain', chain ≠ chain' →
            getProp chain' (rpcConfigs (removeRPC chain u m).2)
            = getProp chain' (rpcConfigs m))
       ∧ failedRPCs (removeRPC chain u m).2 = failedRPCs m ∖ {[u]}
       ∧ ∀ depth now conns i rpc,
           (0 < depth)%nat →
           initialized m = true →
           getProp chain (connections m) = Some conns →
           conns !! i = Some rpc →
           url rpc = u →
           healthy rpc = true →
           underCap now rpc (requestCounters m) →
           (∀ j other, conns !! j = Some other → j ≠ i →
              priority rpc < priority other) →
           fst (getBestRPC depth now chain (removeRPC chain u m).2)
           = Normal (connection rpc)).
Proof.
  unfold removeRPC, readProp.
  destruct (getProp chain (rpcConfigs m)) as [configs|] eqn:Ecfg; simpl.
  - split; [done|]. split; [done|]. split; [done|]. split; [done|].
    intros ? [= <-]. split; [done|].
    split; [apply getProp_setProp_eq|].
    split; [intros chain' Hne; by apply getProp_setProp_ne|].
    split; [done|].
    intros depth now conns i rpc Hd Hi Hc Hl Hu Hh Hcap Hbest.
    destruct depth as [|d]; [lia|].
    rewrite (getBestRPC_unique_best d now chain _ conns i rpc); try done.
    simpl. subst u. apply not_elem_of_difference. right.
    by apply elem_of_singleton.
  - destruct (bool_decide (chain ∈ inheritedNames)); simpl;
      (split; [done|]; split; [done|]; split; [done|]; split; [done|];
       intros ? [=]).
Qed.

Lemma removeRPC_leaves_live_pool_witness :
  getProp "ethereum" (rpcConfigs exEthFailed)
  = Some [ {| Config.url := ethUrl; Config.priority := 1;
              Config.maxRequestsPerSecond := 5 |} ]
  ∧ getProp "ethereum" (rpcConfigs (removeRPC "ethereum" ethUrl exEthFailed).2)
    = Some []
  ∧ fst (getBestRPC 1 1500 "ethereum" (removeRPC "ethereum" ethUrl exEthFailed).2)
    = Normal 1%nat.
Proof.
  destruct (removeRPC_leaves_live_pool "ethereum" ethUrl exEthFailed)
    as (_ & _ & _ & _ & H).
  destruct (H _ eq_refl) as (_ & Hcfg & _ & _ & Hsel).
  split; [reflexivity|]. split; [exact Hcfg|].
  apply (Hsel 1%nat 1500 [exEndpoint ethUrl 1 1%nat] 0%nat (exEndpoint ethUrl 1 1%nat));
    try reflexivity; try lia.
  - intros c Hc. vm_compute in Hc. injection Hc as <-. by vm_compute.
  - intros [|j] other Hj Hne; [congruence|]. destruct j; discriminate Hj.
Defined.

(** ** Health monitor *)

Lemma hysteresis_refl rpc : hysteresis rpc rpc.
Proof. unfold hysteresis. split; [done|]. split; [done|]. congruence. Qed.

Lemma checkEndpoint_hysteresis ok rpc failed :
  hysteresis rpc (checkEndpoint ok rpc failed).1.
Proof.
  unfold checkEndpoint, hysteresis. destruct ok; simpl.
  - split; [done|]. split; [done|]. discriminate.
  - split; [done|]. split; [done|]. intros Hh.
    destruct (5 <=? errorCount rpc + 1) eqn:E; [|congruence].
    apply Z.leb_le in E. done.
Qed.

Lemma checkEndpoint_failed ok rpc failed u :
  u ∈ (checkEndpoint ok rpc failed).2 →
  u ∈ failed
  ∨ (u = url rpc ∧ healthy (checkEndpoint ok rpc failed).1 = false
     ∧ 5 <= errorCount (checkEndpoint ok rpc failed).1).
Proof.
  unfold checkEndpoint. destruct ok; simpl.
  - intros [H _]%elem_of_difference. by left.
  - destruct (5 <=? errorCount rpc + 1) eqn:E; [|by left].
    apply Z.leb_le in E. intros [->%elem_of_singleton | H]%elem_of_union;
      [right | by left]. done.
Qed.

Lemma Forall2_hysteresis_insert conns i rpc rpc' :
  conns !! i = Some rpc → hysteresis rpc rpc' →
  Forall2 hysteresis conns (<[i := rpc']> conns).
Proof.
  intros Hl Hh. rewrite <- (list_insert_id conns i rpc Hl) at 1.
  apply Forall2_insert; [|done].
  apply Forall_Forall2_diag, Forall_forall. intros. apply hysteresis_refl.
Qed.

Lemma checkChain_spec probe conns failed :
  Forall2 hysteresis conns (checkChain probe conns failed).1
  ∧ ∀ u, u ∈ (checkChain probe conns failed).2 →
      u ∈ failed
      ∨ ∃ rpc, rpc ∈ (checkChain probe conns failed).1 ∧ url rpc = u
               ∧ healthy rpc = false ∧ 5 <= errorCount rpc.
Proof.
  unfold checkChain.
  assert (Hrefl : Forall2 hysteresis conns conns).
  { apply Forall_Forall2_diag, Forall_forall. intros. apply hysteresis_refl. }
  destruct (activeRPC conns) as [i|]; [|by split; [|left]].
  destruct (conns !! i) as [rpc|] eqn:Hl; [|by split; [|left]].
  pose proof (checkEndpoint_hysteresis (probe rpc) rpc failed) as Hh.
  pose proof (checkEndpoint_failed (probe rpc) rpc failed) as Hf.
  destruct (checkEndpoint (probe rpc) rpc failed) as [rpc' failed']. simpl in *.
  split; [by apply (Forall2_hysteresis_insert conns i rpc)|].
  intros u Hu. destruct (Hf u Hu) as [? | (-> & Hh' & Hc)]; [by left|].
  right. exists rpc'. split; [|by destruct Hh as (-> & _)].
  apply list_elem_of_lookup. exists i. apply list_lookup_insert_eq.
  by apply lookup_lt_Some in Hl.
Qed.





(** ** Handles are stable *)

Lemma fmap_alter_invariant {A B} (h : A → B) (g : A → A) i (l : list A) :
  (∀ x, h (g x) = h x) → h <$> alter g i l = h <$> l.
Proof.
  intros Hg. revert i. induction l as [|x l IH]; intros [|i]; simpl; try done.
  - by rewrite Hg.
  - f_equal. apply IH.
Qed.

(** Whatever [markUsed] leaves alone is the same in every pool after
    [getBestRPC]. *)
Lemma getBestRPC_static {B} (h : Endpoint → B) depth now chain m chain' :
  (∀ t rpc, h (markUsed t rpc) = h rpc) →
  (λ conns : list Endpoint, h <$> conns)
    <$> getProp chain' (connections (getBestRPC depth now chain m).2)
  = (λ conns : list Endpoint, h <$> conns) <$> getProp chain' (connections m).
Proof.
  intros Hh. revert m. induction depth as [|d IH]; intros m; [done|].
  destruct (initialized m) eqn:Hi; [|by rewrite getBestRPC_no_pool by by left].
  destruct (getProp chain (connections m)) as [conns|] eqn:Hc;
    [|by rewrite getBestRPC_no_pool by by right].
  destruct (sortCandidates (candidates now conns m)) as [|[i sel] rest] eqn:Hs.
  - apply (proj1 (sortCandidates_nil _)) in Hs.
    rewrite (getBestRPC_none d now chain m conns) by done.
    destruct (length conns <=? size (failedRPCs m))%nat; [|done].
    by rewrite IH.
  - rewrite (getBestRPC_pick d now chain m conns i sel rest) by done. simpl.
    destruct (decide (chain = chain')) as [<-|Hne].
    + rewrite getProp_setProp_eq, Hc. simpl. f_equal.
      by apply fmap_alter_invariant.
    + by rewrite getProp_setProp_ne.
Qed.

Lemma getBestRPC_handles depth now chain m chain' :
  handlesOf <$> getProp chain' (connections (getBestRPC depth now chain m).2)
  = handlesOf <$> getProp chain' (connections m).
Proof. by apply (getBestRPC_static connection). Qed.

Lemma getBestRPC_distinctHandles depth now chain m chain' :
  distinctHandles chain' m →
  distinctHandles chain' (getBestRPC depth now chain m).2.
Proof.
  unfold distinctHandles. intros H conns' Hc.
  pose proof (getBestRPC_handles depth now chain m chain') as E.
  rewrite Hc in E. simpl in E.
  destruct (getProp chain' (connections m)) as [conns|]; [|done].
  injection E as ->. by apply H.
Qed.

(** The connection [getBestRPC] returns belongs to an endpoint of the pool
    it leaves behind. *)
Lemma getBestRPC_returns_pool_member depth now chain m conn :
  (getBestRPC depth now chain m).1 = Normal conn →
  ∃ conns i rpc,
    getProp chain (connections (getBestRPC depth now chain m).2) = Some conns
    ∧ conns !! i = Some rpc ∧ connection rpc = conn.
Proof.
  revert m. induction depth as [|d IH]; intros m; [done|].
  destruct (initialized m) eqn:Hi; [|by rewrite getBestRPC_no_pool by by left].
  destruct (getProp chain (connections m)) as [conns|] eqn:Hc;
    [|by rewrite getBestRPC_no_pool by by right].
  destruct (sortCandidates (candidates now conns m)) as [|[i sel] rest] eqn:Hs.
  - apply (proj1 (sortCandidates_nil _)) in Hs.
    rewrite (getBestRPC_none d now chain m conns) by done.
    destruct (length conns <=? size (failedRPCs m))%nat; [apply IH | done].
  - rewrite (getBestRPC_pick d now chain m conns i sel rest) by done. simpl.
    intros [= <-].
    destruct (sortCandidates_best _ _ _ Hs) as [Hin _].
    apply candidates_elem in Hin as (Hl & _).
    exists (alter (markUsed now) i conns), i, (markUsed now sel).
    split; [apply getProp_setProp_eq|].
    split; [by rewrite list_lookup_alter_eq, Hl | done].
Qed.

(** ** Success resets the error state *)

Lemma NoDup_fmap_lookup_inj {A B} (h : A → B) (l : list A) i j x y :
  NoDup (h <$> l) → l !! i = Some x → l !! j = Some y → h x = h y → i = j.
Proof.
  intros Hnd Hi Hj Hxy.
  apply (NoDup_lookup (h <$> l) i j (h x)); [done| |].
  - by rewrite list_lookup_fmap, Hi.
  - by rewrite list_lookup_fmap, Hj, Hxy.
Qed.

Lemma resetRPCErrors_spec chain conn m conns i rpc :
  getProp chain (connections m) = Some conns →
  NoDup (handlesOf conns) →
  conns !! i = Some rpc →
  connection rpc = conn →
  (resetRPCErrors chain conn m).1 = Normal ()
  ∧ errorStateReset chain conn (resetRPCErrors chain conn m).2.
Proof.
  intros Hc Hnd Hl Hconn. unfold resetRPCErrors.
  rewrite (readProp_Own _ _ _ Hc).
  assert (Hfind : list_find (λ c, connection c = conn) conns = Some (i, rpc)).
  { apply list_find_Some. split; [done|]. split; [done|].
    intros j y Hj Hlt Hy.
    assert (j = i) by (eapply (NoDup_fmap_lookup_inj connection conns); eauto;
                       congruence).
    lia. }
  rewrite Hfind. split; [done|].
  exists (alter clearErrors i conns), i, (clearErrors rpc). simpl.
  split; [apply getProp_setProp_eq|].
  split; [by rewrite list_lookup_alter_eq, Hl|].
  split; [done|].
  split.
  { intros j rpc' Hj Hc'.
    destruct (decide (j = i)) as [->|Hne]; [done|].
    rewrite list_lookup_alter_ne in Hj by done.
    eapply (NoDup_fmap_lookup_inj connection conns); eauto. congruence. }
  split; [done|]. split; [done|].
  apply not_elem_of_difference. right. by apply elem_of_singleton.
Qed.

Section ExecutorFacts.
Context {A : Type}.
Variable depth : nat.
Variable chain : string.
Variable operation : Operation A.
Variable maxRetries : Z.

(** [resetRPCErrors] runs only after [getBestRPC] has returned for the same
    chain, so it finds the pool and does not throw. *)
Lemma tryAttempt_unfold attempt m clock :
  tryAttempt depth chain operation attempt m clock
  = match getBestRPC depth clock chain m with
    | (Throw e, m1) => (Rejected e, None, m1, clock)
    | (Normal rpc, m1) =>
        let '(elapsed, r) := operation attempt rpc clock in
        match r with
        | Fulfilled result =>
            (Fulfilled result, Some rpc, (resetRPCErrors chain rpc m1).2,
             clock + elapsed)
        | Rejected e => (Rejected e, Some rpc, m1, clock + elapsed)
        | RejectedNullish isNull =>
            (RejectedNullish isNull, Some rpc, m1, clock + elapsed)
        end
    end.
Proof.
  unfold tryAttempt.
  pose proof (getBestRPC_returns_pool_member depth clock chain m) as Hm.
  destruct (getBestRPC depth clock chain m) as [[rpc|e] m1]; [|done].
  destruct (Hm rpc eq_refl) as (conns & i & ep & Hc & _). simpl in Hc.
  destruct (operation attempt rpc clock) as [elapsed [v|e|n]]; [|done|done].
  assert (Hn : (resetRPCErrors chain rpc m1).1 = Normal ()).
  { unfold resetRPCErrors. rewrite (readProp_Own _ _ _ Hc).
    by destruct (list_find (λ c, connection c = rpc) conns) as [[k r]|]. }
  destruct (resetRPCErrors chain rpc m1) as [[[]|e] m2]; [done|].
  discriminate Hn.
Qed.

Lemma tryAttempt_failure_distinctHandles attempt m clock e ran m1 t1 :
  tryAttempt depth chain operation attempt m clock = (Rejected e, ran, m1, t1) →
  distinctHandles chain m → distinctHandles chain m1.
Proof.
  rewrite tryAttempt_unfold. intros H Hd.
  pose proof (getBestRPC_distinctHandles depth clock chain m chain Hd) as Hd'.
  destruct (getBestRPC depth clock chain m) as [[rpc|e'] m'] eqn:E; simpl in *.
  - destruct (operation attempt rpc clock) as [elapsed [v|e'|n]]; [done| |done].
    by injection H as <- <- <- <-.
  - by injection H as <- <- <- <-.
Qed.

Lemma tryAttempt_success attempt m clock v ran m1 t1 :
  tryAttempt depth chain operation attempt m clock = (Fulfilled v, ran, m1, t1) →
  distinctHandles chain m →
  ∃ conn m', ran = Some conn
    ∧ (operation attempt conn clock).2 = Fulfilled v
    ∧ getBestRPC depth clock chain m = (Normal conn, m')
    ∧ m1 = (resetRPCErrors chain conn m').2
    ∧ errorStateReset chain conn m1
    ∧ ∃ conns, getProp chain (connections m) = Some conns
               ∧ conn ∈ handlesOf conns.
Proof.
  rewrite tryAttempt_unfold. intros H Hd.
  pose proof (getBestRPC_distinctHandles depth clock chain m chain Hd) as Hd'.
  pose proof (getBestRPC_returns_pool_member depth clock chain m) as Hm.
  destruct (getBestRPC depth clock chain m) as [[rpc|e'] m'] eqn:E; simpl in *;
    [|done].
  destruct (Hm rpc eq_refl) as (conns & i & ep & Hc & Hl & Hconn).
  destruct (operation attempt rpc clock) as [elapsed [v'|e'|n]] eqn:Eo;
    [|done|done].
  injection H as <- <- <- <-.
  exists rpc, m'. split; [done|]. split; [by rewrite Eo|].
  split; [done|]. split; [done|]. split.
  { exact (proj2 (resetRPCErrors_spec chain rpc m' conns i ep Hc (Hd' conns Hc)
                    Hl Hconn)). }
  pose proof (getBestRPC_handles depth clock chain m chain) as Hh.
  rewrite E in Hh. simpl in Hh. rewrite Hc in Hh.
  destruct (getProp chain (connections m)) as [conns0|]; [|done].
  injection Hh as Hh. exists conns0. split; [done|]. rewrite <- Hh.
  apply list_elem_of_fmap. exists ep. split; [done|].
  by apply (list_elem_of_lookup_2 conns i).
Qed.

Lemma tryAttempt_failure_handles attempt m clock e ran m1 t1 :
  tryAttempt depth chain operation attempt m clock = (Rejected e, ran, m1, t1) →
  handlesOf <$> getProp chain (connections m1)
  = handlesOf <$> getProp chain (connections m).
Proof.
  rewrite tryAttempt_unfold. intros H.
  pose proof (getBestRPC_handles depth clock chain m chain) as Hh.
  destruct (getBestRPC depth clock chain m) as [[rpc|e'] m'] eqn:E; simpl in *.
  - destruct (operation attempt rpc clock) as [elapsed [v|e'|n]]; [done| |done].
    by injection H as <- <- <- <-.
  - by injection H as <- <- <- <-.
Qed.

Lemma retryLoop_success left attempt lastError m clock v :
  distinctHandles chain m →
  outcome (retryLoop depth chain operation maxRetries left attempt lastError m clock)
  = Returned v →
  let r := retryLoop depth chain operation maxRetries left attempt lastError m clock in
  ∃ earlier last conn t m0 m1,
    attempts r = (earlier ++ [last])%list
    ∧ Forall (λ a, is_Some (thrown a)) earlier
    ∧ ranOn last = Some conn ∧ thrown last = None ∧ slept last = None
    ∧ (operation (attemptNo last) conn t).2 = Fulfilled v
    ∧ getBestRPC depth t chain m0 = (Normal conn, m1)
    ∧ finalState r = (resetRPCErrors chain conn m1).2
    ∧ errorStateReset chain conn (finalState r)
    ∧ ∃ conns, getProp chain (connections m) = Some conns
               ∧ conn ∈ handlesOf conns.
Proof.
  revert attempt lastError m clock.
  induction left as [|n IH]; intros attempt lastError m clock Hd; [done|].
  cbn [retryLoop].
  destruct (tryAttempt depth chain operation attempt m clock)
    as [[[[v'|e|isNull] ran] m1] t1] eqn:Et; [| |done].
  - simpl. intros [= ->].
    destruct (tryAttempt_success _ _ _ _ _ _ _ Et Hd)
      as (conn & m' & -> & Hop & Hsel & Hfin & Hres & Hown).
    exists [], {| attemptNo := attempt; ranOn := Some conn;
                  thrown := None; slept := None |}, conn, clock, m, m'.
    by repeat split.
  - pose proof (tryAttempt_failure_distinctHandles _ _ _ _ _ _ _ Et Hd) as Hd1.
    pose proof (tryAttempt_failure_handles _ _ _ _ _ _ _ Et) as Hh.
    assert (Hback : ∀ conn,
              (∃ conns, getProp chain (connections m1) = Some conns
                        ∧ conn ∈ handlesOf conns) →
              ∃ conns, getProp chain (connections m) = Some conns
                       ∧ conn ∈ handlesOf conns).
    { intros conn (conns & Hc & Hin). rewrite Hc in Hh.
      destruct (getProp chain (connections m)) as [conns0|]; [|done].
      injection Hh as Hh. exists conns0. by rewrite <- Hh. }
    destruct (onError e attempt maxRetries) as [|ms|]; [done| |].
    + simpl. intros Ho.
      destruct (IH _ _ _ _ Hd1 Ho)
        as (earlier & last & conn & t & m0 & m' & Ha & Hf & Hran & Hth & Hsl
            & Hop & Hsel & Hfin & Hres & Hown).
      eexists (_ :: earlier), last, conn, t, m0, m'. rewrite Ha.
      split; [done|]. split; [constructor; [by eexists | done]|].
      do 6 (split; [done|]). split; [done|]. by apply Hback.
    + simpl. intros Ho.
      destruct (IH _ _ _ _ Hd1 Ho)
        as (earlier & last & conn & t & m0 & m' & Ha & Hf & Hran & Hth & Hsl
            & Hop & Hsel & Hfin & Hres & Hown).
      eexists (_ :: earlier), last, conn, t, m0, m'. rewrite Ha.
      split; [done|]. split; [constructor; [by eexists | done]|].
      do 6 (split; [done|]). split; [done|]. by apply Hback.
Qed.
End ExecutorFacts.

(** The reset does its work in whatever state it finds the manager: once
    the pool holds an endpoint for [conn], that endpoint comes out with
    [errorCount] 0, [healthy] and unmarked, whether or not it was so
    before. *)
Lemma resetRPCErrors_any_state chain conn m m' :
  (∃ conns, getProp chain (connections m) = Some conns
            ∧ conn ∈ handlesOf conns) →
  handlesOf <$> getProp chain (connections m')
  = handlesOf <$> getProp chain (connections m) →
  distinctHandles chain m' →
  (resetRPCErrors chain conn m').1 = Normal ()
  ∧ errorStateReset chain conn (resetRPCErrors chain conn m').2.
Proof.
  intros (conns & Hc & Hin) Hsame Hd. rewrite Hc in Hsame.
  destruct (getProp chain (connections m')) as [conns'|] eqn:Hc'; [|done].
  injection Hsame as Hsame. rewrite <- Hsame in Hin.
  apply list_elem_of_fmap in Hin as (rpc & Hconn & Hin).
  apply list_elem_of_lookup in Hin as [i Hl].
  apply (resetRPCErrors_spec chain conn m' conns' i rpc);
    [done | by apply Hd | done | by symmetry].
Qed.

(** C6: when [executeWithRetry] returns a value, the log ends with the
    successful call: every earlier attempt threw, the last one ran the
    operation on a connection that [getBestRPC] had just selected, got the
    returned value and was followed by no sleep and no further attempt.
    The manager it leaves behind is the one [resetRPCErrors] makes of the
    state after that selection, and in it the endpoint owning the
    connection has [errorCount] 0, is [healthy], and its url is not in the
    failed set.  The reset does not rely on the state selection left: on
    any manager whose pool for the chain holds the same connections as at
    the start of the call, whatever the endpoint's error count, health flag
    and mark, it returns normally and leaves the endpoint in that clean
    state. *)
Theorem executeWithRetry_success_resets {A} depth chain (operation : Operation A)
    maxRetries m clock v :
  distinctHandles chain m →
  outcome (executeWithRetry depth chain operation maxRetries m clock) = Returned v →
  let r := executeWithRetry depth chain operation maxRetries m clock in
  ∃ earlier last conn t m0 m1,
    attempts r = (earlier ++ [last])%list
    ∧ Forall (λ a, is_Some (thrown a)) earlier
    ∧ ranOn last = Some conn ∧ thrown last = None ∧ slept last = None
    ∧ (operation (attemptNo last) conn t).2 = Fulfilled v
    ∧ getBestRPC depth t chain m0 = (Normal conn, m1)
    ∧ finalState r = (resetRPCErrors chain conn m1).2
    ∧ errorStateReset chain conn (finalState r)
    ∧ (∀ m',
         handlesOf <$> getProp chain (connections m')
         = handlesOf <$> getProp chain (connections m) →
         distinctHandles chain m' →
         (resetRPCErrors chain conn m').1 = Normal ()
         ∧ errorStateReset chain conn (resetRPCErrors chain conn m').2).
Proof.
  intros Hd Ho r.
  destruct (retryLoop_success depth chain operation maxRetries
              (Z.to_nat maxRetries) 1 None m clock v Hd Ho)
    as (earlier & last & conn & t & m0 & m1 & Ha & Hf & Hran & Hth & Hsl & Hop
        & Hsel & Hfin & Hres & Hown).
  exists earlier, last, conn, t, m0, m1.
  do 8 (split; [done|]). split; [done|].
  intros m' Hsame Hd'.
  by apply (resetRPCErrors_any_state chain conn m m').
Qed.

Lemma exShaky_distinctHandles : distinctHandles "ethereum" exShaky.
Proof.
  intros conns Hc. vm_compute in Hc. injection Hc as <-.
  apply NoDup_singleton.
Qed.

Lemma exEthUnhealthy_distinctHandles : distinctHandles "ethereum" exEthUnhealthy.
Proof.
  intros conns Hc. vm_compute in Hc. injection Hc as <-.
  apply NoDup_singleton.
Qed.

Lemma executeWithRetry_success_resets_witness :
  distinctHandles "ethereum" exShaky
  ∧ (errorCount <$> getProp "ethereum" (connections exShaky) ≫= head) = Some 2
  ∧ outcome (executeWithRetry 2 "ethereum" exFlaky 3 exShaky 300000) = Returned 42
  ∧ errorStateReset "ethereum" 1%nat
      (finalState (executeWithRetry 2 "ethereum" exFlaky 3 exShaky 300000))
  ∧ (healthy <$> getProp "ethereum" (connections exEthUnhealthy) ≫= head)
    = Some false
  ∧ (errorCount <$> getProp "ethereum" (connections exEthUnhealthy) ≫= head)
    = Some 5
  ∧ ethUrl ∈ failedRPCs exEthUnhealthy
  ∧ errorStateReset "ethereum" 1%nat
      (resetRPCErrors "ethereum" 1%nat exEthUnhealthy).2.
Proof.
  assert (Ho : outcome (executeWithRetry 2 "ethereum" exFlaky 3 exShaky 300000)
               = Returned 42) by by vm_compute.
  destruct (executeWithRetry_success_resets 2 "ethereum" exFlaky 3 exShaky 300000
              42 exShaky_distinctHandles Ho)
    as (earlier & final & conn & t & m0 & m1 & Ha & _ & Hran & _ & _ & _ & _ & _
        & Hreset & Hany).
  assert (Hl : last (ranOn <$> attempts (executeWithRetry 2 "ethereum" exFlaky 3
                                           exShaky 300000)) = Some (Some conn)).
  { rewrite Ha, fmap_app. change (ranOn <$> [final]) with [ranOn final].
    rewrite last_snoc, Hran. reflexivity. }
  vm_compute in Hl. injection Hl as <-.
  split; [exact exShaky_distinctHandles|]. split; [by vm_compute|].
  split; [exact Ho|]. split; [exact Hreset|].
  split; [by vm_compute|]. split; [by vm_compute|].
  split; [by vm_compute|].
  assert (Hsame : handlesOf <$> getProp "ethereum" (connections exEthUnhealthy)
                  = handlesOf <$> getProp "ethereum" (connections exShaky))
    by by vm_compute.
  exact (proj2 (Hany exEthUnhealthy Hsame exEthUnhealthy_distinctHandles)).
Defined.

(** ** Validation errors *)

(** C4, as the code has it: with at least one attempt allowed, when the
    first attempt obtains a connection and the operation throws an error
    whose message contains "Invalid" or "Not found", and which the catch
    block does not first take for a rate-limit error (code 429, message
    containing "429" or "rate limit") or a network error (message
    containing "fetch failed", code NETWORK_ERROR), [executeWithRetry] makes
    that one attempt, sleeps nowhere and raises that error. *)
Theorem validation_error_raised_at_once {A} depth chain (operation : Operation A)
    maxRetries m clock conn m1 elapsed e :
  1 <= maxRetries →
  getBestRPC depth clock chain m = (Normal conn, m1) →
  operation 1 conn clock = (elapsed, Rejected e) →
  isValidationError e = true →
  isRateLimitError e = false →
  isNetworkError e = false →
  let r := executeWithRetry depth chain operation maxRetries m clock in
  outcome r = Raised (Some e)
  ∧ attempts r = [ {| attemptNo := 1; ranOn := Some conn;
                      thrown := Some e; slept := None |} ]
  ∧ totalSleep (attempts r) = Num 0
  ∧ finalState r = m1
  ∧ finalClock r = clock + elapsed.
Proof.
  intros Hm Hsel Hop Hv Hr Hn. unfold executeWithRetry.
  destruct (Z.to_nat maxRetries) as [|n] eqn:E; [lia|].
  cbn [retryLoop]. unfold tryAttempt. rewrite Hsel, Hop.
  unfold onError. rewrite Hr, Hn, Hv. simpl. done.
Qed.

Lemma validation_error_raised_at_once_witness :
  1 <= 3
  ∧ getBestRPC 2 1500 "ethereum" exStarted
    = (Normal 1%nat, (getBestRPC 2 1500 "ethereum" exStarted).2)
  ∧ isValidationError exInvalidAddress = true
  ∧ isRateLimitError exInvalidAddress = false
  ∧ isNetworkError exInvalidAddress = false
  ∧ attempts (executeWithRetry 2 "ethereum" (exAlways exInvalidAddress) 3
                exStarted 1500)
    = [ {| attemptNo := 1; ranOn := Some 1%nat;
           thrown := Some exInvalidAddress; slept := None |} ].
Proof.
  assert (Hsel : getBestRPC 2 1500 "ethereum" exStarted
                 = (Normal 1%nat, (getBestRPC 2 1500 "ethereum" exStarted).2))
    by (vm_compute; reflexivity).
  split; [lia|]. split; [exact Hsel|].
  split; [reflexivity|]. split; [reflexivity|]. split; [reflexivity|].
  exact (proj1 (proj2 (validation_error_raised_at_once 2 "ethereum"
                         (exAlways exInvalidAddress) 3 exStarted 1500 1%nat _ 10
                         exInvalidAddress ltac:(lia) Hsel eq_refl eq_refl eq_refl
                         eq_refl))).
Defined.

(** C4 as stated fails: the message of [exInvalidAddress429] contains
    "Invalid", yet with three attempts allowed the operation is called
    three times, with a 5000ms sleep after the first and the second call,
    because the message also contains "429". *)
Lemma validation_error_retried_counterexample :
  messageIncludes "Invalid" exInvalidAddress429 = true
  ∧ length (attempts (executeWithRetry 2 "ethereum" (exAlways exInvalidAddress429) 3
                        exStarted 1500)) = 3%nat
  ∧ (slept <$> attempts (executeWithRetry 2 "ethereum" (exAlways exInvalidAddress429)
                           3 exStarted 1500))
    = [Some (Num 5000); Some (Num 5000); None]
  ∧ (ranOn <$> attempts (executeWithRetry 2 "ethereum" (exAlways exInvalidAddress429)
                           3 exStarted 1500))
    = [Some 1%nat; Some 1%nat; Some 1%nat].
Proof. by vm_compute. Qed.

(** ** Rate-limit back-off *)

Lemma handleRateLimit_clamped e w :
  handleRateLimit e = Num w → 5000 <= w <= 60000.
Proof.
  unfold handleRateLimit.
  set (waitTime := match retryAfterHeader e with
                   | Some v => jsMul (parseInt v) (Num 1000)
                   | None => _ end).
  destruct waitTime as [z|]; simpl; [|done]. intros [= <-]. lia.
Qed.

Lemma totalSleep_numeric log ws :
  slept <$> log = (((λ w, Some (Num w)) <$> ws) ++ [None])%list →
  totalSleep log = Num (foldr Z.add 0 ws).
Proof.
  revert log. induction ws as [|w ws IH]; intros [|a log] H; csimpl in H;
    try discriminate.
  - injection H as Ha Hl. apply fmap_nil_inv in Hl. subst log.
    simpl. by rewrite Ha.
  - injection H as Ha Hl. simpl. rewrite Ha, (IH log Hl). done.
Qed.

Lemma sum_bounds lo hi ws :
  Forall (λ w, lo <= w <= hi) ws →
  lo * Z.of_nat (length ws) <= foldr Z.add 0 ws <= hi * Z.of_nat (length ws).
Proof.
  induction 1 as [|w ws Hw _ IH]; simpl length; simpl foldr; [lia|].
  rewrite Nat2Z.inj_succ. lia.
Qed.

Lemma afterSelection_counter_past now chain conns i sel m u c' :
  (∀ c, requestCounters m !! u = Some c → lastReset c <= now) →
  requestCounters (afterSelection now chain conns i sel m) !! u = Some c' →
  lastReset c' <= now.
Proof.
  intros Hpast. simpl. rewrite updateRequestCounter_lookup.
  unfold countersAfterFilter.
  assert (Hf : ∀ c1,
            (filterHealthy now (failedRPCs m) 0 conns (requestCounters m)).2 !! u
            = Some c1 → lastReset c1 <= now).
  { intros c1.
    destruct (filterHealthy_lookup now (failedRPCs m) 0 conns (requestCounters m) u)
      as [-> | ->]; [apply Hpast|].
    destruct (requestCounters m !! u) as [c|] eqn:E; [|done].
    simpl. intros [= <-]. unfold refresh.
    destruct (1000 <=? now - lastReset c); simpl; [lia | by apply Hpast]. }
  destruct (decide (url sel = u)); [|apply Hf].
  destruct ((filterHealthy now (failedRPCs m) 0 conns (requestCounters m)).2 !! u)
    as [c1|]; [|done].
  simpl. intros [= <-]. simpl. by apply Hf.
Qed.

(** A ready pool yields a connection, and is ready again a second
    later. *)
Lemma ready_getBestRPC depth now chain m :
  ready now chain m →
  ∃ conn m1,
    getBestRPC (S depth) now chain m = (Normal conn, m1)
    ∧ ∀ now', now + 1000 <= now' → ready now' chain m1.
Proof.
  intros (Hi & conns & i & rpc & Hc & Hl & Hh & Hf & Hu & Hs & Hpast).
  pose proof (candidates_intro now conns m i rpc Hl Hh Hf Hu) as Hin.
  destruct (sortCandidates (candidates now conns m)) as [|[i' sel] rest] eqn:Hsort.
  { apply (proj1 (sortCandidates_nil _)) in Hsort. rewrite Hsort in Hin.
    by apply elem_of_nil in Hin. }
  rewrite (getBestRPC_pick depth now chain m conns i' sel rest) by done.
  eexists _, _. split; [done|]. intros now' Hn.
  split; [done|].
  set (rpc' := if decide (i' = i) then markUsed now rpc else rpc).
  exists (alter (markUsed now) i' conns), i, rpc'.
  assert (Hsame : url rpc' = url rpc ∧ healthy rpc' = healthy rpc
                  ∧ maxRequestsPerSecond rpc' = maxRequestsPerSecond rpc).
  { unfold rpc'. by destruct (decide (i' = i)). }
  destruct Hsame as (Eu & Eh & Em).
  split; [apply getProp_setProp_eq|].
  split.
  { unfold rpc'. destruct (decide (i' = i)) as [->|Hne].
    - by rewrite list_lookup_alter_eq, Hl.
    - by rewrite list_lookup_alter_ne. }
  split; [congruence|].
  split; [by rewrite Eu|].
  assert (Hp : ∀ c', requestCounters (afterSelection now chain conns i' sel m)
                       !! url rpc = Some c' → lastReset c' <= now).
  { intros c'. by apply afterSelection_counter_past. }
  split.
  { intros c' Hc'. rewrite Eu in Hc'. rewrite Em.
    specialize (Hp c' Hc').
    destruct (1000 <=? now' - lastReset c') eqn:E; [done|].
    apply Z.leb_gt in E. lia. }
  split; [by rewrite Em|].
  intros c' Hc'. rewrite Eu in Hc'. specialize (Hp c' Hc'). lia.
Qed.

Section RateLimited.
Context {A : Type}.
Variable depth : nat.
Variable chain : string.
Variable operation : Operation A.
Variable maxRetries : Z.
Hypothesis depth_pos : (0 < depth)%nat.
Hypothesis always_rate_limited :
  ∀ attempt conn t, ∃ elapsed e w,
    operation attempt conn t = (elapsed, Rejected e)
    ∧ 0 <= elapsed
    ∧ isRateLimitError e = true
    ∧ handleRateLimit e = Num w.

Lemma retryLoop_rate_limited left attempt lastError m clock :
  (0 < left)%nat →
  attempt + Z.of_nat left = maxRetries + 1 →
  ready clock chain m →
  let r := retryLoop depth chain operation maxRetries left attempt lastError m clock in
  length (attempts r) = left
  ∧ Forall (λ a, is_Some (ranOn a)
                 ∧ ∃ e, thrown a = Some e ∧ isRateLimitError e = true)
      (attempts r)
  ∧ (∃ e, outcome r = Raised (Some e)
          ∧ last (thrown <$> attempts r) = Some (Some e))
  ∧ ∃ ws, slept <$> attempts r = (((λ w, Some (Num w)) <$> ws) ++ [None])%list
          ∧ Forall (λ w, 5000 <= w <= 60000) ws.
Proof.
  revert attempt lastError m clock.
  induction left as [|n IH]; intros attempt lastError m clock Hpos Hatt Hready;
    [lia|].
  destruct depth as [|d] eqn:Ed; [lia|].
  destruct (ready_getBestRPC d clock chain m Hready) as (conn & m1 & Hsel & Hnext).
  destruct (always_rate_limited attempt conn clock)
    as (elapsed & e & w & Hop & Hel & Hrl & Hw).
  pose proof (handleRateLimit_clamped e w Hw) as Hrange.
  cbn [retryLoop]. unfold tryAttempt. rewrite Hsel, Hop. unfold onError.
  rewrite Hrl. simpl andb.
  destruct (attempt <? maxRetries) eqn:Elt.
  - apply Z.ltb_lt in Elt. rewrite Hw.
    assert (Ht : timerDelay (Num w) = w).
    { simpl. destruct (1 <=? w) eqn:E1; [|apply Z.leb_gt in E1; lia].
      destruct (w <=? 2147483647) eqn:E2; [done|]. apply Z.leb_gt in E2. lia. }
    rewrite Ht.
    destruct (IH (attempt + 1) (Some e) m1 (clock + elapsed + w))
      as (Hlen & Hall & (e' & Ho & Hlast) & ws & Hsl & Hws);
      [lia | lia | apply Hnext; lia |].
    unfold logged. cbn [attempts outcome].
    split; [simpl; by rewrite Hlen|].
    split; [constructor; [split; [by eexists | by exists e] | done]|].
    split.
    { exists e'. split; [done|]. rewrite fmap_cons.
      destruct (attempts (retryLoop (S d) chain operation maxRetries n
                            (attempt + 1) (Some e) m1 (clock + elapsed + w)))
        as [|a l] eqn:El; [simpl in Hlen; lia|]. exact Hlast. }
    exists (w :: ws). split; [by rewrite fmap_cons, Hsl | by constructor].
  - apply Z.ltb_ge in Elt. assert (n = 0%nat) as -> by lia.
    rewrite !andb_false_r.
    assert (Hone : ∀ r : Run A,
              outcome r = Raised (Some e) →
              attempts r = [ {| attemptNo := attempt; ranOn := Some conn;
                                thrown := Some e; slept := None |} ] →
              length (attempts r) = 1%nat
              ∧ Forall (λ a, is_Some (ranOn a)
                             ∧ ∃ e, thrown a = Some e ∧ isRateLimitError e = true)
                  (attempts r)
              ∧ (∃ e, outcome r = Raised (Some e)
                      ∧ last (thrown <$> attempts r) = Some (Some e))
              ∧ ∃ ws, slept <$> attempts r
                      = (((λ w, Some (Num w)) <$> ws) ++ [None])%list
                      ∧ Forall (λ w, 5000 <= w <= 60000) ws).
    { intros r Ho Ha. rewrite Ha. split; [done|].
      split; [constructor; [split; [by eexists | by exists e] | constructor]|].
      split; [by exists e|]. by exists []. }
    destruct (isValidationError e); [by apply Hone|].
    by apply Hone.
Qed.
End RateLimited.

(** C1, as the code has it: the wait that [handleRateLimit] hands to
    [sleep] is, whenever it is a number, within [5000, 60000]; and with
    [maxRetries >= 1], a pool that is ready to serve and an operation that
    on every call throws a rate-limit error whose suggested wait is a
    number, [executeWithRetry] calls the operation in each of exactly
    [maxRetries] attempts and then raises the error of the last attempt.
    It sleeps after every attempt but the last: [maxRetries - 1] waits,
    each within [5000, 60000], so between [(maxRetries - 1) * 5000] and
    [(maxRetries - 1) * 60000] in total. *)
Theorem rate_limit_retry_exhaustion {A} depth chain (operation : Operation A)
    maxRetries m clock :
  (0 < depth)%nat →
  1 <= maxRetries →
  ready clock chain m →
  (∀ attempt conn t, ∃ elapsed e w,
     operation attempt conn t = (elapsed, Rejected e)
     ∧ 0 <= elapsed
     ∧ isRateLimitError e = true
     ∧ handleRateLimit e = Num w) →
  let r := executeWithRetry depth chain operation maxRetries m clock in
  (∀ e w, handleRateLimit e = Num w → 5000 <= w <= 60000)
  ∧ length (attempts r) = Z.to_nat maxRetries
  ∧ Forall (λ a, is_Some (ranOn a)
                 ∧ ∃ e, thrown a = Some e ∧ isRateLimitError e = true)
      (attempts r)
  ∧ (∃ e, outcome r = Raised (Some e)
          ∧ last (thrown <$> attempts r) = Some (Some e))
  ∧ ∃ ws, slept <$> attempts r = (((λ w, Some (Num w)) <$> ws) ++ [None])%list
          ∧ Z.of_nat (length ws) = maxRetries - 1
          ∧ Forall (λ w, 5000 <= w <= 60000) ws
          ∧ totalSleep (attempts r) = Num (foldr Z.add 0 ws)
          ∧ (maxRetries - 1) * 5000 <= foldr Z.add 0 ws
            <= (maxRetries - 1) * 60000.
Proof.
  intros Hd Hm Hready Hop r.
  split; [apply handleRateLimit_clamped|].
  destruct (retryLoop_rate_limited depth chain operation maxRetries Hd Hop
              (Z.to_nat maxRetries) 1 None m clock)
    as (Hlen & Hall & Hout & ws & Hsl & Hws); [lia | lia | done |].
  fold (executeWithRetry depth chain operation maxRetries m clock) in *.
  fold r in Hlen, Hall, Hout, Hsl.
  split; [done|]. split; [done|]. split; [done|].
  exists ws.
  assert (Hl : Z.of_nat (length ws) = maxRetries - 1).
  { assert (E : length (slept <$> attempts r) = S (length ws)).
    { rewrite Hsl, length_app, length_fmap. simpl. lia. }
    rewrite length_fmap, Hlen in E. lia. }
  split; [done|]. split; [done|]. split; [done|].
  split; [by apply totalSleep_numeric|].
  pose proof (sum_bounds 5000 60000 ws Hws). lia.
Qed.

Lemma exStarted_ready : ready 1500 "ethereum" exStarted.
Proof.
  split; [reflexivity|].
  exists [exEndpoint ethUrl 1 1%nat], 0%nat, (exEndpoint ethUrl 1 1%nat).
  split; [reflexivity|]. split; [reflexivity|]. split; [reflexivity|].
  split; [by vm_compute|].
  split.
  { intros c Hc. vm_compute in Hc. injection Hc as <-. by vm_compute. }
  split; [by vm_compute|].
  intros c Hc. vm_compute in Hc. injection Hc as <-. simpl. lia.
Qed.

Lemma exAlways_rate_limited attempt conn t :
  ∃ elapsed e w,
    exAlways exTooManyRequests attempt conn t = (elapsed, Rejected e)
    ∧ 0 <= elapsed
    ∧ isRateLimitError e = true
    ∧ handleRateLimit e = Num w.
Proof.
  exists 10, exTooManyRequests, 5000.
  split; [reflexivity|]. split; [lia|]. split; reflexivity.
Qed.

Lemma rate_limit_retry_exhaustion_witness :
  (0 < 2)%nat
  ∧ 1 <= 3
  ∧ ready 1500 "ethereum" exStarted
  ∧ length (attempts (executeWithRetry 2 "ethereum" (exAlways exTooManyRequests) 3
                        exStarted 1500)) = 3%nat.
Proof.
  split; [lia|]. split; [lia|]. split; [exact exStarted_ready|].
  exact (proj1 (proj2 (rate_limit_retry_exhaustion 2 "ethereum"
                         (exAlways exTooManyRequests) 3 exStarted 1500
                         ltac:(lia) ltac:(lia) exStarted_ready
                         exAlways_rate_limited))).
Defined.

(** C1 as stated fails on the sleep total: with three attempts allowed and
    an operation that always throws a plain 429 error, there are three
    attempts but only two sleeps of 5000ms, 10000ms in all, which is below
    3 * 5000ms; the last attempt is followed by no sleep. *)
Lemma rate_limit_total_sleep_counterexample :
  isRateLimitError exTooManyRequests = true
  ∧ length (attempts (executeWithRetry 2 "ethereum" (exAlways exTooManyRequests) 3
                        exStarted 1500)) = 3%nat
  ∧ (slept <$> attempts (executeWithRetry 2 "ethereum" (exAlways exTooManyRequests)
                           3 exStarted 1500))
    = [Some (Num 5000); Some (Num 5000); None]
  ∧ totalSleep (attempts (executeWithRetry 2 "ethereum" (exAlways exTooManyRequests)
                            3 exStarted 1500)) = Num 10000
  ∧ 10000 < 3 * 5000.
Proof. by vm_compute. Qed.

(** ** Rate cap *)

Lemma filterHealthy_admitted now failed k conns cs i rpc :
  (i, rpc) ∈ (filterHealthy now failed k conns cs).1 →
  ∀ c, cs !! url rpc = Some c →
    1000 <= now - lastReset c ∨ count c < safeLimit (maxRequestsPerSecond rpc).
Proof.
  revert k cs. induction conns as [|c0 rest IH]; intros k cs; simpl.
  - intros H. by apply elem_of_nil in H.
  - destruct (healthy c0 && negb (bool_decide (url c0 ∈ failed))); [|apply IH].
    pose proof (canMakeRequest_fst now (url c0) (maxRequestsPerSecond c0) cs) as Hok.
    pose proof (canMakeRequest_lookup now (url c0) (maxRequestsPerSecond c0) cs
                  (url rpc)) as Hlk.
    destruct (canMakeRequest now (url c0) (maxRequestsPerSecond c0) cs) as [ok cs1].
    specialize (IH (S k) cs1).
    destruct (filterHealthy now failed (S k) rest cs1) as [kept cs2].
    simpl in *. intros Hin c Hc.
    assert (Htail : (i, rpc) ∈ kept →
              1000 <= now - lastReset c
              ∨ count c < safeLimit (maxRequestsPerSecond rpc)).
    { intros Hk. rewrite Hc in Hlk.
      destruct (1000 <=? now - lastReset c) eqn:Est;
        [left; by apply Z.leb_le|].
      apply (IH Hk c). rewrite Hlk.
      destruct (decide (url c0 = url rpc)); [|done].
      simpl. unfold refresh. by rewrite Est. }
    destruct ok; [|by apply Htail].
    apply elem_of_cons in Hin as [[= -> ->] | Hin]; [|by apply Htail].
    rewrite Hc in Hok. symmetry in Hok.
    apply orb_true_iff in Hok as [H | H];
      [left; by apply Z.leb_le | right; by apply Z.ltb_lt].
Qed.












(** ** Start-up *)

Lemma initConfigs_fresh now opens chain configs next m :
  freshFrom next m →
  freshFrom (initConfigs now opens chain configs next m).1
    (initConfigs now opens chain configs next m).2.
Proof.
  revert next m. induction configs as [|config rest IH]; intros next m Hf;
    [done|].
  cbn [initConfigs]. destruct (opens chain (Config.url config)).
  - apply IH. intros chain' conns' Hc. simpl in Hc.
    destruct (decide (chain = chain')) as [<-|Hne].
    + rewrite getProp_setProp_eq in Hc. injection Hc as <-.
      assert (Hold : NoDup (handlesOf (default [] (getProp chain (connections m))))
                     ∧ ∀ h, h ∈ handlesOf (default [] (getProp chain (connections m)))
                            → (h < next)%nat).
      { destruct (getProp chain (connections m)) as [conns|] eqn:E.
        - by apply (Hf chain).
        - simpl. split; [apply NoDup_nil_2|]. intros h Hh.
          by apply elem_of_nil in Hh. }
      destruct Hold as [Hnd Hlt]. unfold handlesOf in *.
      rewrite fmap_app. simpl. split.
      * apply NoDup_app. split; [done|]. split; [|apply NoDup_singleton].
        intros h Hh Hn. apply list_elem_of_singleton in Hn. subst h.
        specialize (Hlt _ Hh). lia.
      * intros h Hh. apply elem_of_app in Hh as [Hh | Hh].
        -- specialize (Hlt _ Hh). lia.
        -- apply list_elem_of_singleton in Hh. subst h. lia.
    + rewrite getProp_setProp_ne in Hc by done.
      destruct (Hf chain' conns' Hc) as [Hnd Hlt]. split; [done|].
      intros h Hh. specialize (Hlt h Hh). lia.
  - apply IH. exact Hf.
Qed.

Lemma initChains_fresh now opens entries next m :
  freshFrom next m →
  ∃ next', freshFrom next' (initChains now opens entries next m).
Proof.
  revert next m. induction entries as [|[chain configs] rest IH]; intros next m Hf;
    [by exists next|].
  cbn [initChains].
  set (m0 := setConnections (setProp chain [] (connections m)) m).
  assert (Hf0 : freshFrom next m0).
  { intros chain' conns' Hc. simpl in Hc.
    destruct (decide (chain = chain')) as [<-|Hne].
    - rewrite getProp_setProp_eq in Hc. injection Hc as <-.
      split; [apply NoDup_nil_2|]. intros h Hh. by apply elem_of_nil in Hh.
    - rewrite getProp_setProp_ne in Hc by done. by apply (Hf chain'). }
  pose proof (initConfigs_fresh now opens chain configs next m0 Hf0) as Hf1.
  destruct (initConfigs now opens chain configs next m0) as [next1 m1].
  by apply (IH next1 m1).
Qed.

(** After start-up every pool has pairwise distinct connection handles,
    whichever constructors throw. *)
Lemma initialize_distinctHandles now opens configs chain :
  distinctHandles chain (initialize now opens (constructed configs)).
Proof.
  destruct (initChains_fresh now opens configs 0%nat (constructed configs))
    as [next Hf].
  { intros chain' conns' Hc. discriminate Hc. }
  intros conns Hc. by apply (Hf chain conns).
Qed.

(** ** Pools and configuration entries *)

Lemma getProp_setProp_is_Some {A} key key' (v : A) obj :
  is_Some (getProp key' (setProp key v obj)) →
  key = key' ∨ is_Some (getProp key' obj).
Proof.
  destruct (decide (key = key')) as [->|Hne]; [by left|].
  rewrite getProp_setProp_ne by done. by right.
Qed.

Lemma initConfigs_keys now opens chain configs next m chain' :
  is_Some (getProp chain' (connections (initConfigs now opens chain configs next m).2)) →
  chain = chain' ∨ is_Some (getProp chain' (connections m)).
Proof.
  revert next m. induction configs as [|config rest IH]; intros next m;
    [by right|].
  cbn [initConfigs]. destruct (opens chain (Config.url config)).
  - intros H. destruct (IH _ _ H) as [? | H']; [by left|].
    simpl in H'. by apply getProp_setProp_is_Some in H'.
  - intros H. by apply IH in H.
Qed.

Lemma initConfigs_rpcConfigs now opens chain configs next m :
  rpcConfigs (initConfigs now opens chain configs next m).2 = rpcConfigs m.
Proof.
  revert next m. induction configs as [|config rest IH]; intros next m; [done|].
  cbn [initConfigs]. destruct (opens chain (Config.url config)); by rewrite IH.
Qed.

Lemma initChains_keys now opens entries next m chain' :
  is_Some (getProp chain' (connections (initChains now opens entries next m))) →
  is_Some (getProp chain' entries) ∨ is_Some (getProp chain' (connections m)).
Proof.
  revert next m. induction entries as [|[chain configs] rest IH]; intros next m;
    [by right|].
  cbn [initChains getProp].
  set (m0 := setConnections (setProp chain [] (connections m)) m).
  pose proof (initConfigs_keys now opens chain configs next m0 chain') as Hk.
  destruct (initConfigs now opens chain configs next m0) as [next1 m1].
  simpl in Hk. intros H.
  destruct (String.eqb chain chain') eqn:E; [by left; eexists|].
  assert (Hne : chain ≠ chain') by (intros ->; by rewrite String.eqb_refl in E).
  destruct (IH _ _ H) as [? | H1]; [by left|].
  destruct (Hk H1) as [? | H2]; [done|].
  right. simpl in H2. by rewrite getProp_setProp_ne in H2.
Qed.

Lemma initChains_rpcConfigs now opens entries next m :
  rpcConfigs (initChains now opens entries next m) = rpcConfigs m.
Proof.
  revert next m. induction entries as [|[chain configs] rest IH]; intros next m;
    [done|].
  cbn [initChains].
  pose proof (initConfigs_rpcConfigs now opens chain configs next
                (setConnections (setProp chain [] (connections m)) m)) as E.
  destruct (initConfigs now opens chain configs next
              (setConnections (setProp chain [] (connections m)) m))
    as [next1 m1].
  simpl in E. by rewrite IH, E.
Qed.

(** After start-up every chain that has a pool has a configuration
    entry, which is the case in which [removeRPC] acts. *)
Lemma initialize_pools_configured now opens configs chain :
  is_Some (getProp chain (connections (initialize now opens (constructed configs)))) →
  is_Some (getProp chain (rpcConfigs (initialize now opens (constructed configs)))).
Proof.
  unfold initialize. simpl. rewrite initChains_rpcConfigs. simpl.
  intros H. destruct (initChains_keys _ _ _ _ _ _ H) as [? | [x Hx]]; [done|].
  discriminate Hx.
Qed.

(** ** Further facts about the code *)

(** X1: on an empty pool the breaker's condition holds again after every
    reset, so [getBestRPC] recurses until the stack is used up, however
    deep the stack is; the failed set is emptied on the way. *)
Theorem getBestRPC_empty_pool_exhausts_stack depth now chain m :
  initialized m = true →
  getProp chain (connections m) = Some [] →
  (getBestRPC depth now chain m).1 = Throw stackError
  ∧ ((0 < depth)%nat → failedRPCs (getBestRPC depth now chain m).2 = ∅).
Proof.
  revert m. induction depth as [|d IH]; intros m Hi Hc; [split; [done | lia]|].
  rewrite (getBestRPC_none d now chain m []) by done. simpl.
  destruct (IH (afterBreaker now [] m) Hi Hc) as [H1 H2].
  split; [done|]. intros _. destruct d as [|d']; [done|]. apply H2. lia.
Qed.

Lemma getBestRPC_empty_pool_exhausts_stack_witness :
  initialized exSolanaDown = true
  ∧ getProp "solana" (connections exSolanaDown) = Some []
  ∧ (getBestRPC 50 1500 "solana" exSolanaDown).1 = Throw stackError.
Proof.
  split; [reflexivity|]. split; [reflexivity|].
  exact (proj1 (getBestRPC_empty_pool_exhausts_stack 50 1500 "solana" exSolanaDown
                  eq_refl eq_refl)).
Defined.

Lemma skipWhite_ascii c rest :
  isWhite c = false → (nat_of_ascii c < 128)%nat →
  skipWhite (String c rest) = String c rest.
Proof.
  intros Hw Hc. cbn [skipWhite]. rewrite Hw.
  assert (H2 : ∀ c2, isWhite2 c c2 = false).
  { intros c2. unfold isWhite2.
    destruct (Nat.eqb_spec (nat_of_ascii c) 194); [lia | done]. }
  assert (H3 : ∀ c2 c3, isWhite3 c c2 c3 = false).
  { intros c2 c3. unfold isWhite3. cbv zeta.
    destruct (Nat.eqb_spec (nat_of_ascii c) 225); [lia|].
    destruct (Nat.eqb_spec (nat_of_ascii c) 226); [lia|].
    destruct (Nat.eqb_spec (nat_of_ascii c) 227); [lia|].
    destruct (Nat.eqb_spec (nat_of_ascii c) 239); [lia | done]. }
  destruct rest as [|c2 [|c3 rest3]]; [done | by rewrite H2 |].
  by rewrite H2, H3.
Qed.

Lemma parseInt_letter c rest :
  isLetter c = true → parseInt (String c rest) = NaN.
Proof.
  intros Hc. unfold parseInt.
  rewrite skipWhite_ascii;
    [| by destruct c as [[] [] [] [] [] [] [] []]
     | destruct c as [[] [] [] [] [] [] [] []];
         try discriminate Hc; vm_compute; lia ].
  destruct c as [[] [] [] [] [] [] [] []]; try discriminate Hc; done.
Qed.

(** X2: a Retry-After value that starts with a letter, as every HTTP date
    does ("Fri, 31 Dec 1999 23:59:59 GMT"), is not a number to [parseInt]:
    the wait is [NaN], [Math.max] and [Math.min] pass it through, and the
    timer then fires after 1ms. *)
Theorem handleRateLimit_unparsable_header e c rest :
  retryAfterHeader e = Some (String c rest) →
  isLetter c = true →
  parseInt (String c rest) = NaN
  ∧ handleRateLimit e = NaN
  ∧ timerDelay (handleRateLimit e) = 1.
Proof.
  intros Hh Hc. pose proof (parseInt_letter c rest Hc) as Hp.
  split; [done|]. unfold handleRateLimit. rewrite Hh, Hp. done.
Qed.

Lemma handleRateLimit_unparsable_header_witness :
  retryAfterHeader exRetryAfterDate = Some "Fri, 31 Dec 1999 23:59:59 GMT"
  ∧ isLetter "F" = true
  ∧ handleRateLimit exRetryAfterDate = NaN
  ∧ timerDelay (handleRateLimit exRetryAfterDate) = 1
  ∧ handleRateLimit exRetryAfterPadded = Num 42000.
Proof.
  assert (Hh : retryAfterHeader exRetryAfterDate
               = Some "Fri, 31 Dec 1999 23:59:59 GMT") by by vm_compute.
  split; [exact Hh|]. split; [reflexivity|].
  split; [|split].
  - exact (proj1 (proj2 (handleRateLimit_unparsable_header exRetryAfterDate
                           "F" "ri, 31 Dec 1999 23:59:59 GMT" Hh eq_refl))).
  - exact (proj2 (proj2 (handleRateLimit_unparsable_header exRetryAfterDate
                           "F" "ri, 31 Dec 1999 23:59:59 GMT" Hh eq_refl))).
  - by vm_compute.
Defined.

(** X3: the scenario of the specification: endpoints A (priority 1) and B
    (priority 2), both of capacity 5, and five calls in a row inside one
    counter window.  The first four go to A, the fifth to B. *)
Theorem two_endpoint_burst :
  (runCalls 1 ((λ t, (t, "ethereum")) <$> [500; 500; 500; 500; 500])
     exTwoEndpoints).1
  = [Normal 1%nat; Normal 1%nat; Normal 1%nat; Normal 1%nat; Normal 0%nat]
  ∧ (λ rpc, (url rpc, requestCount rpc))
      <$> default [] (getProp "ethereum"
                        (connections
                           (runCalls 1 ((λ t, (t, "ethereum"))
                                          <$> [500; 500; 500; 500; 500])
                              exTwoEndpoints).2))
    = [(urlB, 1); (urlA, 4)].
Proof. by vm_compute. Qed.

(** ** What a selection leaves alone *)

Lemma getBestRPC_connections depth now chain m :
  match (getBestRPC depth now chain m).1 with
  | Throw _ => connections (getBestRPC depth now chain m).2 = connections m
  | Normal conn =>
      ∃ conns i sel,
        getProp chain (connections m) = Some conns
        ∧ conns !! i = Some sel
        ∧ healthy sel = true
        ∧ connection sel = conn
        ∧ connections (getBestRPC depth now chain m).2
          = setProp chain (alter (markUsed now) i conns) (connections m)
  end.
Proof.
  revert m. induction depth as [|d IH]; intros m; [done|].
  destruct (initialized m) eqn:Hi; [|by rewrite getBestRPC_no_pool by by left].
  destruct (getProp chain (connections m)) as [conns|] eqn:Hc;
    [|by rewrite getBestRPC_no_pool by by right].
  destruct (sortCandidates (candidates now conns m)) as [|[i sel] rest] eqn:Hs.
  - apply (proj1 (sortCandidates_nil _)) in Hs.
    rewrite (getBestRPC_none d now chain m conns) by done.
    destruct (length conns <=? size (failedRPCs m))%nat; [|done].
    specialize (IH (afterBreaker now conns m)).
    destruct ((getBestRPC d now chain (afterBreaker now conns m)).1) as [conn|e];
      [|exact IH].
    destruct IH as (conns0 & i & sel & H0 & Hrest). simpl in H0.
    rewrite Hc in H0. exists conns0, i, sel. split; [done | exact Hrest].
  - rewrite (getBestRPC_pick d now chain m conns i sel rest) by done. simpl.
    destruct (sortCandidates_best _ _ _ Hs) as [Hin _].
    apply candidates_elem in Hin as (Hl & Hh & _).
    by exists conns, i, sel.
Qed.

Lemma getBestRPC_failedRPCs depth now chain m :
  failedRPCs (getBestRPC depth now chain m).2 = failedRPCs m
  ∨ failedRPCs (getBestRPC depth now chain m).2 = ∅.
Proof.
  revert m. induction depth as [|d IH]; intros m; [by left|].
  destruct (initialized m) eqn:Hi;
    [|rewrite getBestRPC_no_pool by (by left); by left].
  destruct (getProp chain (connections m)) as [conns|] eqn:Hc;
    [|rewrite getBestRPC_no_pool by (by right); by left].
  destruct (sortCandidates (candidates now conns m)) as [|[i sel] rest] eqn:Hs.
  - apply (proj1 (sortCandidates_nil _)) in Hs.
    rewrite (getBestRPC_none d now chain m conns) by done.
    destruct (length conns <=? size (failedRPCs m))%nat; [|by left].
    right. by destruct (IH (afterBreaker now conns m)) as [-> | ->].
  - rewrite (getBestRPC_pick d now chain m conns i sel rest) by done. by left.
Qed.

Lemma getBestRPC_scalars depth now chain m :
  initialized (getBestRPC depth now chain m).2 = initialized m
  ∧ rpcConfigs (getBestRPC depth now chain m).2 = rpcConfigs m
  ∧ lastHealthCheck (getBestRPC depth now chain m).2 = lastHealthCheck m
  ∧ healthCheckInterval (getBestRPC depth now chain m).2 = healthCheckInterval m.
Proof.
  revert m. induction depth as [|d IH]; intros m; [done|].
  destruct (initialized m) eqn:Hi; [|by rewrite getBestRPC_no_pool by by left].
  destruct (getProp chain (connections m)) as [conns|] eqn:Hc;
    [|by rewrite getBestRPC_no_pool by by right].
  destruct (sortCandidates (candidates now conns m)) as [|[i sel] rest] eqn:Hs.
  - apply (proj1 (sortCandidates_nil _)) in Hs.
    rewrite (getBestRPC_none d now chain m conns) by done.
    destruct (length conns <=? size (failedRPCs m))%nat; [|done].
    destruct (IH (afterBreaker now conns m)) as (-> & -> & -> & ->). done.
  - by rewrite (getBestRPC_pick d now chain m conns i sel rest).
Qed.

Lemma canMakeRequest_dom now u maxRps cs :
  dom (canMakeRequest now u maxRps cs).2 = dom cs.
Proof.
  unfold canMakeRequest. destruct (cs !! u) as [c|] eqn:E; [|done].
  destruct (1000 <=? now - lastReset c); [|done]. simpl.
  rewrite dom_insert_L. apply elem_of_dom_2 in E.
  apply subseteq_union_1_L. by apply singleton_subseteq_l.
Qed.

Lemma filterHealthy_dom now failed k conns cs :
  dom (filterHealthy now failed k conns cs).2 = dom cs.
Proof.
  revert k cs. induction conns as [|c rest IH]; intros k cs; simpl; [done|].
  destruct (healthy c && negb (bool_decide (url c ∈ failed))); [|apply IH].
  pose proof (canMakeRequest_dom now (url c) (maxRequestsPerSecond c) cs) as Hd.
  destruct (canMakeRequest now (url c) (maxRequestsPerSecond c) cs) as [ok cs1].
  specialize (IH (S k) cs1).
  destruct (filterHealthy now failed (S k) rest cs1) as [kept cs2].
  simpl in *. congruence.
Qed.

Lemma updateRequestCounter_dom u cs : dom (updateRequestCounter u cs) = dom cs.
Proof.
  unfold updateRequestCounter. destruct (cs !! u) as [c|] eqn:E; [|done].
  rewrite dom_insert_L. apply elem_of_dom_2 in E.
  apply subseteq_union_1_L. by apply singleton_subseteq_l.
Qed.

Lemma getBestRPC_counters_dom depth now chain m :
  dom (requestCounters (getBestRPC depth now chain m).2) = dom (requestCounters m).
Proof.
  revert m. induction depth as [|d IH]; intros m; [done|].
  destruct (initialized m) eqn:Hi; [|by rewrite getBestRPC_no_pool by by left].
  destruct (getProp chain (connections m)) as [conns|] eqn:Hc;
    [|by rewrite getBestRPC_no_pool by by right].
  destruct (sortCandidates (candidates now conns m)) as [|[i sel] rest] eqn:Hs.
  - apply (proj1 (sortCandidates_nil _)) in Hs.
    rewrite (getBestRPC_none d now chain m conns) by done.
    destruct (length conns <=? size (failedRPCs m))%nat.
    + rewrite IH. apply filterHealthy_dom.
    + apply filterHealthy_dom.
  - rewrite (getBestRPC_pick d now chain m conns i sel rest) by done. simpl.
    rewrite updateRequestCounter_dom. apply filterHealthy_dom.
Qed.

Lemma candidates_unhealthy now conns m :
  Forall (λ rpc, healthy rpc = false) conns → candidates now conns m = [].
Proof.
  intros Hall. destruct (candidates now conns m) as [|[i rpc] l] eqn:E; [done|].
  assert (Hin : (i, rpc) ∈ candidates now conns m)
    by (rewrite E; apply list_elem_of_here).
  apply candidates_elem in Hin as (Hl & Hh & _).
  rewrite Forall_forall in Hall.
  assert (healthy rpc = false); [|congruence].
  apply Hall, list_elem_of_lookup. by exists i.
Qed.

(** X4: [getBestRPC] returns only connections of endpoints whose [healthy]
    flag is set, and changes no endpoint's [healthy] flag or [errorCount].
    The circuit breaker empties the failed set but leaves the flags, so
    when every endpoint of a non-empty pool is unhealthy the call throws
    "No healthy RPCs", breaker or not. *)
Theorem getBestRPC_never_picks_unhealthy :
  (∀ depth now chain m conn,
     (getBestRPC depth now chain m).1 = Normal conn →
     ∃ conns i rpc,
       getProp chain (connections m) = Some conns
       ∧ conns !! i = Some rpc
       ∧ connection rpc = conn
       ∧ healthy rpc = true)
  ∧ (∀ depth now chain m chain',
       (λ conns : list Endpoint, (λ rpc, (healthy rpc, errorCount rpc)) <$> conns)
         <$> getProp chain' (connections (getBestRPC depth now chain m).2)
       = (λ conns : list Endpoint, (λ rpc, (healthy rpc, errorCount rpc)) <$> conns)
           <$> getProp chain' (connections m))
  ∧ (∀ depth now chain m conns,
       (2 ≤ depth)%nat →
       initialized m = true →
       getProp chain (connections m) = Some conns →
       conns ≠ [] →
       Forall (λ rpc, healthy rpc = false) conns →
       (getBestRPC depth now chain m).1 = Throw (noHealthyError chain)).
Proof.
  split; [|split].
  - intros depth now chain m conn H.
    pose proof (getBestRPC_connections depth now chain m) as Hc.
    rewrite H in Hc. destruct Hc as (conns & i & sel & ? & ? & ? & ? & _).
    by exists conns, i, sel.
  - intros. by apply (getBestRPC_static (λ rpc, (healthy rpc, errorCount rpc))).
  - intros depth now chain m conns Hd Hi Hc Hne Hall.
    destruct depth as [|[|d]]; [lia | lia |].
    pose proof (candidates_unhealthy now conns m Hall) as Hs.
    rewrite (getBestRPC_none _ now chain m conns) by done.
    destruct (length conns <=? size (failedRPCs m))%nat; [|done].
    destruct (getBestRPC_no_breaker d now chain (afterBreaker now conns m) conns)
      as (-> & Hnone & _); try done.
    by rewrite Hnone by by apply candidates_unhealthy.
Qed.

Lemma getBestRPC_never_picks_unhealthy_witness :
  (2 ≤ 2)%nat
  ∧ initialized exEthUnhealthy = true
  ∧ (1 ≤ size (failedRPCs exEthUnhealthy))%nat
  ∧ (getBestRPC 2 1500 "ethereum" exEthUnhealthy).1
    = Throw (noHealthyError "ethereum").
Proof.
  split; [lia|]. split; [reflexivity|]. split; [vm_compute; lia|].
  refine (proj2 (proj2 getBestRPC_never_picks_unhealthy) 2%nat 1500 "ethereum"
            exEthUnhealthy [(probeFailures 5 exHealthy ∅).1]
            ltac:(lia) eq_refl eq_refl ltac:(discriminate) _).
  repeat constructor.
Defined.

(** X5: a [getBestRPC] call changes nothing but the usage fields of the
    endpoint it picks, the rate counters and the failed set.  The flags
    [initialized], the static configuration and the health-check times
    stay; the pools of other chains stay; no rate counter is created or
    dropped; the failed set afterwards is the old one or empty; and when
    the call throws, every pool is as it was. *)
Theorem getBestRPC_frame depth now chain m :
  initialized (getBestRPC depth now chain m).2 = initialized m
  ∧ rpcConfigs (getBestRPC depth now chain m).2 = rpcConfigs m
  ∧ lastHealthCheck (getBestRPC depth now chain m).2 = lastHealthCheck m
  ∧ healthCheckInterval (getBestRPC depth now chain m).2 = healthCheckInterval m
  ∧ (∀ chain', chain ≠ chain' →
       getProp chain' (connections (getBestRPC depth now chain m).2)
       = getProp chain' (connections m))
  ∧ dom (requestCounters (getBestRPC depth now chain m).2)
    = dom (requestCounters m)
  ∧ (failedRPCs (getBestRPC depth now chain m).2 = failedRPCs m
     ∨ failedRPCs (getBestRPC depth now chain m).2 = ∅)
  ∧ (∀ e, (getBestRPC depth now chain m).1 = Throw e →
       connections (getBestRPC depth now chain m).2 = connections m).
Proof.
  destruct (getBestRPC_scalars depth now chain m) as (H1 & H2 & H3 & H4).
  split; [done|]. split; [done|]. split; [done|]. split; [done|].
  pose proof (getBestRPC_connections depth now chain m) as Hc.
  split.
  { intros chain' Hne.
    destruct ((getBestRPC depth now chain m).1) as [conn|e]; [|by rewrite Hc].
    destruct Hc as (conns & i & sel & _ & _ & _ & _ & ->).
    by apply getProp_setProp_ne. }
  split; [apply getBestRPC_counters_dom|].
  split; [apply getBestRPC_failedRPCs|].
  intros e He. by rewrite He in Hc.
Qed.

(** ** Monitoring views *)

Lemma filter_length_le {A} (p : A → bool) (l : list A) :
  (length (List.filter p l) ≤ length l)%nat.
Proof.
  induction l as [|x l IH]; simpl; [lia|]. destruct (p x); simpl; lia.
Qed.

Lemma filter_length_impl {A} (p q : A → bool) (l : list A) :
  (∀ x, p x = true → q x = true) →
  (length (List.filter p l) ≤ length (List.filter q l))%nat.
Proof.
  intros H. induction l as [|x l IH]; simpl; [lia|].
  destruct (p x) eqn:Ep.
  - rewrite (H x Ep). simpl. lia.
  - destruct (q x); simpl; lia.
Qed.

Lemma filter_length_fmap {A} (p : A → bool) (l l' : list A) :
  p <$> l = p <$> l' →
  length (List.filter p l) = length (List.filter p l').
Proof.
  revert l'. induction l as [|x l IH]; intros [|y l'] H; try done.
  injection H as Hx Hl. simpl. rewrite Hx.
  destruct (p y); simpl; rewrite (IH l' Hl); done.
Qed.

Lemma describeChain_counts failed conns :
  let entry := describeChain failed conns in
  ChainStatus.healthy entry + ChainStatus.failed entry = ChainStatus.total entry
  ∧ 0 <= ChainStatus.healthy entry <= ChainStatus.total entry
  ∧ 0 <= ChainStatus.failed entry
  ∧ Z.of_nat (length (ChainStatus.endpoints entry)) = ChainStatus.total entry.
Proof.
  simpl. pose proof (filter_length_le (countsAsHealthy failed) conns).
  rewrite length_fmap. lia.
Qed.

Lemma statusLoop_totals failed entries status :
  Status.totalRPCs (statusLoop failed entries status)
  = Status.totalRPCs status + poolSizes entries
  ∧ Status.healthyRPCs status
    <= Status.healthyRPCs (statusLoop failed entries status)
    <= Status.healthyRPCs status + poolSizes entries
  ∧ Status.initialized (statusLoop failed entries status)
    = Status.initialized status
  ∧ Status.failedRPCs (statusLoop failed entries status)
    = Status.failedRPCs status
  ∧ Status.supportedChains (statusLoop failed entries status)
    = Status.supportedChains status.
Proof.
  revert status. induction entries as [|[chain conns] rest IH]; intros status.
  { simpl. repeat split; try done; lia. }
  cbn [statusLoop poolSizes foldr].
  fold (poolSizes rest).
  destruct (IH {| Status.initialized := Status.initialized status;
                  Status.chains :=
                    setProp chain (describeChain failed conns) (Status.chains status);
                  Status.failedRPCs := Status.failedRPCs status;
                  Status.totalRPCs :=
                    Status.totalRPCs status
                    + ChainStatus.total (describeChain failed conns);
                  Status.healthyRPCs :=
                    Status.healthyRPCs status
                    + ChainStatus.healthy (describeChain failed conns);
                  Status.supportedChains := Status.supportedChains status |})
    as (Ht & Hh & Hi & Hf & Hs).
  destruct (describeChain_counts failed conns) as (_ & Hc & _).
  simpl in *. rewrite Ht, Hi, Hf, Hs. repeat split; try done; lia.
Qed.

Lemma statusLoop_entries failed entries status chain entry :
  getProp chain (Status.chains (statusLoop failed entries status)) = Some entry →
  getProp chain (Status.chains status) = Some entry
  ∨ ∃ conns, (chain, conns) ∈ entries ∧ entry = describeChain failed conns.
Proof.
  revert status. induction entries as [|[c conns] rest IH]; intros status;
    [by left|].
  cbn [statusLoop]. intros H. apply IH in H as [H | (conns' & Hin & ->)].
  - simpl in H. destruct (decide (c = chain)) as [->|Hne].
    + rewrite getProp_setProp_eq in H. injection H as <-.
      right. exists conns. split; [apply list_elem_of_here | done].
    + rewrite getProp_setProp_ne in H by done. by left.
  - right. exists conns'. split; [by apply list_elem_of_further | done].
Qed.

Lemma fst_setProp_present {A} key (v w : A) obj :
  getProp key obj = Some w → fst <$> setProp key v obj = fst <$> obj.
Proof.
  induction obj as [|[k x] rest IH]; simpl; [done|].
  destruct (String.eqb k key) eqn:E; simpl; [done|].
  intros H. f_equal. by apply IH.
Qed.

Lemma getProp_None_not_key {A} key (obj : list (string * A)) :
  getProp key obj = None ↔ key ∉ fst <$> obj.
Proof.
  induction obj as [|[k x] rest IH]; simpl.
  - split; [intros _ H; by apply elem_of_nil in H | done].
  - destruct (String.eqb k key) eqn:E.
    + apply String.eqb_eq in E. subst k. split; [done|].
      intros H. exfalso. apply H, list_elem_of_here.
    + assert (k ≠ key) by (intros ->; by rewrite String.eqb_refl in E).
      rewrite IH. split.
      * intros H1 H2. apply elem_of_cons in H2 as [? | ?]; [congruence | done].
      * intros H1 H2. apply H1. by apply list_elem_of_further.
Qed.

Lemma statusLoop_lookup failed entries status chain :
  uniqueKeys entries →
  getProp chain (Status.chains (statusLoop failed entries status))
  = match getProp chain entries with
    | Some conns => Some (describeChain failed conns)
    | None => getProp chain (Status.chains status)
    end.
Proof.
  unfold uniqueKeys. revert status.
  induction entries as [|[c conns] rest IH]; intros status Hnd; [done|].
  simpl in Hnd. apply NoDup_cons in Hnd as [Hc Hnd].
  cbn [statusLoop getProp]. rewrite IH by done. simpl.
  destruct (String.eqb c chain) eqn:E.
  - apply String.eqb_eq in E. subst c.
    apply getProp_None_not_key in Hc. rewrite Hc.
    apply getProp_setProp_eq.
  - assert (c ≠ chain) by (intros ->; by rewrite String.eqb_refl in E).
    destruct (getProp chain rest); [done|]. by apply getProp_setProp_ne.
Qed.

Lemma getStatus_chains m chain :
  uniqueKeys (connections m) →
  getProp chain (Status.chains (getStatus m))
  = describeChain (failedRPCs m) <$> getProp chain (connections m).
Proof.
  intros Hu. unfold getStatus. rewrite statusLoop_lookup by done.
  by destruct (getProp chain (connections m)).
Qed.

(** X6: the numbers of [getStatus] add up.  [totalRPCs] is the number of
    endpoints over all pools and [healthyRPCs] lies between 0 and it; every
    chain entry has [healthy + failed = total], [0 <= healthy <= total] and
    one endpoint description per endpoint; and each chain's entry describes
    that chain's pool (a chain without a pool has no entry). *)
Theorem getStatus_accounting m :
  Status.totalRPCs (getStatus m) = poolSizes (connections m)
  ∧ 0 <= Status.healthyRPCs (getStatus m) <= Status.totalRPCs (getStatus m)
  ∧ (∀ chain entry,
       getProp chain (Status.chains (getStatus m)) = Some entry →
       ChainStatus.healthy entry + ChainStatus.failed entry
       = ChainStatus.total entry
       ∧ 0 <= ChainStatus.healthy entry <= ChainStatus.total entry
       ∧ Z.of_nat (length (ChainStatus.endpoints entry)) = ChainStatus.total entry)
  ∧ (uniqueKeys (connections m) →
     ∀ chain,
       getProp chain (Status.chains (getStatus m))
       = describeChain (failedRPCs m) <$> getProp chain (connections m)).
Proof.
  unfold getStatus.
  set (status0 := {| Status.initialized := initialized m; Status.chains := [];
                     Status.failedRPCs := failedRPCs m; Status.totalRPCs := 0;
                     Status.healthyRPCs := 0;
                     Status.supportedChains := fst <$> rpcConfigs m |}).
  destruct (statusLoop_totals (failedRPCs m) (connections m) status0)
    as (Ht & Hh & _).
  simpl in Ht, Hh. split; [lia|]. split; [lia|]. split.
  - intros chain entry H.
    apply statusLoop_entries in H as [H | (conns & _ & ->)]; [done|].
    destruct (describeChain_counts (failedRPCs m) conns) as (H1 & H2 & _ & H4).
    done.
  - intros Hu chain. by apply getStatus_chains.
Qed.

Lemma getStatus_accounting_witness :
  uniqueKeys (connections exEthUnhealthy)
  ∧ Status.totalRPCs (getStatus exEthUnhealthy) = 6
  ∧ Status.healthyRPCs (getStatus exEthUnhealthy) = 5
  ∧ ChainStatus.healthy <$> getProp "ethereum" (Status.chains (getStatus exEthUnhealthy))
    = Some 0.
Proof.
  assert (Hu : uniqueKeys (connections exEthUnhealthy)).
  { unfold uniqueKeys. vm_compute fmap. repeat (apply NoDup_cons; split;
      [intros H; repeat (apply elem_of_cons in H as [H | H]; [discriminate|]);
       by apply elem_of_nil in H|]). apply NoDup_nil_2. }
  split; [exact Hu|]. split; [by vm_compute|]. split; [by vm_compute|].
  rewrite (proj2 (proj2 (proj2 (getStatus_accounting exEthUnhealthy))) Hu).
  by vm_compute.
Defined.

Lemma candidates_countsAsHealthy now conns m :
  (length (candidates now conns m)
   ≤ length (List.filter (countsAsHealthy (failedRPCs m)) conns))%nat.
Proof.
  unfold candidates. generalize (requestCounters m) as cs. generalize 0%nat as k.
  induction conns as [|c rest IH]; intros k cs; simpl; [lia|].
  unfold countsAsHealthy at 1.
  destruct (healthy c && negb (bool_decide (url c ∈ failedRPCs m))).
  - destruct (canMakeRequest now (url c) (maxRequestsPerSecond c) cs) as [ok cs1].
    specialize (IH (S k) cs1).
    destruct (filterHealthy now (failedRPCs m) (S k) rest cs1) as [kept cs2].
    simpl in *. destruct ok; simpl; lia.
  - apply IH.
Qed.

(** X7: the two monitoring views of one chain agree on the size of the pool
    but not on health.  [getChainStats] counts the [healthy] flags alone,
    [getStatus] also leaves out endpoints whose url is in the failed set, so
    its figure is never above that of [getChainStats], and the two coincide
    when no url of the pool is marked.  The candidates of a selection pass
    are never more than [getStatus] reports healthy.  For a chain without a
    pool of its own [getStatus] has no entry, and [getChainStats] answers
    [null] unless the chain's name is one that every object inherits from
    [Object.prototype]: then its guard passes and the call throws the
    [TypeError] of [connections.filter]. *)
Theorem getStatus_vs_getChainStats m chain :
  uniqueKeys (connections m) →
  (getProp chain (connections m) = None →
   getProp chain (Status.chains (getStatus m)) = None
   ∧ (chain ∉ inheritedNames → getChainStats chain m = Normal None)
   ∧ (chain ∈ inheritedNames → getChainStats chain m = Throw filterTypeError))
  ∧ (∀ conns,
       getProp chain (connections m) = Some conns →
       ∃ entry stats,
         getProp chain (Status.chains (getStatus m)) = Some entry
         ∧ getChainStats chain m = Normal (Some stats)
         ∧ ChainStatus.total entry = ChainStats.totalEndpoints stats
         ∧ ChainStatus.healthy entry <= ChainStats.healthyEndpoints stats
           <= ChainStats.totalEndpoints stats
         ∧ (Forall (λ rpc, url rpc ∉ failedRPCs m) conns →
            ChainStatus.healthy entry = ChainStats.healthyEndpoints stats)
         ∧ ∀ now, Z.of_nat (length (candidates now conns m))
                  <= ChainStatus.healthy entry).
Proof.
  intros Hu.
  pose proof (getStatus_chains m chain Hu) as Hs.
  unfold getChainStats. split.
  - intros Hc. rewrite Hc in Hs. split; [exact Hs|]. split.
    + intros Hn. by rewrite (proj2 (readProp_Missing _ _) (conj Hc Hn)).
    + intros Hn. by rewrite (proj2 (readProp_Inherited _ _) (conj Hc Hn)).
  - intros conns Hc. rewrite (readProp_Own _ _ _ Hc). rewrite Hc in Hs.
    simpl in Hs.
    eexists _, _. split; [exact Hs|]. split; [done|]. simpl.
    split; [done|]. split.
    { pose proof (filter_length_impl (countsAsHealthy (failedRPCs m)) healthy conns)
        as H1.
      pose proof (filter_length_le healthy conns) as H2.
      assert (∀ x, countsAsHealthy (failedRPCs m) x = true → healthy x = true).
      { intros x Hx. unfold countsAsHealthy in Hx.
        by apply andb_true_iff in Hx as [? _]. }
      specialize (H1 H). lia. }
    split.
    { intros Hall. f_equal. clear Hs Hc.
      induction Hall as [|rpc l Hr _ IH]; [done|]. simpl.
      unfold countsAsHealthy at 1.
      rewrite (bool_decide_eq_false_2 _ Hr), andb_true_r.
      destruct (healthy rpc); simpl; by rewrite IH. }
    intros now. pose proof (candidates_countsAsHealthy now conns m). lia.
Qed.

Lemma getStatus_vs_getChainStats_witness :
  uniqueKeys (connections exEthUnhealthy)
  ∧ (∃ stats, getChainStats "bsc" exEthUnhealthy = Normal (Some stats)
              ∧ ChainStats.healthyEndpoints stats = 1)
  ∧ ChainStatus.healthy <$> getProp "bsc" (Status.chains (getStatus exEthUnhealthy))
    = Some 1
  ∧ getChainStats "dogecoin" exEthUnhealthy = Normal None
  ∧ getChainStats "constructor" exEthUnhealthy = Throw filterTypeError.
Proof.
  assert (Hu : uniqueKeys (connections exEthUnhealthy)).
  { unfold uniqueKeys. vm_compute fmap. repeat (apply NoDup_cons; split;
      [intros H; repeat (apply elem_of_cons in H as [H | H]; [discriminate|]);
       by apply elem_of_nil in H|]). apply NoDup_nil_2. }
  split; [exact Hu|].
  destruct (proj2 (getStatus_vs_getChainStats exEthUnhealthy "bsc" Hu)
              [exEndpoint bscUrl 1 2%nat] eq_refl)
    as (entry & stats & He & Hst & _ & _ & Heq & _).
  assert (Hh : ChainStats.healthyEndpoints stats = 1).
  { vm_compute in Hst. by injection Hst as <-. }
  split; [exists stats; split; [exact Hst | exact Hh]|]. split.
  - rewrite He. simpl. f_equal. rewrite Heq; [exact Hh|].
    constructor; [by vm_compute | constructor].
  - destruct (proj1 (getStatus_vs_getChainStats exEthUnhealthy "dogecoin" Hu)
                eq_refl) as (_ & Hd & _).
    split; [exact (Hd dogecoin_not_inherited)|].
    destruct (proj1 (getStatus_vs_getChainStats exEthUnhealthy "constructor" Hu)
                eq_refl) as (_ & _ & Hc).
    apply Hc, list_elem_of_here.
Defined.

Lemma foldl_requestCount_shift (a : Z) (conns : list Endpoint) :
  foldl (λ sum c, sum + requestCount c) a conns
  = a + foldl (λ sum c, sum + requestCount c) 0 conns.
Proof.
  revert a. induction conns as [|c rest IH]; intros a; simpl; [lia|].
  rewrite (IH (a + requestCount c)), (IH (0 + requestCount c)). lia.
Qed.

Lemma foldl_requestCount_markUsed now i (conns : list Endpoint) sel :
  conns !! i = Some sel →
  foldl (λ sum c, sum + requestCount c) 0 (alter (markUsed now) i conns)
  = foldl (λ sum c, sum + requestCount c) 0 conns + 1.
Proof.
  revert i. induction conns as [|c rest IH]; intros [|i] H; try done; simpl.
  - rewrite (foldl_requestCount_shift (0 + (requestCount c + 1))),
      (foldl_requestCount_shift (0 + requestCount c)). lia.
  - rewrite (foldl_requestCount_shift (0 + requestCount c)),
      (foldl_requestCount_shift (0 + requestCount c) rest).
    change (list_alter (markUsed now) i rest) with (alter (markUsed now) i rest).
    rewrite (IH i H). lia.
Qed.

(** X8: [getChainStats] counts the selections.  A call of [getBestRPC]
    that returns a connection raises [totalRequests] of the requested chain
    by exactly one and changes nothing else in its statistics; a call that
    throws leaves them as they were; the statistics of every other chain are
    never touched. *)
Theorem getBestRPC_counts_requests depth now chain m :
  (∀ chain', chain' ≠ chain →
     getChainStats chain' (getBestRPC depth now chain m).2
     = getChainStats chain' m)
  ∧ match (getBestRPC depth now chain m).1 with
    | Normal _ =>
        ∃ stats,
          getChainStats chain m = Normal (Some stats)
          ∧ getChainStats chain (getBestRPC depth now chain m).2
            = Normal (Some (oneMoreRequest stats))
    | Throw _ =>
        getChainStats chain (getBestRPC depth now chain m).2
        = getChainStats chain m
    end.
Proof.
  pose proof (getBestRPC_connections depth now chain m) as Hc.
  destruct (getBestRPC_scalars depth now chain m) as (_ & _ & Hl & _).
  unfold getChainStats, readProp. rewrite Hl.
  destruct ((getBestRPC depth now chain m).1) as [conn|e].
  - destruct Hc as (conns & i & sel & Hp & Hi & _ & _ & ->). split.
    + intros chain' Hne. by rewrite getProp_setProp_ne.
    + rewrite getProp_setProp_eq, Hp. eexists. split; [done|].
      unfold oneMoreRequest. simpl.
      rewrite length_alter, (foldl_requestCount_markUsed now i conns sel Hi).
      rewrite (filter_length_fmap healthy (alter (markUsed now) i conns) conns);
        [done|].
      by apply fmap_alter_invariant.
  - rewrite Hc. done.
Qed.

(** ** Start-up *)

Lemma initConfigs_pool now opens chain configs next m pool0 :
  getProp chain (connections m) = Some pool0 →
  ∃ news,
    getProp chain (connections (initConfigs now opens chain configs next m).2)
    = Some (pool0 ++ news)%list
    ∧ Forall2 builtFrom news
        (List.filter (λ c, opens chain (Config.url c)) configs).
Proof.
  revert next m pool0. induction configs as [|config rest IH];
    intros next m pool0 Hp.
  { exists []. rewrite app_nil_r. split; [done | constructor]. }
  cbn [initConfigs List.filter]. destruct (opens chain (Config.url config)).
  - rewrite Hp. cbn [default].
    match goal with
    | |- context [initConfigs now opens chain rest (S next) ?m2] =>
        destruct (IH (S next) m2 (pool0 ++ [newEndpoint config next])%list)
          as (news & Hn & Hall)
    end.
    { simpl. apply getProp_setProp_eq. }
    exists (newEndpoint config next :: news). split.
    + rewrite Hn. f_equal. by rewrite <- app_assoc.
    + constructor; [by repeat split | done].
  - by apply IH.
Qed.

Lemma initConfigs_other now opens chain configs next m chain' :
  chain' ≠ chain →
  getProp chain' (connections (initConfigs now opens chain configs next m).2)
  = getProp chain' (connections m).
Proof.
  intros Hne. revert next m. induction configs as [|config rest IH];
    intros next m; [done|].
  cbn [initConfigs]. destruct (opens chain (Config.url config)).
  - rewrite IH. simpl. by rewrite getProp_setProp_ne.
  - by rewrite IH.
Qed.

Lemma initConfigs_failed now opens chain configs next m u :
  u ∈ failedRPCs (initConfigs now opens chain configs next m).2
  ↔ u ∈ failedRPCs m
    ∨ ∃ config, config ∈ configs ∧ Config.url config = u ∧ opens chain u = false.
Proof.
  revert next m. induction configs as [|config rest IH]; intros next m.
  { split; [by left|]. intros [? | (c & Hc & _)]; [done|].
    by apply elem_of_nil in Hc. }
  cbn [initConfigs]. destruct (opens chain (Config.url config)) eqn:Eo.
  - rewrite IH. simpl. split.
    + intros [? | (c & Hc & Hu & Ho)]; [by left|].
      right. exists c. split; [by apply list_elem_of_further | done].
    + intros [? | (c & Hc & Hu & Ho)]; [by left|].
      apply elem_of_cons in Hc as [-> | Hc]; [congruence|].
      right. by exists c.
  - rewrite IH. simpl. rewrite elem_of_union, elem_of_singleton. split.
    + intros [[-> | ?] | (c & Hc & Hu & Ho)].
      * right. exists config. split; [apply list_elem_of_here | done].
      * by left.
      * right. exists c. split; [by apply list_elem_of_further | done].
    + intros [? | (c & Hc & Hu & Ho)]; [left; by right|].
      apply elem_of_cons in Hc as [-> | Hc]; [left; by left|].
      right. by exists c.
Qed.

Lemma initConfigs_counters now opens chain configs next m u :
  (∀ counter,
     requestCounters (initConfigs now opens chain configs next m).2 !! u
     = Some counter →
     requestCounters m !! u = Some counter
     ∨ (counter = {| count := 0; lastReset := now |}
        ∧ ∃ config, config ∈ configs ∧ Config.url config = u
                    ∧ opens chain u = true))
  ∧ (is_Some (requestCounters m !! u) →
     is_Some (requestCounters (initConfigs now opens chain configs next m).2 !! u))
  ∧ (∀ config, config ∈ configs → Config.url config = u → opens chain u = true →
     is_Some (requestCounters (initConfigs now opens chain configs next m).2 !! u)).
Proof.
  revert next m. induction configs as [|config rest IH]; intros next m.
  { split; [by left|]. split; [done|]. intros c Hc. by apply elem_of_nil in Hc. }
  cbn [initConfigs]. destruct (opens chain (Config.url config)) eqn:Eo.
  - match goal with
    | |- context [initConfigs now opens chain rest ?n ?m2] =>
        destruct (IH n m2) as (IH1 & IH2 & IH3)
    end.
    simpl in IH1, IH2. split; [|split].
    + intros counter H. destruct (IH1 counter H) as [H1 | (-> & c & Hc & Hu & Ho)].
      * destruct (decide (Config.url config = u)) as [E|Hne].
        -- rewrite E, lookup_insert_eq in H1. injection H1 as <-.
           right. split; [done|]. exists config.
           split; [apply list_elem_of_here|]. split; [done | congruence].
        -- rewrite lookup_insert_ne in H1 by done. by left.
      * right. split; [done|]. exists c.
        split; [by apply list_elem_of_further | done].
    + intros H. apply IH2.
      destruct (decide (Config.url config = u)) as [E|Hne].
      * rewrite E, lookup_insert_eq. by eexists.
      * by rewrite lookup_insert_ne.
    + intros c Hc Hu Ho. apply elem_of_cons in Hc as [-> | Hc].
      * apply IH2. rewrite Hu, lookup_insert_eq. by eexists.
      * by apply (IH3 c).
  - match goal with
    | |- context [initConfigs now opens chain rest ?n ?m2] =>
        destruct (IH n m2) as (IH1 & IH2 & IH3)
    end.
    simpl in IH1, IH2. split; [|split].
    + intros counter H. destruct (IH1 counter H) as [H1 | (-> & c & Hc & Hu & Ho)];
        [by left|].
      right. split; [done|]. exists c.
      split; [by apply list_elem_of_further | done].
    + done.
    + intros c Hc Hu Ho. apply elem_of_cons in Hc as [-> | Hc]; [congruence|].
      by apply (IH3 c).
Qed.

Lemma initChains_other now opens entries next m chain :
  getProp chain entries = None →
  getProp chain (connections (initChains now opens entries next m))
  = getProp chain (connections m).
Proof.
  revert next m. induction entries as [|[c configs] rest IH]; intros next m;
    [done|].
  cbn [initChains getProp]. destruct (String.eqb c chain) eqn:E; [done|].
  assert (Hne : chain ≠ c) by (intros ->; by rewrite String.eqb_refl in E).
  intros Hr.
  pose proof (initConfigs_other now opens c configs next
                (setConnections (setProp c [] (connections m)) m) chain Hne) as Ho.
  destruct (initConfigs now opens c configs next
              (setConnections (setProp c [] (connections m)) m)) as [next1 m1].
  simpl in Ho. rewrite IH, Ho by done. by apply getProp_setProp_ne.
Qed.

Lemma initChains_pool now opens entries next m chain configs :
  uniqueKeys entries →
  getProp chain entries = Some configs →
  ∃ pool,
    getProp chain (connections (initChains now opens entries next m)) = Some pool
    ∧ Forall2 builtFrom pool
        (List.filter (λ c, opens chain (Config.url c)) configs).
Proof.
  unfold uniqueKeys. revert next m.
  induction entries as [|[c cfgs] rest IH]; intros next m Hnd; [done|].
  simpl in Hnd. apply NoDup_cons in Hnd as [Hc Hnd].
  cbn [initChains getProp]. destruct (String.eqb c chain) eqn:E.
  - apply String.eqb_eq in E. subst c. intros [= ->].
    destruct (initConfigs_pool now opens chain configs next
                (setConnections (setProp chain [] (connections m)) m) [])
      as (news & Hn & Hall).
    { simpl. apply getProp_setProp_eq. }
    destruct (initConfigs now opens chain configs next
                (setConnections (setProp chain [] (connections m)) m))
      as [next1 m1].
    simpl in Hn. exists news. split; [|done].
    rewrite initChains_other; [done|]. by apply getProp_None_not_key.
  - intros Hr.
    destruct (initConfigs now opens c cfgs next
                (setConnections (setProp c [] (connections m)) m)) as [next1 m1].
    by apply IH.
Qed.

Lemma initChains_failed now opens entries next m u :
  u ∈ failedRPCs (initChains now opens entries next m)
  ↔ u ∈ failedRPCs m ∨ configuredUrl opens entries false u.
Proof.
  revert next m. induction entries as [|[c cfgs] rest IH]; intros next m.
  { split; [by left|]. intros [? | (ch & cf & x & Hin & _)]; [done|].
    by apply elem_of_nil in Hin. }
  cbn [initChains].
  pose proof (initConfigs_failed now opens c cfgs next
                (setConnections (setProp c [] (connections m)) m) u) as Hf.
  destruct (initConfigs now opens c cfgs next
              (setConnections (setProp c [] (connections m)) m)) as [next1 m1].
  simpl in Hf. rewrite IH, Hf. split.
  - intros [[? | (x & Hx & Hu & Ho)] | (ch & cf & x & Hin & Hrest)].
    + by left.
    + right. exists c, cfgs, x. split; [apply list_elem_of_here | done].
    + right. exists ch, cf, x. split; [by apply list_elem_of_further | done].
  - intros [? | (ch & cf & x & Hin & Hx & Hu & Ho)]; [left; by left|].
    apply elem_of_cons in Hin as [[= -> ->] | Hin].
    + left. right. by exists x.
    + right. by exists ch, cf, x.
Qed.

Lemma initChains_counters now opens entries next m u :
  (∀ counter,
     requestCounters (initChains now opens entries next m) !! u = Some counter →
     requestCounters m !! u = Some counter
     ∨ (counter = {| count := 0; lastReset := now |}
        ∧ configuredUrl opens entries true u))
  ∧ (is_Some (requestCounters m !! u) →
     is_Some (requestCounters (initChains now opens entries next m) !! u))
  ∧ (configuredUrl opens entries true u →
     is_Some (requestCounters (initChains now opens entries next m) !! u)).
Proof.
  revert next m. induction entries as [|[c cfgs] rest IH]; intros next m.
  { split; [by left|]. split; [done|]. intros (ch & cf & x & Hin & _).
    by apply elem_of_nil in Hin. }
  cbn [initChains].
  destruct (initConfigs_counters now opens c cfgs next
              (setConnections (setProp c [] (connections m)) m) u)
    as (H1 & H2 & H3).
  destruct (initConfigs now opens c cfgs next
              (setConnections (setProp c [] (connections m)) m)) as [next1 m1].
  simpl in H1, H2, H3.
  destruct (IH next1 m1) as (IH1 & IH2 & IH3).
  split; [|split].
  - intros counter H.
    destruct (IH1 counter H) as [Hm1 | (-> & ch & cf & x & Hin & Hrest)].
    + destruct (H1 counter Hm1) as [? | (-> & x & Hx & Hrest)]; [by left|].
      right. split; [done|]. exists c, cfgs, x.
      split; [apply list_elem_of_here | done].
    + right. split; [done|]. exists ch, cf, x.
      split; [by apply list_elem_of_further | done].
  - intros H. by apply IH2, H2.
  - intros (ch & cf & x & Hin & Hx & Hu & Ho).
    apply elem_of_cons in Hin as [[= -> ->] | Hin].
    + by apply IH2, (H3 x).
    + apply IH3. by exists ch, cf, x.
Qed.

(** X9: what start-up leaves behind.  With the configuration [configs],
    [initialize] sets [initialized]; gives every configured chain a pool
    holding, in configuration order, one fresh endpoint (healthy, never
    used, no requests, no errors) for each entry whose client constructor
    returned, and no pool to any other chain; puts into the failed set
    exactly the urls of the entries whose constructor threw; and keeps a
    rate counter, at count 0, for exactly the urls of the entries whose
    constructor returned. *)
Theorem initialize_postcondition now opens configs :
  uniqueKeys configs →
  initialized (initialize now opens (constructed configs)) = true
  ∧ (∀ chain,
       getProp chain configs = None →
       getProp chain (connections (initialize now opens (constructed configs)))
       = None)
  ∧ (∀ chain entries,
       getProp chain configs = Some entries →
       ∃ pool,
         getProp chain (connections (initialize now opens (constructed configs)))
         = Some pool
         ∧ Forall2 builtFrom pool
             (List.filter (λ c, opens chain (Config.url c)) entries))
  ∧ (∀ u, u ∈ failedRPCs (initialize now opens (constructed configs))
          ↔ configuredUrl opens configs false u)
  ∧ (∀ u, is_Some (requestCounters (initialize now opens (constructed configs)) !! u)
          ↔ configuredUrl opens configs true u)
  ∧ (∀ u counter,
       requestCounters (initialize now opens (constructed configs)) !! u
       = Some counter →
       counter = {| count := 0; lastReset := now |}).
Proof.
  intros Hu. unfold initialize. simpl.
  split; [done|]. split; [|split; [|split; [|split]]].
  - intros chain Hn. by rewrite initChains_other.
  - intros chain entries He. by apply initChains_pool.
  - intros u. rewrite initChains_failed. simpl. split; [|by right].
    intros [H | ?]; [|done]. by apply elem_of_empty in H.
  - intros u.
    destruct (initChains_counters now opens configs 0%nat (constructed configs) u)
      as (H1 & _ & H3).
    split; [|done]. intros [counter H].
    destruct (H1 counter H) as [H' | [_ ?]]; [|done]. simpl in H'.
    by rewrite lookup_empty in H'.
  - intros u counter H.
    destruct (initChains_counters now opens configs 0%nat (constructed configs) u)
      as (H1 & _ & _).
    destruct (H1 counter H) as [H' | [? _]]; [|done]. simpl in H'.
    by rewrite lookup_empty in H'.
Qed.

Lemma defaultConfigs_uniqueKeys : uniqueKeys defaultConfigs.
Proof.
  unfold uniqueKeys. vm_compute fmap.
  repeat (apply NoDup_cons; split;
    [intros H; repeat (apply elem_of_cons in H as [H | H]; [discriminate|]);
     by apply elem_of_nil in H|]).
  apply NoDup_nil_2.
Qed.

Lemma initialize_postcondition_witness :
  uniqueKeys defaultConfigs
  ∧ initialized exSolanaDown = true
  ∧ "https://api.mainnet-beta.solana.com" ∈ failedRPCs exSolanaDown.
Proof.
  split; [exact defaultConfigs_uniqueKeys|].
  destruct (initialize_postcondition 0
              (λ chain _, negb (String.eqb chain "solana")) defaultConfigs
              defaultConfigs_uniqueKeys) as (Hi & _ & _ & Hf & _).
  split; [exact Hi|]. apply Hf.
  exists "solana", [ {| Config.url := "https://api.mainnet-beta.solana.com";
                        Config.priority := 1;
                        Config.maxRequestsPerSecond := 5 |} ],
    {| Config.url := "https://api.mainnet-beta.solana.com";
       Config.priority := 1; Config.maxRequestsPerSecond := 5 |}.
  split; [apply list_elem_of_here|]. split; [apply list_elem_of_here|]. done.
Defined.

(** ** Rate counters of pool endpoints *)

Lemma getProp_Some_elem {A} key (obj : list (string * A)) v :
  getProp key obj = Some v → (key, v) ∈ obj.
Proof.
  induction obj as [|[k w] rest IH]; simpl; [done|].
  destruct (String.eqb k key) eqn:E.
  - intros [= ->]. apply String.eqb_eq in E. subst k. apply list_elem_of_here.
  - intros H. by apply list_elem_of_further, IH.
Qed.

Lemma countersCover_same_urls m m' :
  (∀ chain,
     (λ conns : list Endpoint, url <$> conns) <$> getProp chain (connections m')
     = (λ conns : list Endpoint, url <$> conns) <$> getProp chain (connections m)) →
  dom (requestCounters m') = dom (requestCounters m) →
  countersCover m → countersCover m'.
Proof.
  intros Hu Hd Hc chain conns' rpc' Hp Hin.
  specialize (Hu chain). rewrite Hp in Hu. simpl in Hu.
  destruct (getProp chain (connections m)) as [conns|] eqn:E; [|done].
  injection Hu as Hu.
  assert (Hin' : url rpc' ∈ url <$> conns)
    by (rewrite <- Hu; by apply list_elem_of_fmap_2).
  apply list_elem_of_fmap in Hin' as (rpc & Hr & Hin').
  apply elem_of_dom. rewrite Hd, Hr. apply elem_of_dom. by apply (Hc chain conns).
Qed.

Lemma checkChain_urls probe conns failed :
  url <$> (checkChain probe conns failed).1 = url <$> conns.
Proof.
  destruct (checkChain_spec probe conns failed) as [H _].
  induction H as [|x y l l' (Hu & _) _ IH]; [done|].
  rewrite !fmap_cons. by rewrite IH, Hu.
Qed.

Lemma checkChains_urls probe entries failed chain :
  (λ conns : list Endpoint, url <$> conns)
    <$> getProp chain (checkChains probe entries failed).1
  = (λ conns : list Endpoint, url <$> conns) <$> getProp chain entries.
Proof.
  revert failed. induction entries as [|[c conns] rest IH]; intros failed; [done|].
  cbn [checkChains].
  pose proof (checkChain_urls (probe c) conns failed) as Hu.
  destruct (checkChain (probe c) conns failed) as [conns' failed1].
  specialize (IH failed1).
  destruct (checkChains probe rest failed1) as [rest' failed2].
  simpl in *. destruct (String.eqb c chain); [|done]. simpl. by rewrite Hu.
Qed.

Lemma performHealthCheck_urls now probe m chain :
  (λ conns : list Endpoint, url <$> conns)
    <$> getProp chain (connections (performHealthCheck now probe m))
  = (λ conns : list Endpoint, url <$> conns) <$> getProp chain (connections m).
Proof.
  unfold performHealthCheck.
  destruct (2 * (now - lastHealthCheck m) <? healthCheckInterval m); [done|].
  pose proof (checkChains_urls probe (connections m) (failedRPCs m) chain) as H.
  simpl. destruct (checkChains probe (connections m) (failedRPCs m)). done.
Qed.

Lemma performHealthCheck_counters now probe m :
  requestCounters (performHealthCheck now probe m) = requestCounters m.
Proof.
  unfold performHealthCheck.
  destruct (2 * (now - lastHealthCheck m) <? healthCheckInterval m); [done|].
  simpl. by destruct (checkChains probe (connections m) (failedRPCs m)).
Qed.

(** The manager after [resetRPCErrors]: as before, or with the owner of
    the connection reset and its url unmarked. *)
Lemma resetRPCErrors_state chain conn m :
  (resetRPCErrors chain conn m).2 = m
  ∨ ∃ conns i rpc,
      getProp chain (connections m) = Some conns
      ∧ list_find (λ c, connection c = conn) conns = Some (i, rpc)
      ∧ (resetRPCErrors chain conn m).2
        = setFailed (failedRPCs m ∖ {[url rpc]})
            (setConnections
               (setProp chain (alter clearErrors i conns) (connections m)) m).
Proof.
  unfold resetRPCErrors, readProp.
  destruct (getProp chain (connections m)) as [conns|] eqn:Hc.
  - destruct (list_find (λ c, connection c = conn) conns) as [[i rpc]|] eqn:Hf;
      [|by left].
    right. by exists conns, i, rpc.
  - left. by destruct (bool_decide (chain ∈ inheritedNames)).
Qed.

Lemma resetRPCErrors_static {B} (h : Endpoint → B) chain conn m chain' :
  (∀ rpc, h (clearErrors rpc) = h rpc) →
  (λ conns : list Endpoint, h <$> conns)
    <$> getProp chain' (connections (resetRPCErrors chain conn m).2)
  = (λ conns : list Endpoint, h <$> conns) <$> getProp chain' (connections m).
Proof.
  intros Hh.
  destruct (resetRPCErrors_state chain conn m)
    as [-> | (conns & i & rpc & Hc & _ & ->)]; [done|].
  simpl. destruct (decide (chain = chain')) as [<-|Hne].
  - rewrite getProp_setProp_eq, Hc. simpl. f_equal.
    by apply fmap_alter_invariant.
  - by rewrite getProp_setProp_ne.
Qed.

Lemma resetRPCErrors_urls chain conn m chain' :
  (λ conns : list Endpoint, url <$> conns)
    <$> getProp chain' (connections (resetRPCErrors chain conn m).2)
  = (λ conns : list Endpoint, url <$> conns) <$> getProp chain' (connections m).
Proof. by apply (resetRPCErrors_static url). Qed.

Lemma resetRPCErrors_counters chain conn m :
  requestCounters (resetRPCErrors chain conn m).2 = requestCounters m.
Proof.
  by destruct (resetRPCErrors_state chain conn m)
    as [-> | (conns & i & rpc & _ & _ & ->)].
Qed.

Lemma countersCover_getBestRPC depth now chain m :
  countersCover m → countersCover (getBestRPC depth now chain m).2.
Proof.
  apply countersCover_same_urls.
  - intros chain'. by apply (getBestRPC_static url).
  - apply getBestRPC_counters_dom.
Qed.

Lemma countersCover_resetRPCErrors chain conn m :
  countersCover m → countersCover (resetRPCErrors chain conn m).2.
Proof.
  apply countersCover_same_urls.
  - intros chain'. apply resetRPCErrors_urls.
  - by rewrite resetRPCErrors_counters.
Qed.

Lemma countersCover_tryAttempt {A} depth chain (operation : Operation A)
    attempt m clock :
  countersCover m →
  countersCover (tryAttempt depth chain operation attempt m clock).1.2.
Proof.
  intros Hc. rewrite tryAttempt_unfold.
  pose proof (countersCover_getBestRPC depth clock chain m Hc) as H1.
  destruct (getBestRPC depth clock chain m) as [[rpc|e] m1]; [|done].
  destruct (operation attempt rpc clock) as [elapsed [v|e|isNull]];
    [|done|done].
  by apply countersCover_resetRPCErrors.
Qed.

Lemma countersCover_retryLoop {A} depth chain (operation : Operation A)
    maxRetries left attempt lastError m clock :
  countersCover m →
  countersCover
    (finalState (retryLoop depth chain operation maxRetries left attempt
                   lastError m clock)).
Proof.
  revert attempt lastError m clock.
  induction left as [|left IH]; intros attempt lastError m clock Hc; [done|].
  cbn [retryLoop].
  pose proof (countersCover_tryAttempt depth chain operation attempt m clock Hc)
    as H1.
  destruct (tryAttempt depth chain operation attempt m clock)
    as [[[[v|e|isNull] ran] m1] t1]; [done| |done].
  simpl in H1. destruct (onError e attempt maxRetries); [done| |]; by apply IH.
Qed.

(** X10: no pool endpoint is without a rate counter.  Start-up gives every
    endpoint it creates a counter under its url, and nothing the manager
    does afterwards (selection, a retried operation, a health-check cycle,
    resetting an endpoint's error state, adding or removing a
    configuration entry) takes one away; so the branch of [canMakeRequest]
    that admits a url without a counter is never taken for an endpoint of a
    pool: such an endpoint is admitted only when its counter is a second old
    or its count is below the safe limit. *)
Theorem rate_counters_cover_pools :
  (∀ now opens configs,
     uniqueKeys configs →
     countersCover (initialize now opens (constructed configs)))
  ∧ (∀ depth now chain m,
       countersCover m → countersCover (getBestRPC depth now chain m).2)
  ∧ (∀ A depth chain (operation : Operation A) maxRetries m clock,
       countersCover m →
       countersCover
         (finalState (executeWithRetry depth chain operation maxRetries m clock)))
  ∧ (∀ now probe m,
       countersCover m → countersCover (performHealthCheck now probe m))
  ∧ (∀ chain conn m,
       countersCover m → countersCover (resetRPCErrors chain conn m).2)
  ∧ (∀ chain u prio m,
       countersCover m → countersCover (addRPC chain u prio m).2)
  ∧ (∀ chain u m, countersCover m → countersCover (removeRPC chain u m).2)
  ∧ (∀ now m chain conns rpc cs,
       countersCover m →
       getProp chain (connections m) = Some conns → rpc ∈ conns →
       dom cs = dom (requestCounters m) →
       ∃ counter,
         cs !! url rpc = Some counter
         ∧ (canMakeRequest now (url rpc) (maxRequestsPerSecond rpc) cs).1
           = (1000 <=? now - lastReset counter)
             || (count counter <? safeLimit (maxRequestsPerSecond rpc))).
Proof.
  split; [|split; [|split; [|split; [|split; [|split; [|split]]]]]].
  - intros now opens configs Hu chain conns rpc Hp Hin.
    unfold initialize in *. simpl in *.
    destruct (getProp chain configs) as [entries|] eqn:He.
    + destruct (initChains_pool now opens configs 0%nat (constructed configs)
                  chain entries Hu He) as (pool & Hpool & Hall).
      rewrite Hp in Hpool. injection Hpool as <-.
      apply (initChains_counters now opens configs 0%nat (constructed configs)).
      apply list_elem_of_lookup in Hin as [i Hi].
      destruct (Forall2_lookup_l _ _ _ _ _ Hall Hi) as (config & Hcfg & Hb & _).
      apply list_elem_of_lookup_2 in Hcfg.
      apply list_elem_of_In, filter_In in Hcfg as [Hcfg Ho].
      exists chain, entries, config.
      split; [by apply getProp_Some_elem|].
      split; [by apply list_elem_of_In|]. split; [done | congruence].
    + rewrite initChains_other in Hp by done. discriminate.
  - apply countersCover_getBestRPC.
  - intros A depth chain operation maxRetries m clock.
    apply countersCover_retryLoop.
  - intros now probe m. apply countersCover_same_urls.
    + intros chain. apply performHealthCheck_urls.
    + by rewrite performHealthCheck_counters.
  - apply countersCover_resetRPCErrors.
  - intros chain u prio m H. unfold addRPC.
    destruct (readProp chain (rpcConfigs m)); exact H.
  - intros chain u m H. unfold removeRPC.
    destruct (readProp chain (rpcConfigs m)); exact H.
  - intros now m chain conns rpc cs Hc Hp Hin Hd.
    destruct (Hc chain conns rpc Hp Hin) as [c0 Hc0].
    assert (Hs : is_Some (cs !! url rpc)).
    { apply elem_of_dom. rewrite Hd. apply elem_of_dom. by eexists. }
    destruct Hs as [counter Hs]. exists counter. split; [done|].
    unfold canMakeRequest. rewrite Hs.
    by destruct (1000 <=? now - lastReset counter).
Qed.

(** ** Configuration changes at run time *)

Lemma getBestRPC_setConfigs depth now chain configs m :
  getBestRPC depth now chain (setConfigs configs m)
  = ((getBestRPC depth now chain m).1,
     setConfigs configs (getBestRPC depth now chain m).2).
Proof.
  revert m. induction depth as [|d IH]; intros m; [done|].
  destruct (initialized m) eqn:Hi.
  2:{ rewrite !getBestRPC_no_pool by (by left). done. }
  destruct (getProp chain (connections m)) as [conns|] eqn:Hc.
  2:{ rewrite !getBestRPC_no_pool by (by right). done. }
  destruct (sortCandidates (candidates now conns m)) as [|[i sel] rest] eqn:Hs.
  - apply (proj1 (sortCandidates_nil _)) in Hs.
    rewrite (getBestRPC_none d now chain m conns) by done.
    rewrite (getBestRPC_none d now chain (setConfigs configs m) conns) by done.
    simpl. destruct (length conns <=? size (failedRPCs m))%nat; [|done].
    apply (IH (afterBreaker now conns m)).
  - rewrite (getBestRPC_pick d now chain m conns i sel rest) by done.
    by rewrite (getBestRPC_pick d now chain (setConfigs configs m) conns i sel rest).
Qed.

Lemma setProp_setProp {A} key (v w : A) obj :
  setProp key w (setProp key v obj) = setProp key w obj.
Proof.
  induction obj as [|[k x] rest IH]; simpl.
  - by rewrite String.eqb_refl.
  - destruct (String.eqb k key) eqn:E; simpl; rewrite E; [done|]. by rewrite IH.
Qed.

Lemma setProp_id {A} key (v : A) obj :
  getProp key obj = Some v → setProp key v obj = obj.
Proof.
  induction obj as [|[k x] rest IH]; simpl; [done|].
  destruct (String.eqb k key) eqn:E.
  - by intros [= ->].
  - intros H. by rewrite IH.
Qed.

Lemma keys_setProp {A} key (v : A) obj :
  key ∈ fst <$> setProp key v obj.
Proof.
  induction obj as [|[k x] rest IH]; simpl.
  - apply list_elem_of_here.
  - destruct (String.eqb k key) eqn:E; simpl.
    + apply String.eqb_eq in E. subst k. apply list_elem_of_here.
    + by apply list_elem_of_further.
Qed.

Lemma statusLoop_pools_only failed entries status status' :
  Status.chains status = Status.chains status' →
  Status.totalRPCs status = Status.totalRPCs status' →
  Status.healthyRPCs status = Status.healthyRPCs status' →
  Status.chains (statusLoop failed entries status)
  = Status.chains (statusLoop failed entries status')
  ∧ Status.totalRPCs (statusLoop failed entries status)
    = Status.totalRPCs (statusLoop failed entries status')
  ∧ Status.healthyRPCs (statusLoop failed entries status)
    = Status.healthyRPCs (statusLoop failed entries status').
Proof.
  revert status status'. induction entries as [|[chain conns] rest IH];
    intros status status' Hc Ht Hh; [done|].
  cbn [statusLoop]. apply IH; simpl; congruence.
Qed.

Lemma setConfigs_id m : setConfigs (rpcConfigs m) m = m.
Proof. by destruct m. Qed.

Lemma addRPC_state chain u prio m :
  ∃ configs, (addRPC chain u prio m).2 = setConfigs configs m.
Proof.
  unfold addRPC. destruct (readProp chain (rpcConfigs m)); simpl.
  - by eexists.
  - exists (rpcConfigs m). by rewrite setConfigs_id.
  - by eexists.
Qed.

(** X11: [addRPC] adds a configuration entry and nothing that serves
    traffic.  Whatever the chain name, pools, rate counters and the failed
    set stay as they were, so every later selection returns what it would
    have returned without the call, and the monitoring views show the same
    pools.  When the chain has a configuration entry of its own, or its name
    is not one that every object inherits from [Object.prototype], the call
    returns, the new entry is the last of the chain's entries and
    [supportedChains] lists the chain; for an inherited name without an
    entry of its own the call throws the [TypeError] of [push] and changes
    nothing.  A chain that is new to the manager still has no pool:
    selection for it throws the not-initialised error. *)
Theorem addRPC_serves_no_traffic chain u prio m :
  connections (addRPC chain u prio m).2 = connections m
  ∧ requestCounters (addRPC chain u prio m).2 = requestCounters m
  ∧ failedRPCs (addRPC chain u prio m).2 = failedRPCs m
  ∧ (∀ depth now chain',
       getBestRPC depth now chain' (addRPC chain u prio m).2
       = ((getBestRPC depth now chain' m).1,
          setConfigs (rpcConfigs (addRPC chain u prio m).2)
            (getBestRPC depth now chain' m).2))
  ∧ (∀ chain', getChainStats chain' (addRPC chain u prio m).2
               = getChainStats chain' m)
  ∧ Status.chains (getStatus (addRPC chain u prio m).2)
    = Status.chains (getStatus m)
  ∧ Status.totalRPCs (getStatus (addRPC chain u prio m).2)
    = Status.totalRPCs (getStatus m)
  ∧ Status.healthyRPCs (getStatus (addRPC chain u prio m).2)
    = Status.healthyRPCs (getStatus m)
  ∧ (is_Some (getProp chain (rpcConfigs m)) ∨ chain ∉ inheritedNames →
     (addRPC chain u prio m).1 = Normal ()
     ∧ (∃ configs,
          getProp chain (rpcConfigs (addRPC chain u prio m).2) = Some configs
          ∧ last configs = Some {| Config.url := u; Config.priority := prio;
                                   Config.maxRequestsPerSecond := 5 |})
     ∧ chain ∈ Status.supportedChains (getStatus (addRPC chain u prio m).2))
  ∧ (getProp chain (rpcConfigs m) = None → chain ∈ inheritedNames →
     addRPC chain u prio m = (Throw pushTypeError, m))
  ∧ (∀ depth now,
       getProp chain (connections m) = None → chain ∉ inheritedNames →
       (getBestRPC (S depth) now chain (addRPC chain u prio m).2).1
       = Throw (notInitializedError chain)).
Proof.
  destruct (addRPC_state chain u prio m) as [cfg Hst].
  assert (Hstatus :
    Status.chains (getStatus (setConfigs cfg m)) = Status.chains (getStatus m)
    ∧ Status.totalRPCs (getStatus (setConfigs cfg m))
      = Status.totalRPCs (getStatus m)
    ∧ Status.healthyRPCs (getStatus (setConfigs cfg m))
      = Status.healthyRPCs (getStatus m)
    ∧ Status.supportedChains (getStatus (setConfigs cfg m)) = fst <$> cfg).
  { set (status1 := {| Status.initialized := initialized m; Status.chains := [];
                       Status.failedRPCs := failedRPCs m; Status.totalRPCs := 0;
                       Status.healthyRPCs := 0;
                       Status.supportedChains := fst <$> cfg |}).
    set (status0 := {| Status.initialized := initialized m; Status.chains := [];
                       Status.failedRPCs := failedRPCs m; Status.totalRPCs := 0;
                       Status.healthyRPCs := 0;
                       Status.supportedChains := fst <$> rpcConfigs m |}).
    destruct (statusLoop_pools_only (failedRPCs m) (connections m) status1 status0
                eq_refl eq_refl eq_refl) as (Hc & Ht & Hh).
    destruct (statusLoop_totals (failedRPCs m) (connections m) status1)
      as (_ & _ & _ & _ & Hs).
    change (getStatus (setConfigs cfg m))
      with (statusLoop (failedRPCs m) (connections m) status1).
    split; [exact Hc|]. split; [exact Ht|]. split; [exact Hh|]. exact Hs. }
  destruct Hstatus as (Hc & Ht & Hh & Hs).
  split; [by rewrite Hst|]. split; [by rewrite Hst|]. split; [by rewrite Hst|].
  split.
  { intros depth now chain'. rewrite Hst. apply getBestRPC_setConfigs. }
  split; [intros chain'; by rewrite Hst|].
  split; [by rewrite Hst|]. split; [by rewrite Hst|]. split; [by rewrite Hst|].
  split; [|split].
  - intros Hown.
    assert (Hentry : (addRPC chain u prio m).1 = Normal ()
              ∧ ∃ configs,
                  getProp chain (rpcConfigs (addRPC chain u prio m).2)
                  = Some configs
                  ∧ last configs
                    = Some {| Config.url := u; Config.priority := prio;
                              Config.maxRequestsPerSecond := 5 |}).
    { unfold addRPC, readProp.
      destruct (getProp chain (rpcConfigs m)) as [configs|] eqn:E; simpl.
      - split; [done|]. eexists. split; [apply getProp_setProp_eq|].
        apply last_snoc.
      - destruct Hown as [[x Hx] | Hn]; [discriminate Hx|].
        rewrite (bool_decide_eq_false_2 _ Hn). simpl.
        split; [done|]. eexists. split; [apply getProp_setProp_eq | done]. }
    destruct Hentry as (Hn & configs & Hcfg & Hlast).
    split; [exact Hn|]. split; [by exists configs|].
    rewrite Hst in Hcfg |- *. rewrite Hs. simpl in Hcfg.
    apply list_elem_of_fmap. exists (chain, configs).
    split; [done | by apply getProp_Some_elem].
  - intros Hnone Hin. unfold addRPC, readProp.
    by rewrite Hnone, (bool_decide_eq_true_2 _ Hin).
  - intros depth now Hn Hni. rewrite Hst, getBestRPC_setConfigs. cbn [fst].
    rewrite getBestRPC_guard; [done|]. right. by apply readProp_Missing.
Qed.

Lemma addRPC_serves_no_traffic_witness :
  (addRPC "dogecoin" "https://rpc.example/doge" 10 exStarted).1 = Normal ()
  ∧ "dogecoin"
    ∈ Status.supportedChains
        (getStatus (addRPC "dogecoin" "https://rpc.example/doge" 10 exStarted).2)
  ∧ (getBestRPC 1 1500 "dogecoin"
       (addRPC "dogecoin" "https://rpc.example/doge" 10 exStarted).2).1
    = Throw (notInitializedError "dogecoin")
  ∧ addRPC "constructor" "https://rpc.example/doge" 10 exStarted
    = (Throw pushTypeError, exStarted).
Proof.
  destruct (addRPC_serves_no_traffic "dogecoin" "https://rpc.example/doge" 10
              exStarted) as (_ & _ & _ & _ & _ & _ & _ & _ & Hret & _ & Hsel).
  destruct (Hret (or_intror dogecoin_not_inherited)) as (Hn & _ & Hsup).
  split; [exact Hn|]. split; [exact Hsup|].
  split; [exact (Hsel 0%nat 1500 eq_refl dogecoin_not_inherited)|].
  destruct (addRPC_serves_no_traffic "constructor" "https://rpc.example/doge" 10
              exStarted) as (_ & _ & _ & _ & _ & _ & _ & _ & _ & Hthrow & _).
  apply Hthrow; [reflexivity | apply list_elem_of_here].
Defined.

Lemma filter_url_snoc u prio (configs : list Config.t) :
  Forall (λ c, Config.url c ≠ u) configs →
  filter (λ rpc, Config.url rpc ≠ u)
    (configs ++ [ {| Config.url := u; Config.priority := prio;
                     Config.maxRequestsPerSecond := 5 |} ])%list
  = configs.
Proof.
  intros Hall. rewrite filter_app, filter_cons_False, filter_nil, app_nil_r.
  - induction Hall as [|c l Hc _ IH]; [done|].
    by rewrite filter_cons_True, IH.
  - simpl. by intros H.
Qed.

(** X12: [removeRPC] takes back what [addRPC] added.  For a chain that is
    configured and a url that is not yet among its entries, adding the
    url and removing it again restores the configuration; all that differs
    from the manager before the two calls is that the url is no longer in
    the failed set.  In general no entry with the removed url is left,
    however often it was added, and removing it a second time changes
    nothing. *)
Theorem removeRPC_undoes_addRPC chain u m :
  (∀ prio configs,
     getProp chain (rpcConfigs m) = Some configs →
     Forall (λ c, Config.url c ≠ u) configs →
     (addRPC chain u prio m).1 = Normal ()
     ∧ removeRPC chain u (addRPC chain u prio m).2
       = (Normal (), setFailed (failedRPCs m ∖ {[u]}) m))
  ∧ (∀ configs config,
       getProp chain (rpcConfigs (removeRPC chain u m).2) = Some configs →
       config ∈ configs → Config.url config ≠ u)
  ∧ (removeRPC chain u (removeRPC chain u m).2).2 = (removeRPC chain u m).2.
Proof.
  split; [|split].
  - intros prio configs Hc Hall. unfold removeRPC, addRPC.
    rewrite (readProp_Own _ _ _ Hc). split; [done|].
    cbn [snd rpcConfigs setConfigs].
    rewrite (readProp_Own _ _ _ (getProp_setProp_eq _ _ _)). simpl.
    rewrite filter_url_snoc by done.
    rewrite setProp_setProp, (setProp_id chain configs) by done.
    by destruct m.
  - intros configs config. unfold removeRPC, readProp.
    destruct (getProp chain (rpcConfigs m)) as [cfgs|] eqn:Hc.
    + simpl. rewrite getProp_setProp_eq. intros [= <-] Hin.
      by apply list_elem_of_filter in Hin as [? _].
    + destruct (bool_decide (chain ∈ inheritedNames)); simpl; by rewrite Hc.
  - unfold removeRPC at 2 3. unfold readProp.
    destruct (getProp chain (rpcConfigs m)) as [cfgs|] eqn:Hc.
    + assert (Hs : (failedRPCs m ∖ {[u]}) ∖ {[u]} = failedRPCs m ∖ {[u]}).
      { apply set_eq. intros x. rewrite !elem_of_difference. tauto. }
      assert (Hf : filter (λ rpc, Config.url rpc ≠ u)
                     (filter (λ rpc, Config.url rpc ≠ u) cfgs)
                   = filter (λ rpc, Config.url rpc ≠ u) cfgs)
        by by apply list_filter_filter_l.
      unfold removeRPC. cbn [snd rpcConfigs setConfigs setFailed].
      rewrite (readProp_Own _ _ _ (getProp_setProp_eq _ _ _)). simpl.
      by rewrite setProp_setProp, Hs, Hf.
    + unfold removeRPC, readProp.
      destruct (bool_decide (chain ∈ inheritedNames)); simpl;
        rewrite ?Hc; done.
Qed.

(** ** Health-check cycles *)

Lemma activeRPC_spec conns i :
  activeRPC conns = Some i →
  (∃ rpc, conns !! i = Some rpc ∧ healthy rpc = true)
  ∨ (i = 0%nat ∧ Forall (λ rpc, healthy rpc = false) conns).
Proof.
  unfold activeRPC.
  destruct (list_find (λ rpc, healthy rpc = true) conns) as [[k rpc]|] eqn:E.
  - intros [= <-]. apply list_find_Some in E as (Hl & Hh & _).
    left. by exists rpc.
  - destruct conns as [|c rest]; [done|]. intros [= <-]. right. split; [done|].
    apply list_find_None in E. eapply Forall_impl; [exact E|].
    intros x Hx. simpl in Hx. by destruct (healthy x).
Qed.

Lemma checkChain_one probe conns failed :
  length (checkChain probe conns failed).1 = length conns
  ∧ identity <$> (checkChain probe conns failed).1 = identity <$> conns
  ∧ ((checkChain probe conns failed).1 = conns
     ∨ ∃ i, activeRPC conns = Some i
            ∧ ∀ j, j ≠ i → (checkChain probe conns failed).1 !! j = conns !! j).
Proof.
  unfold checkChain. destruct (activeRPC conns) as [i|] eqn:Ea;
    [|by split; [|split; [|left]]].
  destruct (conns !! i) as [rpc|] eqn:Hl; [|by split; [|split; [|left]]].
  assert (Hid : identity (checkEndpoint (probe rpc) rpc failed).1 = identity rpc).
  { unfold checkEndpoint. by destruct (probe rpc). }
  destruct (checkEndpoint (probe rpc) rpc failed) as [rpc' failed']. simpl in *.
  split; [apply length_insert|]. split.
  - rewrite list_fmap_insert, Hid. apply list_insert_id.
    by rewrite list_lookup_fmap, Hl.
  - right. exists i. split; [done|]. intros j Hne.
    by apply list_lookup_insert_ne.
Qed.

Lemma checkChains_getProp probe entries failed chain :
  ∃ failed',
    getProp chain (checkChains probe entries failed).1
    = (λ conns, (checkChain (probe chain) conns failed').1)
        <$> getProp chain entries.
Proof.
  revert failed. induction entries as [|[c conns] rest IH]; intros failed.
  { by exists failed. }
  cbn [checkChains].
  destruct (checkChain (probe c) conns failed) as [conns' failed1] eqn:Ec.
  destruct (IH failed1) as [failed' IH'].
  destruct (checkChains probe rest failed1) as [rest' failed2].
  simpl in *. destruct (String.eqb c chain) eqn:E.
  - apply String.eqb_eq in E. subst c. exists failed. simpl. by rewrite Ec.
  - by exists failed'.
Qed.

Lemma performHealthCheck_getProp now probe m chain :
  ∃ failed',
    getProp chain (connections (performHealthCheck now probe m))
    = (λ conns, (checkChain (probe chain) conns failed').1)
        <$> getProp chain (connections m)
    ∨ getProp chain (connections (performHealthCheck now probe m))
      = getProp chain (connections m).
Proof.
  unfold performHealthCheck.
  destruct (2 * (now - lastHealthCheck m) <? healthCheckInterval m).
  { exists ∅. by right. }
  destruct (checkChains_getProp probe (connections m) (failedRPCs m) chain)
    as [failed' H].
  exists failed'. left. simpl.
  by destruct (checkChains probe (connections m) (failedRPCs m)).
Qed.

Lemma performHealthCheck_pool now probe m chain conns :
  getProp chain (connections m) = Some conns →
  ∃ conns',
    getProp chain (connections (performHealthCheck now probe m)) = Some conns'
    ∧ length conns' = length conns
    ∧ identity <$> conns' = identity <$> conns
    ∧ (conns' = conns
       ∨ ∃ i, activeRPC conns = Some i
              ∧ ∀ j, j ≠ i → conns' !! j = conns !! j).
Proof.
  intros Hc.
  destruct (performHealthCheck_getProp now probe m chain) as [failed' [H | H]];
    rewrite H, Hc; simpl.
  - eexists. split; [done|]. apply checkChain_one.
  - exists conns. split; [done|]. split; [done|]. split; [done|]. by left.
Qed.

(** X13: what one call of [performHealthCheck] can do.  It never touches
    the rate counters, the configuration or [initialized].  A call less than
    half an interval after the last cycle changes nothing at all, and a call
    that ran a cycle makes every call in the following half interval a
    no-op.  A cycle keeps every pool at its length and every endpoint's url,
    priority, rate limit, connection, last use and request count, and it
    changes at most one endpoint per pool: the first healthy one or, when
    none is healthy, the first. *)
Theorem performHealthCheck_cycle now probe m :
  requestCounters (performHealthCheck now probe m) = requestCounters m
  ∧ rpcConfigs (performHealthCheck now probe m) = rpcConfigs m
  ∧ initialized (performHealthCheck now probe m) = initialized m
  ∧ healthCheckInterval (performHealthCheck now probe m) = healthCheckInterval m
  ∧ (2 * (now - lastHealthCheck m) < healthCheckInterval m →
     performHealthCheck now probe m = m)
  ∧ (healthCheckInterval m <= 2 * (now - lastHealthCheck m) →
     lastHealthCheck (performHealthCheck now probe m) = now
     ∧ ∀ now' probe',
         2 * (now' - now) < healthCheckInterval m →
         performHealthCheck now' probe' (performHealthCheck now probe m)
         = performHealthCheck now probe m)
  ∧ (∀ chain,
       getProp chain (connections m) = None →
       getProp chain (connections (performHealthCheck now probe m)) = None)
  ∧ (∀ chain conns,
       getProp chain (connections m) = Some conns →
       ∃ conns',
         getProp chain (connections (performHealthCheck now probe m)) = Some conns'
         ∧ length conns' = length conns
         ∧ identity <$> conns' = identity <$> conns
         ∧ (conns' = conns
            ∨ ∃ i, activeRPC conns = Some i
                   ∧ ∀ j, j ≠ i → conns' !! j = conns !! j)).
Proof.
  assert (Hfix : requestCounters (performHealthCheck now probe m) = requestCounters m
                 ∧ rpcConfigs (performHealthCheck now probe m) = rpcConfigs m
                 ∧ initialized (performHealthCheck now probe m) = initialized m
                 ∧ healthCheckInterval (performHealthCheck now probe m)
                   = healthCheckInterval m).
  { unfold performHealthCheck.
    destruct (2 * (now - lastHealthCheck m) <? healthCheckInterval m); [done|].
    simpl. by destruct (checkChains probe (connections m) (failedRPCs m)). }
  destruct Hfix as (H1 & H2 & H3 & H4).
  split; [done|]. split; [done|]. split; [done|]. split; [done|].
  split; [|split; [|split]].
  - intros Hlt. unfold performHealthCheck.
    apply Z.ltb_lt in Hlt. by rewrite Hlt.
  - intros Hge.
    assert (Hl : lastHealthCheck (performHealthCheck now probe m) = now).
    { unfold performHealthCheck.
      destruct (2 * (now - lastHealthCheck m) <? healthCheckInterval m) eqn:E;
        [apply Z.ltb_lt in E; lia|].
      simpl. by destruct (checkChains probe (connections m) (failedRPCs m)). }
    split; [done|]. intros now' probe' Hlt.
    unfold performHealthCheck at 1. rewrite Hl, H4.
    apply Z.ltb_lt in Hlt. by rewrite Hlt.
  - intros chain Hn.
    destruct (performHealthCheck_getProp now probe m chain) as [failed' [H | H]];
      rewrite H, Hn; done.
  - intros chain conns. apply performHealthCheck_pool.
Qed.

Lemma resetRPCErrors_handles chain conn m chain' :
  handlesOf <$> getProp chain' (connections (resetRPCErrors chain conn m).2)
  = handlesOf <$> getProp chain' (connections m).
Proof. by apply (resetRPCErrors_static connection). Qed.

Lemma distinctHandles_same_handles chain m m' :
  handlesOf <$> getProp chain (connections m')
  = handlesOf <$> getProp chain (connections m) →
  distinctHandles chain m → distinctHandles chain m'.
Proof.
  unfold distinctHandles. intros E H conns' Hc. rewrite Hc in E. simpl in E.
  destruct (getProp chain (connections m)) as [conns|]; [|done].
  injection E as ->. by apply H.
Qed.

Lemma benched_getBestRPC chain j rpc depth now chain' m :
  benched chain j rpc m →
  benched chain j rpc (getBestRPC depth now chain' m).2
  ∧ match (getBestRPC depth now chain' m).1 with
    | Normal conn =>
        ∃ conns i sel,
          getProp chain' (connections (getBestRPC depth now chain' m).2)
          = Some conns
          ∧ conns !! i = Some sel ∧ healthy sel = true ∧ connection sel = conn
    | Throw _ => True
    end.
Proof.
  intros (Hj & Hh & Hd & conns & Hc & Hl).
  pose proof (getBestRPC_connections depth now chain' m) as Hconn.
  pose proof (getBestRPC_distinctHandles depth now chain' m chain Hd) as Hd'.
  destruct ((getBestRPC depth now chain' m).1) as [conn|e].
  - destruct Hconn as (conns' & i & sel & Hc' & Hi & Hsel & Hconn & E).
    split.
    + split; [done|]. split; [done|]. split; [done|]. rewrite E.
      destruct (decide (chain' = chain)) as [->|Hne].
      * rewrite getProp_setProp_eq. eexists. split; [done|].
        rewrite Hc in Hc'. injection Hc' as <-.
        rewrite list_lookup_alter_ne; [done|]. intros ->. congruence.
      * rewrite getProp_setProp_ne by done. by exists conns.
    + exists (alter (markUsed now) i conns'), i, (markUsed now sel). rewrite E.
      split; [apply getProp_setProp_eq|].
      split; [by rewrite list_lookup_alter_eq, Hi | done].
  - split; [|done]. split; [done|]. split; [done|].
    split; [done|]. exists conns. by rewrite Hconn.
Qed.

Lemma benched_resetRPCErrors chain j rpc chain' conn m :
  benched chain j rpc m →
  (∃ conns i sel,
     getProp chain' (connections m) = Some conns
     ∧ conns !! i = Some sel ∧ healthy sel = true ∧ connection sel = conn) →
  benched chain j rpc (resetRPCErrors chain' conn m).2.
Proof.
  intros (Hj & Hh & Hd & conns & Hc & Hl) (conns' & i & sel & Hc' & Hi & Hsel & Hconn).
  split; [done|]. split; [done|]. split.
  { apply (distinctHandles_same_handles chain m); [|done].
    apply resetRPCErrors_handles. }
  unfold resetRPCErrors. rewrite (readProp_Own _ _ _ Hc').
  destruct (list_find (λ c, connection c = conn) conns') as [[k r]|] eqn:Ef;
    [|by exists conns].
  simpl. destruct (decide (chain' = chain)) as [->|Hne].
  - rewrite getProp_setProp_eq. eexists. split; [done|].
    rewrite Hc in Hc'. injection Hc' as <-.
    apply list_find_Some in Ef as (Hk & Hr & _).
    assert (k = i).
    { apply (NoDup_fmap_lookup_inj connection conns k i r sel); try done.
      - by apply Hd.
      - congruence. }
    subst k. rewrite list_lookup_alter_ne; [done|]. intros ->. congruence.
  - rewrite getProp_setProp_ne by done. by exists conns.
Qed.

Lemma benched_tryAttempt {A} chain j rpc depth chain' (operation : Operation A)
    attempt m clock :
  benched chain j rpc m →
  benched chain j rpc (tryAttempt depth chain' operation attempt m clock).1.2.
Proof.
  intros Hb. rewrite tryAttempt_unfold.
  destruct (benched_getBestRPC chain j rpc depth clock chain' m Hb) as [Hb1 Hsel].
  destruct (getBestRPC depth clock chain' m) as [[conn|e] m1]; [|done].
  simpl in Hb1, Hsel.
  destruct (operation attempt conn clock) as [elapsed [v|e|isNull]];
    [|done|done].
  simpl. by apply benched_resetRPCErrors.
Qed.

Lemma benched_retryLoop {A} chain j rpc depth chain' (operation : Operation A)
    maxRetries left attempt lastError m clock :
  benched chain j rpc m →
  benched chain j rpc
    (finalState (retryLoop depth chain' operation maxRetries left attempt
                   lastError m clock)).
Proof.
  revert attempt lastError m clock.
  induction left as [|left IH]; intros attempt lastError m clock Hb; [done|].
  cbn [retryLoop].
  pose proof (benched_tryAttempt chain j rpc depth chain' operation attempt m
                clock Hb) as H1.
  destruct (tryAttempt depth chain' operation attempt m clock)
    as [[[[v|e|isNull] ran] m1] t1]; [done| |done].
  simpl in H1. destruct (onError e attempt maxRetries); [done| |]; by apply IH.
Qed.

Lemma benched_performHealthCheck chain j rpc now probe m :
  benched chain j rpc m → benched chain j rpc (performHealthCheck now probe m).
Proof.
  intros (Hj & Hh & Hd & conns & Hc & Hl).
  destruct (performHealthCheck_pool now probe m chain conns Hc)
    as (conns' & Hc' & _ & Hid & Hone).
  split; [done|]. split; [done|]. split.
  - intros conns'' Hc''. rewrite Hc' in Hc''. injection Hc'' as <-.
    unfold handlesOf.
    assert (E : connection <$> conns' = connection <$> conns).
    { change connection with ((λ x, x.1.1.2) ∘ identity).
      by rewrite !list_fmap_compose, Hid. }
    rewrite E. by apply Hd.
  - exists conns'. split; [done|].
    destruct Hone as [-> | (i & Ha & Hrest)]; [done|].
    rewrite Hrest; [done|]. intros ->.
    apply activeRPC_spec in Ha as [(r & Hr & Hrh) | [-> _]]; [congruence | lia].
Qed.

(** X14: an unhealthy endpoint that is not the first of its pool is out of
    service for good.  Selection skips it, so no operation ever runs on its
    connection and no success can reset it; a health-check cycle probes the
    first healthy endpoint, or the first endpoint when none is healthy, and
    so never probes it either; the circuit breaker empties the failed set
    but leaves the [healthy] flags alone.  Whatever call the manager runs,
    one at a time, the endpoint stays exactly as it is, and its connection
    is never returned. *)
Theorem unhealthy_backup_never_recovers chain j rpc :
  (∀ depth now chain' m,
     benched chain j rpc m →
     benched chain j rpc (getBestRPC depth now chain' m).2
     ∧ (getBestRPC depth now chain m).1 ≠ Normal (connection rpc))
  ∧ (∀ A depth chain' (operation : Operation A) maxRetries m clock,
       benched chain j rpc m →
       benched chain j rpc
         (finalState (executeWithRetry depth chain' operation maxRetries m clock))
       ∧ Forall (λ a, chain' = chain → ranOn a ≠ Some (connection rpc))
           (attempts (executeWithRetry depth chain' operation maxRetries m clock)))
  ∧ (∀ now probe m,
       benched chain j rpc m →
       benched chain j rpc (performHealthCheck now probe m))
  ∧ (∀ chain' u prio m,
       benched chain j rpc m → benched chain j rpc (addRPC chain' u prio m).2)
  ∧ (∀ chain' u m,
       benched chain j rpc m → benched chain j rpc (removeRPC chain' u m).2).
Proof.
  assert (Hnever : ∀ depth now m,
            benched chain j rpc m →
            (getBestRPC depth now chain m).1 ≠ Normal (connection rpc)).
  { intros depth now m (Hj & Hh & Hd & conns & Hc & Hl) Hr.
    pose proof (getBestRPC_connections depth now chain m) as Hconn.
    rewrite Hr in Hconn.
    destruct Hconn as (conns' & i & sel & Hc' & Hi & Hsel & Hconn & _).
    rewrite Hc in Hc'. injection Hc' as <-.
    assert (i = j).
    { apply (NoDup_fmap_lookup_inj connection conns i j sel rpc); try done.
      by apply Hd. }
    subst i. congruence. }
  split; [|split; [|split; [|split]]].
  - intros depth now chain' m Hb. split; [|by apply Hnever].
    by apply benched_getBestRPC.
  - intros A depth chain' operation maxRetries m clock Hb.
    split; [by apply benched_retryLoop|].
    unfold executeWithRetry.
    generalize (Z.to_nat maxRetries) as left. generalize 1 as attempt.
    generalize (@None JsError) as lastError. revert m clock Hb.
    intros m clock Hb lastError attempt left.
    revert attempt lastError m clock Hb.
    induction left as [|left IH]; intros attempt lastError m clock Hb;
      [constructor|].
    cbn [retryLoop].
    pose proof (benched_tryAttempt chain j rpc depth chain' operation attempt m
                  clock Hb) as Hb1.
    assert (Hran : chain' = chain →
              (tryAttempt depth chain' operation attempt m clock).1.1.2
              ≠ Some (connection rpc)).
    { intros ->. rewrite tryAttempt_unfold.
      pose proof (Hnever depth clock m Hb) as Hn.
      destruct (getBestRPC depth clock chain m) as [[conn|e] m1]; [|done].
      simpl in Hn.
      destruct (operation attempt conn clock) as [elapsed [v|e|isNull]]; simpl;
        congruence. }
    destruct (tryAttempt depth chain' operation attempt m clock)
      as [[[[v|e|isNull] ran] m1] t1]; simpl in Hb1, Hran.
    + constructor; [done | constructor].
    + destruct (onError e attempt maxRetries).
      * constructor; [done | constructor].
      * simpl. constructor; [done|]. by apply IH.
      * simpl. constructor; [done|]. by apply IH.
    + constructor; [done | constructor].
  - intros now probe m. apply benched_performHealthCheck.
  - intros chain' u prio m Hb. unfold addRPC.
    destruct (readProp chain' (rpcConfigs m)); exact Hb.
  - intros chain' u m Hb. unfold removeRPC.
    destruct (readProp chain' (rpcConfigs m)); exact Hb.
Qed.

Lemma unhealthy_backup_never_recovers_witness :
  benched "ethereum" 1 (probeFailures 5 (exEndpoint urlB 2 1%nat) ∅).1 exBackupDown
  ∧ benched "ethereum" 1 (probeFailures 5 (exEndpoint urlB 2 1%nat) ∅).1
      (performHealthCheck 120000 (λ _ _, true) exBackupDown).
Proof.
  assert (Hb : benched "ethereum" 1
                 (probeFailures 5 (exEndpoint urlB 2 1%nat) ∅).1 exBackupDown).
  { split; [lia|]. split; [by vm_compute|]. split.
    - intros conns Hc. vm_compute in Hc. injection Hc as <-.
      vm_compute. repeat constructor; intros H;
        repeat (apply elem_of_cons in H as [H | H]; [discriminate|]);
        by apply elem_of_nil in H.
    - eexists. split; [reflexivity|]. reflexivity. }
  split; [exact Hb|].
  exact (proj1 (proj2 (proj2 (unhealthy_backup_never_recovers "ethereum" 1
                                (probeFailures 5 (exEndpoint urlB 2 1%nat) ∅).1)))
           120000 (λ _ _, true) exBackupDown Hb).
Defined.

(** ** The shape of a run of [executeWithRetry] *)

Lemma onError_cases e attempt maxRetries :
  match onError e attempt maxRetries with
  | SleepThenNext ms =>
      attempt < maxRetries
      ∧ ((isRateLimitError e = true ∧ ms = handleRateLimit e)
         ∨ (isNetworkError e = true ∧ ms = Num (1000 * attempt))
         ∨ (isValidationError e = false ∧ ms = Num (500 * attempt)))
  | Next => maxRetries <= attempt ∧ isValidationError e = false
  | Rethrow => isValidationError e = true
  end.
Proof.
  unfold onError.
  destruct (attempt <? maxRetries) eqn:E;
    [apply Z.ltb_lt in E | apply Z.ltb_ge in E];
    destruct (isRateLimitError e), (isNetworkError e), (isValidationError e);
    simpl; try done; (split; [lia|]); tauto.
Qed.

Lemma tryAttempt_ran {A} depth chain (operation : Operation A) attempt m clock :
  match (tryAttempt depth chain operation attempt m clock).1.1 with
  | (Fulfilled _, ran) => is_Some ran
  | (Rejected e, None) =>
      (getBestRPC depth clock chain m).1 = Throw e
      ∧ (tryAttempt depth chain operation attempt m clock).1.2
        = (getBestRPC depth clock chain m).2
      ∧ (tryAttempt depth chain operation attempt m clock).2 = clock
  | (Rejected e, Some conn) =>
      (getBestRPC depth clock chain m).1 = Normal conn
      ∧ (operation attempt conn clock).2 = Rejected e
  | (RejectedNullish isNull, ran) =>
      ∃ conn, ran = Some conn
              ∧ (getBestRPC depth clock chain m).1 = Normal conn
              ∧ (operation attempt conn clock).2 = RejectedNullish isNull
  end.
Proof.
  rewrite tryAttempt_unfold.
  destruct (getBestRPC depth clock chain m) as [[conn|e] m1]; [|done].
  destruct (operation attempt conn clock) as [elapsed [v|e|isNull]] eqn:Eop;
    simpl.
  - by eexists.
  - by rewrite Eop.
  - exists conn. by rewrite Eop.
Qed.

Lemma retryLoop_shape {A} depth chain (operation : Operation A) maxRetries
    left attempt lastError m clock :
  (0 < left)%nat →
  attempt + Z.of_nat left = maxRetries + 1 →
  let r := retryLoop depth chain operation maxRetries left attempt lastError
             m clock in
  ∃ earlier final,
    attempts r = (earlier ++ [final])%list
    ∧ attemptNo <$> attempts r = seqZ attempt (Z.of_nat (length (attempts r)))
    ∧ (length (attempts r) ≤ left)%nat
    ∧ Forall (retried maxRetries) earlier
    ∧ slept final = None
    ∧ ((∃ v, outcome r = Returned v ∧ thrown final = None
             ∧ is_Some (ranOn final))
       ∨ (∃ e, outcome r = Raised (Some e) ∧ thrown final = Some e
               ∧ (isValidationError e = true ∨ attemptNo final = maxRetries))
       ∨ (∃ isNull conn t,
            outcome r = Raised (Some (nullishCodeError isNull))
            ∧ thrown final = Some (nullishCodeError isNull)
            ∧ ranOn final = Some conn
            ∧ (operation (attemptNo final) conn t).2
              = RejectedNullish isNull)).
Proof.
  revert attempt lastError m clock.
  induction left as [|n IH]; intros attempt lastError m clock Hpos Hatt; [lia|].
  cbn [retryLoop].
  pose proof (tryAttempt_ran depth chain operation attempt m clock) as Hran.
  destruct (tryAttempt depth chain operation attempt m clock)
    as [[[[v|e|isNull] ran] m1] t1]; simpl in Hran.
  - eexists [], _. simpl. split; [done|]. split; [done|]. split; [lia|].
    split; [constructor|]. split; [done|]. left. by exists v.
  - pose proof (onError_cases e attempt maxRetries) as Hcase.
    destruct (onError e attempt maxRetries) as [|ms|] eqn:Eo.
    + eexists [], _. simpl. split; [done|]. split; [done|]. split; [lia|].
      split; [constructor|]. split; [done|]. right. left. exists e.
      split; [done|]. split; [done|]. by left.
    + destruct Hcase as [Hlt _].
      destruct (IH (attempt + 1) (Some e) m1 (t1 + timerDelay ms))
        as (earlier & final & Ha & Hno & Hlen & Hall & Hsl & Hout); [lia | lia |].
      set (rest := retryLoop depth chain operation maxRetries n (attempt + 1)
                     (Some e) m1 (t1 + timerDelay ms)) in *.
      set (a0 := {| attemptNo := attempt; ranOn := ran; thrown := Some e;
                    slept := Some ms |}).
      exists (a0 :: earlier), final. cbv zeta.
      change (attempts (logged rest a0)) with (a0 :: attempts rest).
      change (outcome (logged rest a0)) with (outcome rest).
      split; [by rewrite Ha|]. split.
      { rewrite fmap_cons, Hno. cbn [length].
        rewrite (seqZ_cons attempt) by lia. f_equal. f_equal; lia. }
      split; [cbn [length]; lia|]. split; [|done].
      constructor; [|done]. by exists e, ms.
    + destruct Hcase as [Hge Hv]. assert (n = 0%nat) by lia. subst n.
      eexists [], _. simpl. split; [done|]. split; [done|]. split; [lia|].
      split; [constructor|]. split; [done|]. right. left. exists e.
      split; [done|]. split; [done|]. right. simpl. lia.
  - destruct Hran as (conn & -> & _ & Hop).
    eexists [], _. simpl. split; [done|]. split; [done|]. split; [lia|].
    split; [constructor|]. split; [done|]. right. right.
    by exists isNull, conn, clock.
Qed.

(** X15: the shape of every run of [executeWithRetry], whatever the
    operation does: return, throw an error (or any value seen through
    [code], [message] and [headers] as [JsError] has them), or throw
    [undefined] or [null].  With [maxRetries <= 0] nothing is
    attempted and the call throws [undefined].  Otherwise there are between
    1 and [maxRetries] attempts, numbered 1, 2, ... in order; every attempt
    but the last threw and was followed by a sleep chosen by the [catch]
    block (so it was not the attempt number [maxRetries]); the last attempt
    is followed by no sleep, and it either returned the result, on a
    connection that selection had handed to the operation, or threw the
    error that the call raises, that error being a validation error or the
    attempt being number [maxRetries], or the operation threw [undefined]
    or [null] in it and the call raises the [TypeError] of the [catch]
    block reading [error.code]. *)
Theorem executeWithRetry_run_shape {A} depth chain (operation : Operation A)
    maxRetries m clock :
  (maxRetries <= 0 →
   executeWithRetry depth chain operation maxRetries m clock
   = {| outcome := Raised None; attempts := [];
        finalState := m; finalClock := clock |})
  ∧ (1 <= maxRetries →
     ∃ earlier final,
       attempts (executeWithRetry depth chain operation maxRetries m clock)
       = (earlier ++ [final])%list
       ∧ attemptNo <$> (earlier ++ [final])%list
         = seqZ 1 (Z.of_nat (length earlier) + 1)
       ∧ Z.of_nat (length earlier) + 1 <= maxRetries
       ∧ Forall (λ a, retried maxRetries a ∧ attemptNo a < maxRetries) earlier
       ∧ slept final = None
       ∧ ((∃ v, outcome (executeWithRetry depth chain operation maxRetries m clock)
                = Returned v
                ∧ thrown final = None ∧ is_Some (ranOn final))
          ∨ (∃ e, outcome (executeWithRetry depth chain operation maxRetries m clock)
                  = Raised (Some e)
                  ∧ thrown final = Some e
                  ∧ (isValidationError e = true
                     ∨ attemptNo final = maxRetries))
          ∨ (∃ isNull conn t,
               outcome (executeWithRetry depth chain operation maxRetries m clock)
               = Raised (Some (nullishCodeError isNull))
               ∧ thrown final = Some (nullishCodeError isNull)
               ∧ ranOn final = Some conn
               ∧ (operation (attemptNo final) conn t).2
                 = RejectedNullish isNull))).
Proof.
  unfold executeWithRetry. split.
  - intros Hle. by replace (Z.to_nat maxRetries) with 0%nat by lia.
  - intros Hge.
    destruct (retryLoop_shape depth chain operation maxRetries
                (Z.to_nat maxRetries) 1 None m clock)
      as (earlier & final & Ha & Hno & Hlen & Hall & Hsl & Hout); [lia | lia |].
    exists earlier, final. rewrite Ha in Hno, Hlen.
    rewrite length_app in Hno, Hlen. simpl in Hno, Hlen.
    split; [done|]. split.
    { rewrite Hno. f_equal. lia. }
    split; [lia|]. split; [|done].
    eapply Forall_impl; [exact Hall|]. intros a (e & ms & Ht & Hs & Ho).
    split; [by exists e, ms|].
    pose proof (onError_cases e (attemptNo a) maxRetries) as Hc.
    rewrite Ho in Hc. by destruct Hc.
Qed.

Lemma timerDelay_in_range z :
  1 <= z <= 2147483647 → timerDelay (Num z) = z.
Proof.
  intros [H1 H2]. simpl.
  destruct (1 <=? z) eqn:E1; [|apply Z.leb_gt in E1; lia].
  destruct (z <=? 2147483647) eqn:E2; [done|]. apply Z.leb_gt in E2. lia.
Qed.

Lemma totalSleep_cons a log :
  totalSleep (a :: log)
  = match slept a with
    | Some ms => jsAdd ms (totalSleep log)
    | None => totalSleep log
    end.
Proof. done. Qed.

Section NoPool.
Context {A : Type}.
Variable depth : nat.
Variable chain : string.
Variable operation : Operation A.
Variable maxRetries : Z.
Hypothesis depth_pos : (0 < depth)%nat.
Hypothesis timer_range : 500 * maxRetries <= 2147483647.
Hypothesis plain_name :
  isRateLimitError (notInitializedError chain) = false
  ∧ isNetworkError (notInitializedError chain) = false
  ∧ isValidationError (notInitializedError chain) = false.

Lemma retryLoop_no_pool left attempt lastError m clock :
  initialized m = false ∨ readProp chain (connections m) = Missing →
  (0 < left)%nat →
  1 <= attempt →
  attempt + Z.of_nat left = maxRetries + 1 →
  let r := retryLoop depth chain operation maxRetries left attempt lastError
             m clock in
  outcome r = Raised (Some (notInitializedError chain))
  ∧ length (attempts r) = left
  ∧ Forall (λ a, ranOn a = None
                 ∧ thrown a = Some (notInitializedError chain)
                 ∧ slept a = if attemptNo a <? maxRetries
                             then Some (Num (500 * attemptNo a)) else None)
      (attempts r)
  ∧ totalSleep (attempts r)
    = Num (250 * (maxRetries * (maxRetries - 1) - attempt * (attempt - 1)))
  ∧ finalState r = m
  ∧ finalClock r
    = clock + 250 * (maxRetries * (maxRetries - 1) - attempt * (attempt - 1)).
Proof.
  intros Hno. revert attempt lastError clock.
  destruct plain_name as (Hr & Hn & Hv).
  induction left as [|n IH]; intros attempt lastError clock Hpos H1 Hatt; [lia|].
  destruct depth as [|d] eqn:Ed; [lia|].
  cbn [retryLoop]. unfold tryAttempt. rewrite (getBestRPC_guard d clock chain m Hno).
  unfold onError. rewrite Hr, Hn, Hv. simpl andb. cbv iota.
  destruct (attempt <? maxRetries) eqn:Elt; cbv iota beta zeta.
  - apply Z.ltb_lt in Elt.
    rewrite (timerDelay_in_range (500 * attempt)) by lia.
    destruct (IH (attempt + 1) (Some (notInitializedError chain))
                (clock + 500 * attempt))
      as (Ho & Hlen & Hall & Hts & Hfs & Hfc); [lia | lia | lia |].
    match goal with
    | |- context [logged ?r ?a] => set (rest := r) in *; set (a0 := a)
    end.
    change (attempts (logged rest a0)) with (a0 :: attempts rest).
    change (outcome (logged rest a0)) with (outcome rest).
    change (finalState (logged rest a0)) with (finalState rest).
    change (finalClock (logged rest a0)) with (finalClock rest).
    split; [done|]. split; [cbn [length]; by rewrite Hlen|]. split.
    { constructor; [|done]. simpl.
      apply Z.ltb_lt in Elt. by rewrite Elt. }
    split.
    { rewrite totalSleep_cons. simpl slept. cbv iota. rewrite Hts. simpl.
      f_equal. lia. }
    split; [done|]. rewrite Hfc. lia.
  - apply Z.ltb_ge in Elt. assert (n = 0%nat) by lia. subst n.
    assert (attempt = maxRetries) by lia. subst attempt.
    simpl. split; [done|]. split; [done|]. split.
    { constructor; [|constructor]. simpl. by rewrite Z.ltb_irrefl. }
    split; [f_equal; lia|]. split; [done | lia].
Qed.
End NoPool.

(** X16: asking for a chain the manager has no pool for is not refused at
    once.  When the manager is not initialised, or [this.connections[chain]]
    is undefined (the chain is no key of [this.connections] and no property
    name of [Object.prototype]), [getBestRPC] throws its not-initialised
    error; when the text of that error, chain name included, matches none of
    the patterns that [executeWithRetry] looks for, the call goes through
    all [maxRetries] attempts without ever calling the operation, sleeps
    [500 * k] milliseconds after attempt [k < maxRetries], and only then
    raises the error: [250 * maxRetries * (maxRetries - 1)] milliseconds
    later, 1500 with the default of three attempts.  The manager is left as
    it was. *)
Theorem executeWithRetry_unknown_chain {A} depth chain (operation : Operation A)
    maxRetries m clock :
  (0 < depth)%nat →
  1 <= maxRetries →
  500 * maxRetries <= 2147483647 →
  initialized m = false
  ∨ (getProp chain (connections m) = None ∧ chain ∉ inheritedNames) →
  isRateLimitError (notInitializedError chain) = false →
  isNetworkError (notInitializedError chain) = false →
  isValidationError (notInitializedError chain) = false →
  let r := executeWithRetry depth chain operation maxRetries m clock in
  outcome r = Raised (Some (notInitializedError chain))
  ∧ Z.of_nat (length (attempts r)) = maxRetries
  ∧ Forall (λ a, ranOn a = None
                 ∧ thrown a = Some (notInitializedError chain)
                 ∧ slept a = if attemptNo a <? maxRetries
                             then Some (Num (500 * attemptNo a)) else None)
      (attempts r)
  ∧ totalSleep (attempts r) = Num (250 * maxRetries * (maxRetries - 1))
  ∧ finalState r = m
  ∧ finalClock r = clock + 250 * maxRetries * (maxRetries - 1).
Proof.
  intros Hd Hm Ht Hno Hr Hn Hv r.
  assert (Hguard : initialized m = false
                   ∨ readProp chain (connections m) = Missing).
  { destruct Hno as [Hi | Hmiss]; [by left | right].
    by apply readProp_Missing. }
  destruct (retryLoop_no_pool depth chain operation maxRetries Hd Ht
              (conj Hr (conj Hn Hv)) (Z.to_nat maxRetries) 1 None m clock
              Hguard)
    as (Ho & Hlen & Hall & Hts & Hfs & Hfc); [lia | lia | lia |].
  fold (executeWithRetry depth chain operation maxRetries m clock) in *.
  fold r in Ho, Hlen, Hall, Hts, Hfs, Hfc.
  split; [done|]. split; [lia|]. split; [done|].
  split; [rewrite Hts; f_equal; lia|]. split; [done|]. rewrite Hfc. lia.
Qed.

Lemma executeWithRetry_unknown_chain_witness :
  (0 < 2)%nat
  ∧ 1 <= 3
  ∧ 500 * 3 <= 2147483647
  ∧ getProp exUnknownChain (connections exStarted) = None
  ∧ (exUnknownChain ∉ inheritedNames)
  ∧ isRateLimitError (notInitializedError exUnknownChain) = false
  ∧ isNetworkError (notInitializedError exUnknownChain) = false
  ∧ isValidationError (notInitializedError exUnknownChain) = false
  ∧ finalClock (executeWithRetry 2 exUnknownChain (exAlways exInvalidAddress) 3
                  exStarted 1000) = 2500.
Proof.
  split; [lia|]. split; [lia|]. split; [lia|]. split; [reflexivity|].
  split; [exact dogecoin_not_inherited|].
  split; [by vm_compute|]. split; [by vm_compute|]. split; [by vm_compute|].
  exact (proj2 (proj2 (proj2 (proj2 (proj2
           (executeWithRetry_unknown_chain 2 exUnknownChain
              (exAlways exInvalidAddress) 3 exStarted 1000
              ltac:(lia) ltac:(lia) ltac:(lia)
              (or_intror (conj eq_refl dogecoin_not_inherited))
              ltac:(by vm_compute) ltac:(by vm_compute) ltac:(by vm_compute))))))).
Defined.

Section NetworkDown.
Context {A : Type}.
Variable depth : nat.
Variable chain : string.
Variable operation : Operation A.
Variable maxRetries : Z.
Hypothesis depth_pos : (0 < depth)%nat.
Hypothesis timer_range : 1000 * maxRetries <= 2147483647.
Hypothesis always_network_error :
  ∀ attempt conn t, ∃ elapsed e,
    operation attempt conn t = (elapsed, Rejected e)
    ∧ 0 <= elapsed
    ∧ isRateLimitError e = false
    ∧ isNetworkError e = true.

Lemma retryLoop_network_error left attempt lastError m clock :
  (0 < left)%nat →
  1 <= attempt →
  attempt + Z.of_nat left = maxRetries + 1 →
  ready clock chain m →
  let r := retryLoop depth chain operation maxRetries left attempt lastError
             m clock in
  length (attempts r) = left
  ∧ Forall (λ a, is_Some (ranOn a)
                 ∧ (∃ e, thrown a = Some e ∧ isNetworkError e = true)
                 ∧ slept a = if attemptNo a <? maxRetries
                             then Some (Num (1000 * attemptNo a)) else None)
      (attempts r)
  ∧ (∃ e, outcome r = Raised (Some e) ∧ isNetworkError e = true)
  ∧ totalSleep (attempts r)
    = Num (500 * (maxRetries * (maxRetries - 1) - attempt * (attempt - 1))).
Proof.
  revert attempt lastError m clock.
  induction left as [|n IH]; intros attempt lastError m clock Hpos H1 Hatt Hready;
    [lia|].
  destruct depth as [|d] eqn:Ed; [lia|].
  destruct (ready_getBestRPC d clock chain m Hready) as (conn & m1 & Hsel & Hnext).
  destruct (always_network_error attempt conn clock)
    as (elapsed & e & Hop & Hel & Hrl & Hnw).
  cbn [retryLoop]. unfold tryAttempt. rewrite Hsel, Hop. unfold onError.
  rewrite Hrl, Hnw. simpl andb. cbv iota beta zeta.
  destruct (attempt <? maxRetries) eqn:Elt; cbv iota beta zeta.
  - apply Z.ltb_lt in Elt.
    rewrite (timerDelay_in_range (1000 * attempt)) by lia.
    destruct (IH (attempt + 1) (Some e) m1 (clock + elapsed + 1000 * attempt))
      as (Hlen & Hall & Hout & Hts); [lia | lia | lia | apply Hnext; lia |].
    match goal with
    | |- context [logged ?r ?a] => set (rest := r) in *; set (a0 := a)
    end.
    change (attempts (logged rest a0)) with (a0 :: attempts rest).
    change (outcome (logged rest a0)) with (outcome rest).
    split; [cbn [length]; by rewrite Hlen|]. split.
    { constructor; [|done]. simpl. split; [by eexists|].
      split; [by exists e|]. apply Z.ltb_lt in Elt. by rewrite Elt. }
    split; [done|].
    rewrite totalSleep_cons. simpl slept. cbv iota. rewrite Hts. simpl.
    f_equal. lia.
  - apply Z.ltb_ge in Elt. assert (n = 0%nat) by lia. subst n.
    assert (attempt = maxRetries) by lia. subst attempt.
    assert (Hlast : Forall (λ a, is_Some (ranOn a)
                     ∧ (∃ e, thrown a = Some e ∧ isNetworkError e = true)
                     ∧ slept a = if attemptNo a <? maxRetries
                                 then Some (Num (1000 * attemptNo a)) else None)
              [ {| attemptNo := maxRetries; ranOn := Some conn;
                   thrown := Some e; slept := None |} ]).
    { constructor; [|constructor]. simpl. split; [by eexists|].
      split; [by exists e|]. by rewrite Z.ltb_irrefl. }
    destruct (isValidationError e); simpl.
    + split; [done|]. split; [exact Hlast|]. split; [by exists e|].
      f_equal. lia.
    + split; [done|]. split; [exact Hlast|]. split; [by exists e|].
      f_equal. lia.
Qed.
End NetworkDown.

(** X17: the back-off after network errors is linear.  With a pool that is
    ready to serve and an operation that fails with a network error on
    every call, [executeWithRetry] calls the operation in each of exactly
    [maxRetries] attempts, sleeps [1000 * k] milliseconds after attempt
    [k < maxRetries] and not after the last, and raises a network error:
    [500 * maxRetries * (maxRetries - 1)] milliseconds of sleep in all, that
    is 1000 + 2000 with the default of three attempts. *)
Theorem network_error_backoff_is_linear {A} depth chain (operation : Operation A)
    maxRetries m clock :
  (0 < depth)%nat →
  1 <= maxRetries →
  1000 * maxRetries <= 2147483647 →
  ready clock chain m →
  (∀ attempt conn t, ∃ elapsed e,
     operation attempt conn t = (elapsed, Rejected e)
     ∧ 0 <= elapsed
     ∧ isRateLimitError e = false
     ∧ isNetworkError e = true) →
  let r := executeWithRetry depth chain operation maxRetries m clock in
  Z.of_nat (length (attempts r)) = maxRetries
  ∧ Forall (λ a, is_Some (ranOn a)
                 ∧ (∃ e, thrown a = Some e ∧ isNetworkError e = true)
                 ∧ slept a = if attemptNo a <? maxRetries
                             then Some (Num (1000 * attemptNo a)) else None)
      (attempts r)
  ∧ (∃ e, outcome r = Raised (Some e) ∧ isNetworkError e = true)
  ∧ totalSleep (attempts r) = Num (500 * maxRetries * (maxRetries - 1)).
Proof.
  intros Hd Hm Ht Hready Hop r.
  destruct (retryLoop_network_error depth chain operation maxRetries Hd Ht Hop
              (Z.to_nat maxRetries) 1 None m clock)
    as (Hlen & Hall & Hout & Hts); [lia | lia | lia | done |].
  fold (executeWithRetry depth chain operation maxRetries m clock) in *.
  fold r in Hlen, Hall, Hout, Hts.
  split; [lia|]. split; [done|]. split; [done|].
  rewrite Hts. f_equal. lia.
Qed.

Lemma exAlways_network_error attempt conn t :
  ∃ elapsed e,
    exAlways exFetchFailed attempt conn t = (elapsed, Rejected e)
    ∧ 0 <= elapsed
    ∧ isRateLimitError e = false
    ∧ isNetworkError e = true.
Proof.
  exists 10, exFetchFailed.
  split; [reflexivity|]. split; [lia|]. split; by vm_compute.
Qed.

Lemma network_error_backoff_is_linear_witness :
  (0 < 2)%nat
  ∧ 1 <= 3
  ∧ 1000 * 3 <= 2147483647
  ∧ ready 1500 "ethereum" exStarted
  ∧ totalSleep (attempts (executeWithRetry 2 "ethereum" (exAlways exFetchFailed) 3
                            exStarted 1500)) = Num 3000.
Proof.
  split; [lia|]. split; [lia|]. split; [lia|]. split; [exact exStarted_ready|].
  exact (proj2 (proj2 (proj2
           (network_error_backoff_is_linear 2 "ethereum" (exAlways exFetchFailed)
              3 exStarted 1500 ltac:(lia) ltac:(lia) ltac:(lia) exStarted_ready
              exAlways_network_error)))).
Defined.

(** ** The wait after a rate-limit error *)

Lemma digitVal_isDigit c :
  isDigit c = true →
  ∃ d, digitVal c = Some d ∧ 0 <= d < 10 ∧ isWhite c = false.
Proof.
  unfold isDigit, digitVal, isWhite. intros H. rewrite H.
  apply andb_true_iff in H as [H1 H2].
  apply Nat.leb_le in H1. apply Nat.leb_le in H2.
  eexists. split; [done|]. split; [lia|].
  apply orb_false_iff. split.
  - apply andb_false_iff. right. apply Nat.leb_gt. lia.
  - apply Nat.eqb_neq. lia.
Qed.

Lemma digitVal_nonneg c d : digitVal c = Some d → 0 <= d.
Proof.
  unfold digitVal.
  destruct ((48 <=? nat_of_ascii c)%nat && (nat_of_ascii c <=? 57)%nat) eqn:E1.
  { apply andb_true_iff in E1 as [H1 _]. apply Nat.leb_le in H1.
    intros [= <-]. lia. }
  destruct ((97 <=? nat_of_ascii c)%nat && (nat_of_ascii c <=? 122)%nat) eqn:E2.
  { apply andb_true_iff in E2 as [H1 _]. apply Nat.leb_le in H1.
    intros [= <-]. lia. }
  destruct ((65 <=? nat_of_ascii c)%nat && (nat_of_ascii c <=? 90)%nat) eqn:E3;
    [|done].
  apply andb_true_iff in E3 as [H1 _]. apply Nat.leb_le in H1.
  intros [= <-]. lia.
Qed.

Lemma parseDigits_acc radix acc s :
  0 <= radix → 0 <= acc →
  ∃ v, parseDigits radix (Some acc) s = Some v ∧ 0 <= v.
Proof.
  intros Hr. revert acc. induction s as [|c rest IH]; intros acc Ha; simpl.
  { by exists acc. }
  destruct (digitVal c) as [d|] eqn:Ed; [|by exists acc].
  destruct (d <? radix); [|by exists acc].
  apply IH. apply digitVal_nonneg in Ed. nia.
Qed.

Lemma takeDigits_head s c t :
  takeDigits s = String c t → isDigit c = true.
Proof.
  destruct s as [|c' s']; simpl; [done|].
  destruct (isDigit c') eqn:E; [|done]. by intros [= <- _].
Qed.

Lemma parseInt_digits c rest :
  isDigit c = true →
  ∃ v, parseInt (String c (takeDigits rest)) = Num v ∧ 0 <= v.
Proof.
  intros Hc. pose proof (takeDigits_head rest) as Ht.
  generalize dependent (takeDigits rest). intros t Ht.
  destruct (digitVal_isDigit c Hc) as (d & Hd & Hrange & Hw).
  assert (Hdec : ∃ v, parseDigits 10 None (String c t) = Some v ∧ 0 <= v).
  { simpl. rewrite Hd. destruct (d <? 10) eqn:E; [|apply Z.ltb_ge in E; lia].
    apply parseDigits_acc; simpl; lia. }
  destruct Hdec as (v & Hv & Hv0).
  unfold parseInt. rewrite skipWhite_ascii;
    [| done
     | destruct c as [[] [] [] [] [] [] [] []];
         try (vm_compute in Hc; discriminate Hc); vm_compute; lia ].
  clear Hd Hw.
  destruct c as [[] [] [] [] [] [] [] []];
    try (vm_compute in Hc; discriminate Hc);
    cbv iota beta zeta; try (rewrite Hv; by exists v).
  destruct t as [|c2 t2]; [rewrite Hv; by exists v|].
  specialize (Ht c2 t2 eq_refl).
  destruct c2 as [[] [] [] [] [] [] [] []];
    try (vm_compute in Ht; discriminate Ht);
    cbv iota beta zeta; rewrite Hv; by exists v.
Qed.

Lemma matchDigits_Some s digits :
  matchDigits s = Some digits →
  ∃ c rest, digits = String c (takeDigits rest) ∧ isDigit c = true.
Proof.
  induction s as [|c rest IH]; simpl; [done|].
  destruct (isDigit c) eqn:E; [|apply IH].
  intros [= <-]. by exists c, rest.
Qed.

(** X18: without a Retry-After header the wait is always a number.  The
    wait that [handleRateLimit] computes from an error that carries no
    (non-empty) [retry-after] header lies in [5000, 60000]: it is 5000
    unless the message contains "wait" and a run of decimal digits, and then
    it is a thousand times the first such run, clamped to that range.  The
    timer sleeps for exactly that long; a wait that is not a number can only
    come from the header. *)
Theorem handleRateLimit_without_header e :
  retryAfterHeader e = None →
  ∃ w, handleRateLimit e = Num w
       ∧ 5000 <= w <= 60000
       ∧ timerDelay (handleRateLimit e) = w
       ∧ (messageIncludes "wait" e = false → w = 5000)
       ∧ (message e ≫= matchDigits = None → w = 5000)
       ∧ (∀ digits,
            messageIncludes "wait" e = true →
            message e ≫= matchDigits = Some digits →
            ∃ seconds, parseInt digits = Num seconds ∧ 0 <= seconds
                       ∧ w = Z.min (Z.max (1000 * seconds) 5000) 60000).
Proof.
  intros Hh. unfold handleRateLimit. rewrite Hh.
  destruct (messageIncludes "wait" e) eqn:Ew.
  - destruct (message e ≫= matchDigits) as [digits|] eqn:Em.
      destruct (message e) as [msg|]; [|done]. simpl in Em.
      destruct (matchDigits_Some msg digits Em) as (c & rest & -> & Hc).
      destruct (parseInt_digits c rest Hc) as (v & Hv & Hv0).
      rewrite Hv. simpl.
      exists (Z.min (Z.max (v * 1000) 5000) 60000).
      split; [done|]. split; [lia|]. split.
      { destruct (1 <=? Z.min (Z.max (v * 1000) 5000) 60000) eqn:E1;
          [|apply Z.leb_gt in E1; lia].
        destruct (Z.min (Z.max (v * 1000) 5000) 60000 <=? 2147483647) eqn:E2;
          [done|]. apply Z.leb_gt in E2. lia. }
      split; [done|]. split; [done|].
      intros digits _ [= <-]. exists v. split; [done|]. split; [done|].
      f_equal. f_equal. lia.
    + exists 5000. simpl. split; [done|]. split; [lia|]. split; [done|].
      split; [done|]. split; [done|]. intros digits _ H. discriminate H.
  - exists 5000. simpl. split; [done|]. split; [lia|]. split; [done|].
    split; [done|]. split; [done|]. intros digits H. discriminate H.
Qed.

Lemma handleRateLimit_without_header_witness :
  retryAfterHeader (mkError "rate limit exceeded, please wait 12 seconds") = None
  ∧ handleRateLimit (mkError "rate limit exceeded, please wait 12 seconds")
    = Num 12000.
Proof.
  split; [reflexivity|].
  destruct (handleRateLimit_without_header
              (mkError "rate limit exceeded, please wait 12 seconds") eq_refl)
    as (w & Hw & _).
  by vm_compute.
Defined.

(** ** Requests counted during a run *)

Lemma foldl_requestCount_fmap (l l' : list Endpoint) a :
  requestCount <$> l = requestCount <$> l' →
  foldl (λ sum c, sum + requestCount c) a l
  = foldl (λ sum c, sum + requestCount c) a l'.
Proof.
  revert l' a. induction l as [|x l IH]; intros [|y l'] a H; try done.
  injection H as Hx Hl. simpl. rewrite Hx. by apply IH.
Qed.

Lemma totalRequests_pool chain m :
  totalRequests chain m
  = foldl (λ sum c, sum + requestCount c) 0 <$> getProp chain (connections m).
Proof.
  unfold totalRequests, getChainStats, readProp.
  destruct (getProp chain (connections m)) as [conns|]; [done|].
  by destruct (bool_decide (chain ∈ inheritedNames)).
Qed.

Lemma totalRequests_resetRPCErrors chain conn m chain' :
  totalRequests chain' (resetRPCErrors chain conn m).2 = totalRequests chain' m.
Proof.
  rewrite !totalRequests_pool.
  pose proof (resetRPCErrors_static requestCount chain conn m chain'
                (λ _, eq_refl)) as H.
  destruct (getProp chain' (connections (resetRPCErrors chain conn m).2))
    as [l|], (getProp chain' (connections m)) as [l'|]; try done.
  simpl in *. f_equal. apply foldl_requestCount_fmap. congruence.
Qed.

Lemma totalRequests_getBestRPC depth now chain m chain' :
  totalRequests chain' (getBestRPC depth now chain m).2
  = (λ n, n + match (getBestRPC depth now chain m).1 with
              | Normal _ => if decide (chain' = chain) then 1 else 0
              | Throw _ => 0
              end) <$> totalRequests chain' m.
Proof.
  pose proof (getBestRPC_connections depth now chain m) as Hc.
  rewrite !totalRequests_pool.
  destruct ((getBestRPC depth now chain m).1) as [conn|e].
  - destruct Hc as (conns & i & sel & Hp & Hi & _ & _ & ->).
    destruct (decide (chain' = chain)) as [->|Hne].
    + rewrite getProp_setProp_eq, Hp. simpl. f_equal.
      by apply (foldl_requestCount_markUsed now i conns sel).
    + rewrite getProp_setProp_ne by done.
      destruct (getProp chain' (connections m)); simpl; [|done]. f_equal. lia.
  - rewrite Hc. destruct (getProp chain' (connections m)); simpl; [|done].
    f_equal. lia.
Qed.

Lemma totalRequests_tryAttempt {A} depth chain (operation : Operation A)
    attempt m clock chain' :
  totalRequests chain' (tryAttempt depth chain operation attempt m clock).1.2
  = (λ n, n + match (tryAttempt depth chain operation attempt m clock).1.1.2 with
              | Some _ => if decide (chain' = chain) then 1 else 0
              | None => 0
              end) <$> totalRequests chain' m.
Proof.
  pose proof (totalRequests_getBestRPC depth clock chain m chain') as H.
  rewrite tryAttempt_unfold.
  destruct (getBestRPC depth clock chain m) as [[conn|e] m1]; [|done].
  destruct (operation attempt conn clock) as [elapsed [v|e|isNull]];
    simpl in *; [|done|done].
  by rewrite totalRequests_resetRPCErrors.
Qed.

Lemma totalRequests_retryLoop {A} depth chain (operation : Operation A)
    maxRetries left attempt lastError m clock chain' :
  totalRequests chain'
    (finalState (retryLoop depth chain operation maxRetries left attempt
                   lastError m clock))
  = (λ n, n + if decide (chain' = chain)
              then Z.of_nat (length (operationCalls
                     (attempts (retryLoop depth chain operation maxRetries left
                                  attempt lastError m clock))))
              else 0) <$> totalRequests chain' m.
Proof.
  revert attempt lastError m clock.
  induction left as [|left IH]; intros attempt lastError m clock.
  { simpl. destruct (totalRequests chain' m); simpl; [|done].
    f_equal. destruct (decide (chain' = chain)); lia. }
  cbn [retryLoop].
  pose proof (totalRequests_tryAttempt depth chain operation attempt m clock
                chain') as Hstep.
  destruct (tryAttempt depth chain operation attempt m clock)
    as [[[r ran] m1] t1]. simpl in Hstep.
  assert (Hone : ∀ thr sl,
            totalRequests chain' m1
            = (λ n, n + if decide (chain' = chain)
                        then Z.of_nat (length (operationCalls
                               [ {| attemptNo := attempt; ranOn := ran;
                                    thrown := thr; slept := sl |} ]))
                        else 0) <$> totalRequests chain' m).
  { intros thr sl. rewrite Hstep. unfold operationCalls. simpl.
    destruct (totalRequests chain' m); simpl; [|done]. f_equal.
    destruct ran, (decide (chain' = chain)); simpl; lia. }
  assert (Hmore : ∀ thr sl (rest : Run A),
            totalRequests chain' (finalState rest)
            = (λ n, n + if decide (chain' = chain)
                        then Z.of_nat (length (operationCalls (attempts rest)))
                        else 0) <$> totalRequests chain' m1 →
            totalRequests chain'
              (finalState (logged rest {| attemptNo := attempt; ranOn := ran;
                                          thrown := thr; slept := sl |}))
            = (λ n, n + if decide (chain' = chain)
                        then Z.of_nat (length (operationCalls
                               (attempts (logged rest
                                  {| attemptNo := attempt; ranOn := ran;
                                     thrown := thr; slept := sl |}))))
                        else 0) <$> totalRequests chain' m).
  { intros thr sl rest Hrest.
    change (finalState (logged rest _)) with (finalState rest).
    rewrite Hrest, Hstep. unfold operationCalls. simpl.
    destruct (totalRequests chain' m); simpl; [|done]. f_equal.
    destruct ran, (decide (chain' = chain)); simpl; lia. }
  destruct r as [v|e|isNull]; [apply Hone| |apply Hone].
  destruct (onError e attempt maxRetries) as [|ms|]; [apply Hone| |];
    apply Hmore, IH.
Qed.

(** X19: [totalRequests] counts the calls of the operation.  After a run
    of [executeWithRetry] the figure that [getChainStats] reports for the
    chain has grown by the number of attempts in which the operation was
    called, successful or not; attempts in which selection threw are not
    counted, and the figures of all other chains are as before. *)
Theorem executeWithRetry_counts_operation_calls {A} depth chain
    (operation : Operation A) maxRetries m clock :
  totalRequests chain
    (finalState (executeWithRetry depth chain operation maxRetries m clock))
  = (λ n, n + Z.of_nat (length (operationCalls
              (attempts (executeWithRetry depth chain operation maxRetries
                           m clock)))))
    <$> totalRequests chain m
  ∧ (∀ chain', chain' ≠ chain →
       totalRequests chain'
         (finalState (executeWithRetry depth chain operation maxRetries m clock))
       = totalRequests chain' m)
  ∧ (length (operationCalls
       (attempts (executeWithRetry depth chain operation maxRetries m clock)))
     ≤ Z.to_nat maxRetries)%nat.
Proof.
  unfold executeWithRetry. split; [|split].
  - rewrite totalRequests_retryLoop. by rewrite decide_True.
  - intros chain' Hne. rewrite totalRequests_retryLoop.
    rewrite decide_False by done.
    destruct (totalRequests chain' m); simpl; [|done]. f_equal. lia.
  - destruct (Z_le_gt_dec maxRetries 0) as [Hle | Hgt].
    + by replace (Z.to_nat maxRetries) with 0%nat by lia.
    + destruct (retryLoop_shape depth chain operation maxRetries
                  (Z.to_nat maxRetries) 1 None m clock)
        as (_ & _ & _ & _ & Hlen & _); [lia | lia |].
      etrans; [apply filter_length_le | exact Hlen].
Qed.

(** ** Failover *)

Lemma outOfService_not_candidate now conns m i rpc :
  outOfService now rpc m → (i, rpc) ∉ candidates now conns m.
Proof.
  intros Hout Hin.
  pose proof (candidates_elem now conns m i rpc Hin) as (_ & Hh & Hf).
  destruct Hout as [Hu | [Hm | (c & Hc & Hw & Hcap)]]; [congruence | done |].
  destruct (filterHealthy_admitted now (failedRPCs m) 0 conns (requestCounters m)
              i rpc Hin c Hc); lia.
Qed.

(** X20: requests fail over instead of waiting.  If an endpoint of the
    pool is healthy, unmarked and under its rate cap, and every other
    endpoint of the pool is either out of service (unhealthy, marked
    failed, or at its rate cap) or strictly less preferred, then
    [getBestRPC] returns that endpoint's connection, however much better
    the endpoints out of service would be.  If every endpoint of a
    non-empty pool is out of service and the failed set is smaller than the
    pool, the call throws "No healthy RPCs available", also when the
    endpoints are healthy and merely rate-capped. *)
Theorem getBestRPC_fails_over depth now chain m conns :
  initialized m = true →
  getProp chain (connections m) = Some conns →
  (∀ k b,
     conns !! k = Some b →
     healthy b = true →
     url b ∉ failedRPCs m →
     underCap now b (requestCounters m) →
     (∀ j other, conns !! j = Some other → j ≠ k →
        outOfService now other m ∨ strictlyPreferred b other) →
     getBestRPC (S depth) now chain m
     = (Normal (connection b), afterSelection now chain conns k b m))
  ∧ ((∀ j other, conns !! j = Some other → outOfService now other m) →
     (size (failedRPCs m) < length conns)%nat →
     (getBestRPC (S depth) now chain m).1 = Throw (noHealthyError chain)
     ∧ connections (getBestRPC (S depth) now chain m).2 = connections m
     ∧ failedRPCs (getBestRPC (S depth) now chain m).2 = failedRPCs m).
Proof.
  intros Hi Hc. split.
  - intros k b Hl Hh Hf Hu Hothers.
    pose proof (candidates_intro now conns m k b Hl Hh Hf Hu) as Hin.
    destruct (sortCandidates (candidates now conns m)) as [|[i sel] rest] eqn:Hs.
    { apply (proj1 (sortCandidates_nil _)) in Hs. rewrite Hs in Hin.
      by apply elem_of_nil in Hin. }
    destruct (sortCandidates_best _ _ _ Hs) as [Hsel Hbest].
    pose proof (candidates_elem now conns m i sel Hsel) as (Hli & _).
    destruct (decide (i = k)) as [->|Hne].
    + rewrite Hl in Hli. injection Hli as <-.
      by apply (getBestRPC_pick depth now chain m conns k b rest).
    + exfalso. destruct (Hothers i sel Hli Hne) as [Hout | Hpref].
      * by apply (outOfService_not_candidate now conns m i sel).
      * specialize (Hbest (k, b) Hin). unfold preferred in Hbest. simpl in Hbest.
        unfold strictlyPreferred in Hpref. lia.
  - intros Hall Hsize.
    assert (Hnone : candidates now conns m = []).
    { destruct (candidates now conns m) as [|[i rpc] l] eqn:E; [done|].
      assert (Hin : (i, rpc) ∈ candidates now conns m)
        by (rewrite E; apply list_elem_of_here).
      pose proof (candidates_elem now conns m i rpc Hin) as (Hl & _).
      by destruct (outOfService_not_candidate now conns m i rpc (Hall i rpc Hl)). }
    rewrite (getBestRPC_none depth now chain m conns) by done.
    destruct (length conns <=? size (failedRPCs m))%nat eqn:E;
      [apply Nat.leb_le in E; lia|]. done.
Qed.

Lemma getBestRPC_fails_over_witness :
  initialized exPrimaryCapped = true
  ∧ outOfService 500 (exEndpoint urlA 1 1%nat) exPrimaryCapped
  ∧ (getBestRPC 1 500 "ethereum" exPrimaryCapped).1 = Normal 0%nat.
Proof.
  assert (Hout : outOfService 500 (exEndpoint urlA 1 1%nat) exPrimaryCapped).
  { right. right. exists {| count := 4; lastReset := 0 |}.
    split; [by vm_compute|]. split; [simpl; lia | by vm_compute]. }
  split; [reflexivity|]. split; [exact Hout|].
  rewrite (proj1 (getBestRPC_fails_over 0 500 "ethereum" exPrimaryCapped
                    [exEndpoint urlB 2 0%nat; exEndpoint urlA 1 1%nat]
                    eq_refl eq_refl)
             0%nat (exEndpoint urlB 2 0%nat) eq_refl eq_refl).
  - reflexivity.
  - by vm_compute.
  - intros c Hc. vm_compute in Hc. injection Hc as <-. by vm_compute.
  - intros j other Hl Hne. destruct j as [|[|j]]; [done| |done].
    injection Hl as <-. by left.
Defined.

(** ** A pool of one endpoint under the health monitor *)

Lemma checkChain_single probe rpc failed :
  (checkChain probe [rpc] failed).1
  = [if probe rpc then probeSucceeded rpc else probeFailed rpc].
Proof.
  unfold checkChain, activeRPC. cbn [list_find].
  destruct (decide (healthy rpc = true)); simpl;
    unfold checkEndpoint; by destruct (probe rpc).
Qed.

Lemma performHealthCheck_single now probe m chain rpc :
  getProp chain (connections m) = Some [rpc] →
  healthCheckInterval m <= 2 * (now - lastHealthCheck m) →
  getProp chain (connections (performHealthCheck now probe m))
  = Some [if probe chain rpc then probeSucceeded rpc else probeFailed rpc]
  ∧ lastHealthCheck (performHealthCheck now probe m) = now
  ∧ healthCheckInterval (performHealthCheck now probe m) = healthCheckInterval m.
Proof.
  intros Hc Hge. unfold performHealthCheck.
  destruct (2 * (now - lastHealthCheck m) <? healthCheckInterval m) eqn:E;
    [apply Z.ltb_lt in E; lia|].
  destruct (checkChains_getProp probe (connections m) (failedRPCs m) chain)
    as [failed' H].
  simpl. destruct (checkChains probe (connections m) (failedRPCs m)) as [cs f].
  simpl in *. rewrite H, Hc. simpl. by rewrite checkChain_single.
Qed.

(** X21: a pool of one endpoint, as in the built-in configuration, under a
    series of health-check cycles none of which is skipped as too early.
    The one endpoint is the one probed in every cycle, healthy or not.  If
    its probe fails in each of [n] cycles, its error count grows by [n]; it
    keeps its [healthy] flag while the count is below 5 and is unhealthy
    once the count has reached 5.  Whatever the count, the first cycle
    after that whose probe succeeds makes it healthy again with an error
    count of 0. *)
Theorem single_endpoint_pool_cycles chain cycles rpc m :
  getProp chain (connections m) = Some [rpc] →
  0 <= errorCount rpc →
  spaced (lastHealthCheck m) (healthCheckInterval m) (fst <$> cycles) →
  (∀ cycle r, cycle ∈ cycles → cycle.2 chain r = false) →
  ∃ rpc',
    getProp chain (connections (healthCycles cycles m)) = Some [rpc']
    ∧ identity rpc' = identity rpc
    ∧ errorCount rpc' = errorCount rpc + Z.of_nat (length cycles)
    ∧ (errorCount rpc' < 5 → healthy rpc' = healthy rpc)
    ∧ (5 <= errorCount rpc' → cycles ≠ [] → healthy rpc' = false)
    ∧ ∀ now probe,
        healthCheckInterval m
        <= 2 * (now - lastHealthCheck (healthCycles cycles m)) →
        probe chain rpc' = true →
        ∃ rpc'',
          getProp chain
            (connections (performHealthCheck now probe (healthCycles cycles m)))
          = Some [rpc'']
          ∧ identity rpc'' = identity rpc
          ∧ healthy rpc'' = true
          ∧ errorCount rpc'' = 0.
Proof.
  revert rpc m. induction cycles as [|[t probe] rest IH];
    intros rpc m Hc H0 Hsp Hfail.
  - exists rpc. simpl. split; [done|]. split; [done|]. split; [lia|].
    split; [done|]. split; [done|]. intros now probe Hge Hok.
    destruct (performHealthCheck_single now probe m chain rpc Hc Hge) as (Hp & _).
    rewrite Hok in Hp. by exists (probeSucceeded rpc).
  - destruct Hsp as [Hge Hsp]. cbn [healthCycles].
    destruct (performHealthCheck_single t probe m chain rpc Hc Hge)
      as (Hp & Hl & Hint).
    pose proof (Hfail (t, probe) rpc (list_elem_of_here _ _)) as Hf0.
    simpl in Hf0. rewrite Hf0 in Hp.
    destruct (IH (probeFailed rpc) (performHealthCheck t probe m) Hp)
      as (rpc' & Hc' & Hid & He & Hlt & Hge5 & Hrec).
    + simpl. lia.
    + by rewrite Hl, Hint.
    + intros cycle r Hin. apply Hfail. by apply list_elem_of_further.
    + exists rpc'. split; [done|]. split; [done|].
      simpl errorCount in He. split; [cbn [length]; lia|]. split; [|split].
      * intros H5. rewrite (Hlt H5). simpl.
        destruct (5 <=? errorCount rpc + 1) eqn:E; [apply Z.leb_le in E; lia|].
        done.
      * intros H5 _. destruct rest as [|c rest'].
        -- simpl in Hc'. rewrite Hp in Hc'. injection Hc' as <-. simpl.
           simpl in He.
           destruct (5 <=? errorCount rpc + 1) eqn:E;
             [done | apply Z.leb_gt in E; simpl in H5; lia].
        -- by apply Hge5.
      * intros now probe' Hge' Hok. rewrite Hint in Hrec.
        destruct (Hrec now probe' Hge' Hok) as (rpc'' & H1 & H2 & H3).
        by exists rpc''.
Qed.

Lemma single_endpoint_pool_cycles_witness :
  getProp "ethereum" (connections exStarted) = Some [exHealthy]
  ∧ 0 <= errorCount exHealthy
  ∧ spaced (lastHealthCheck exStarted) (healthCheckInterval exStarted)
      [180000; 300000; 420000; 540000; 660000]
  ∧ ∃ rpc',
      getProp "ethereum"
        (connections
           (healthCycles ((λ t, (t, λ _ _, false))
                            <$> [180000; 300000; 420000; 540000; 660000])
              exStarted)) = Some [rpc']
      ∧ healthy rpc' = false.
Proof.
  assert (Hsp : spaced (lastHealthCheck exStarted) (healthCheckInterval exStarted)
                  [180000; 300000; 420000; 540000; 660000]).
  { vm_compute. repeat split; discriminate. }
  split; [reflexivity|]. split; [by vm_compute|]. split; [exact Hsp|].
  destruct (single_endpoint_pool_cycles "ethereum"
              ((λ t, (t, λ _ _, false))
                 <$> [180000; 300000; 420000; 540000; 660000])
              exHealthy exStarted eq_refl ltac:(by vm_compute) Hsp)
    as (rpc' & Hc & _ & He & _ & Hun & _).
  { intros cycle r Hin.
    repeat (apply elem_of_cons in Hin as [-> | Hin]; [done|]).
    by apply elem_of_nil in Hin. }
  exists rpc'. split; [exact Hc|]. apply Hun; [|discriminate].
  rewrite He. by vm_compute.
Defined.

(** ** The first request after start-up *)

Lemma getBestRPC_empty_pool depth now chain m :
  initialized m = true →
  getProp chain (connections m) = Some [] →
  (getBestRPC depth now chain m).1 = Throw stackError.
Proof.
  revert m. induction depth as [|d IH]; intros m Hi Hc; [done|].
  rewrite (getBestRPC_none d now chain m []) by done. simpl.
  by apply (IH (afterBreaker now [] m)).
Qed.

Lemma filter_nil_Forall {A} (p : A → bool) (l : list A) :
  Forall (λ x, p x = false) l → List.filter p l = [].
Proof.
  induction 1 as [|x l Hx _ IH]; [done|]. simpl. by rewrite Hx.
Qed.

Lemma initialize_serves now opens configs chain entries config depth now' :
  uniqueKeys configs →
  getProp chain configs = Some entries →
  config ∈ entries →
  opens chain (Config.url config) = true →
  ¬ configuredUrl opens configs false (Config.url config) →
  0 < safeLimit (Config.maxRequestsPerSecond config) →
  ∃ conn,
    (getBestRPC (S depth) now' chain (initialize now opens (constructed configs))).1
    = Normal conn.
Proof.
  intros Hu He Hin Ho Hnf Hlim.
  set (m := initialize now opens (constructed configs)).
  destruct (initChains_pool now opens configs 0%nat (constructed configs)
              chain entries Hu He) as (pool & Hpool & Hall).
  assert (Hfil : config ∈ List.filter (λ c, opens chain (Config.url c)) entries).
  { apply list_elem_of_In, filter_In. split; [by apply list_elem_of_In | done]. }
  apply list_elem_of_lookup in Hfil as [i Hi].
  destruct (Forall2_lookup_r _ _ _ _ _ Hall Hi)
    as (rpc & Hrpc & Hurl & _ & Hmax & Hh & _).
  assert (Hcand : (i, rpc) ∈ candidates now' pool m).
  { apply candidates_intro; [done | done | |].
    - intros Hf. apply Hnf. rewrite Hurl in Hf.
      apply (initChains_failed now opens configs 0%nat (constructed configs)) in Hf
        as [Hf | Hf]; [|done].
      simpl in Hf. by apply elem_of_empty in Hf.
    - intros counter Hc.
      destruct (initChains_counters now opens configs 0%nat (constructed configs)
                  (url rpc)) as (H1 & _).
      destruct (H1 counter Hc) as [H' | [-> _]].
      + simpl in H'. by rewrite lookup_empty in H'.
      + simpl. rewrite Hmax. by destruct (1000 <=? now' - now). }
  destruct (sortCandidates (candidates now' pool m)) as [|[k sel] rest] eqn:Hs.
  { apply (proj1 (sortCandidates_nil _)) in Hs. rewrite Hs in Hcand.
    by apply elem_of_nil in Hcand. }
  exists (connection sel).
  by rewrite (getBestRPC_pick depth now' chain m pool k sel rest).
Qed.

Lemma initialize_exhausts now opens configs chain entries depth now' :
  uniqueKeys configs →
  getProp chain configs = Some entries →
  Forall (λ c, opens chain (Config.url c) = false) entries →
  (getBestRPC depth now' chain (initialize now opens (constructed configs))).1
  = Throw stackError.
Proof.
  intros Hu He Hall. apply getBestRPC_empty_pool; [done|].
  destruct (initChains_pool now opens configs 0%nat (constructed configs)
              chain entries Hu He) as (pool & Hpool & Hb).
  rewrite filter_nil_Forall in Hb by done.
  apply Forall2_nil_inv_r in Hb. subst pool. exact Hpool.
Qed.

(** X22: the first request after start-up.  A chain serves its first
    request, at whatever time it comes, as soon as one of its configuration
    entries got its client (the constructor returned, no entry with the same
    url failed, and the rate limit allows at least one request).  A chain
    none of whose entries got a client has an empty pool, and a request for
    it ends in the exhaustion of the call stack, never in an error of the
    manager's own.  With the built-in configuration this is what each of
    [getSolanaConnection], [getEthereumProvider], [getBSCProvider],
    [getPolygonProvider], [getArbitrumProvider] and [getBaseProvider] does
    on first use: a connection if the chain's constructor returned, stack
    exhaustion if it threw. *)
Theorem first_request_after_startup now opens :
  (∀ configs chain entries,
     uniqueKeys configs →
     getProp chain configs = Some entries →
     (∀ config depth now',
        config ∈ entries →
        opens chain (Config.url config) = true →
        ¬ configuredUrl opens configs false (Config.url config) →
        0 < safeLimit (Config.maxRequestsPerSecond config) →
        ∃ conn,
          (getBestRPC (S depth) now' chain
             (initialize now opens (constructed configs))).1 = Normal conn)
     ∧ (Forall (λ c, opens chain (Config.url c) = false) entries →
        ∀ depth now',
          (getBestRPC depth now' chain
             (initialize now opens (constructed configs))).1 = Throw stackError))
  ∧ (∀ chain accessor u depth now',
       (chain, accessor) ∈ accessors →
       Config.url <$> default [] (getProp chain defaultConfigs) = [u] →
       (opens chain u = true →
        ∃ conn,
          (accessor (S depth) now' (initialize now opens (constructed defaultConfigs))).1
          = Normal conn)
       ∧ (opens chain u = false →
          (accessor depth now' (initialize now opens (constructed defaultConfigs))).1
          = Throw stackError)).
Proof.
  split.
  - intros configs chain entries Hu He. split.
    + intros config depth now' Hin Ho Hnf Hlim.
      by apply (initialize_serves now opens configs chain entries config).
    + intros Hall depth now'.
      by apply (initialize_exhausts now opens configs chain entries).
  - intros chain accessor u depth now' Hacc Hurl. unfold accessors in Hacc.
    assert (Hget : ∀ d t m, accessor d t m = getBestRPC d t chain m).
    { repeat (apply elem_of_cons in Hacc as [[= -> ->] | Hacc]; [done|]).
      by apply elem_of_nil in Hacc. }
    assert (He : ∃ config,
              getProp chain defaultConfigs = Some [config]
              ∧ Config.url config = u
              ∧ 0 < safeLimit (Config.maxRequestsPerSecond config)
              ∧ ∀ chain' cfgs c,
                  (chain', cfgs) ∈ defaultConfigs → c ∈ cfgs →
                  Config.url c = u → chain' = chain).
    { repeat (apply elem_of_cons in Hacc as [[= -> ->] | Hacc];
        [vm_compute in Hurl; injection Hurl as <-;
         eexists; split; [reflexivity|]; split; [reflexivity|];
         split; [by vm_compute|];
         intros chain' cfgs c Hin Hc Hu;
         cbv beta zeta delta [defaultConfigs] in Hin;
         repeat (apply elem_of_cons in Hin as [[= -> ->] | Hin];
           [apply list_elem_of_singleton in Hc; subst c;
            first [reflexivity | discriminate Hu]|]);
         by apply elem_of_nil in Hin|]).
      by apply elem_of_nil in Hacc. }
    destruct He as (config & He & Hcu & Hlim & Huniq).
    rewrite !Hget. split.
    + intros Ho.
      apply (initialize_serves now opens defaultConfigs chain [config] config);
        try done.
      * exact defaultConfigs_uniqueKeys.
      * apply list_elem_of_here.
      * by rewrite Hcu.
      * rewrite Hcu. intros (chain' & cfgs & c & Hin & Hc & Hu & Hno).
        rewrite (Huniq chain' cfgs c Hin Hc Hu) in Hno. congruence.
    + intros Ho.
      apply (initialize_exhausts now opens defaultConfigs chain [config]);
        [exact defaultConfigs_uniqueKeys | done |].
      constructor; [by rewrite Hcu | constructor].
Qed.

Lemma first_request_after_startup_witness :
  ("solana", getSolanaConnection) ∈ accessors
  ∧ (getSolanaConnection 50 1500 exSolanaDown).1 = Throw stackError
  ∧ ∃ conn, (getEthereumProvider 1 1500 exSolanaDown).1 = Normal conn.
Proof.
  split; [apply list_elem_of_here|].
  pose proof (proj2 (first_request_after_startup 0
                       (λ chain _, negb (String.eqb chain "solana")))) as H.
  split.
  - exact (proj2 (H "solana" getSolanaConnection
                    "https://api.mainnet-beta.solana.com" 50%nat 1500
                    (list_elem_of_here _ _) eq_refl) eq_refl).
  - apply (proj1 (H "ethereum" getEthereumProvider ethUrl 0%nat 1500
                    ltac:(apply list_elem_of_further, list_elem_of_here) eq_refl)).
    reflexivity.
Defined.
